(** * DBLight: the single-file store, the sharded store and the RAM cache tier

    A shallow embedding of [DBLight/system.py] (class [Light]),
    [DBLight/MasterLight.py] (classes [Shard] and [MasterLight]) and
    [DBLight/flash.py] (class [flash]), followed by the properties of the
    engine that are established on it.

    Conventions of the embedding.
    - Python [str] is [string] (a string is its UTF-8 byte sequence), Python
      [int] is [Z]; [time.time()] and TTLs are integers counted in ticks.
    - A Python [dict] whose iteration order is observable (an [OrderedDict],
      a mapping handed to [set_multiple], a JSON object) is an association
      list kept in insertion order; a dict or set that is only looked up is a
      [gmap] or a [gset].
    - A method is a function from the receiver's state to an outcome and the
      state it leaves behind: an exception does not undo the mutations made
      before it was raised.
    - SQLite is a finite map from table names to rows; a statement on a
      table that does not exist raises [OperationalError].  Every statement
      is appended to the connection's journal, so that "no I/O happened" is
      the statement that the journal did not grow.
    - [ujson] and [zlib] are libraries outside the repository: they are the
      fields of the class [Libs]. *)

From Stdlib Require Import ZArith Lia List Ascii String Sorted.
From Stdlib.Strings Require Import Byte.
From stdpp Require Import base option list gmap strings.

Local Open Scope string_scope.
Local Open Scope list_scope.
Local Open Scope Z_scope.
Set Warnings "-register-all".

(** ** Python values, exceptions and outcomes *)

Inductive value : Type :=
  | VNone
  | VBool (b : bool)
  | VInt (z : Z)
  | VStr (s : string)
  | VList (l : list value)
  | VDict (d : list (string * value)).

Inductive exn : Type :=
  | ValueError
  | KeyError
  | TypeError
  | OperationalError
  | AttributeError
  | CallbackError (n : nat).

Inductive result (A : Type) : Type :=
  | Ok (a : A)
  | Raise (e : exn).
Arguments Ok {A} a.
Arguments Raise {A} e.

(** A method of an object whose state has type [S]. *)
Definition M (S A : Type) : Type := S -> result A * S.

Definition ret {S A} (a : A) : M S A := fun s => (Ok a, s).
Definition raise {S A} (e : exn) : M S A := fun s => (Raise e, s).
Definition bind {S A B} (m : M S A) (k : A -> M S B) : M S B :=
  fun s => match m s with
           | (Ok a, s') => k a s'
           | (Raise e, s') => (Raise e, s')
           end.
Definition gets {S A} (f : S -> A) : M S A := fun s => (Ok (f s), s).
Definition modify {S} (f : S -> S) : M S unit := fun s => (Ok tt, f s).
(** [try: m except KeyError: h] *)
Definition except_KeyError {S A} (m : M S A) (h : M S A) : M S A :=
  fun s => match m s with
           | (Raise KeyError, s') => h s'
           | r => r
           end.
(** [try: m except Exception: h] *)
Definition except_Exception {S A} (m : M S A) (h : M S A) : M S A :=
  fun s => match m s with
           | (Raise _, s') => h s'
           | r => r
           end.

Declare Scope py_scope.
Delimit Scope py_scope with py.
Notation "x <- m ;; k" := (bind m (fun x => k))
  (at level 100, m at next level, right associativity) : py_scope.
Notation "m ;;; k" := (bind m (fun _ => k))
  (at level 100, right associativity) : py_scope.

(** [for x in l: body x] *)
Fixpoint for_each {S A} (l : list A) (body : A -> M S unit) : M S unit :=
  match l with
  | [] => ret tt
  | x :: l' => bind (body x) (fun _ => for_each l' body)
  end.

(** [name or default]: [None] and the empty string are falsy. *)
Definition py_or (name : option string) (default : string) : string :=
  match name with
  | None => default
  | Some n => if decide (n = EmptyString) then default else n
  end.

(** ** Insertion-ordered dictionaries

    [collections.OrderedDict] and the plain [dict] where order matters. *)
Module OrderedDict.
Section ops.
Context {K V : Type} `{EqDecision K}.
Implicit Types (d : list (K * V)) (k : K).

(** [d.get(k)] *)
Fixpoint get k d : option V :=
  match d with
  | [] => None
  | (k', v) :: d' => if decide (k' = k) then Some v else get k d'
  end.

(** [k in d] *)
Definition contains k d : bool := bool_decide (is_Some (get k d)).

(** [d[k] = v]: an existing key keeps its position, a new one is appended. *)
Fixpoint set k (v : V) d : list (K * V) :=
  match d with
  | [] => [(k, v)]
  | (k', v') :: d' =>
      if decide (k' = k) then (k, v) :: d' else (k', v') :: set k v d'
  end.

(** [d.pop(k, None)] *)
Definition pop k d : list (K * V) :=
  filter (fun kv => kv.1 <> k) d.

(** [d.move_to_end(k)], which raises [KeyError] when [k] is missing. *)
Definition move_to_end k d : option (list (K * V)) :=
  match get k d with
  | None => None
  | Some v => Some (pop k d ++ [(k, v)])
  end.

(** [d.popitem(last=False)], which raises [KeyError] on an empty dict. *)
Definition popitem_first d : option ((K * V) * list (K * V)) :=
  match d with
  | [] => None
  | kv :: d' => Some (kv, d')
  end.

(** [d.keys()] *)
Definition keys d : list K := d.*1.

(** [d.update(other)] *)
Definition update (other : list (K * V)) d : list (K * V) :=
  fold_left (fun acc kv => set kv.1 kv.2 acc) other d.
End ops.
End OrderedDict.

(** ** The codec: [ujson] and [zlib] *)

Class Libs : Type := {
  ujson_dumps : value -> result string;
  ujson_loads : string -> result value;
  zlib_compress : list byte -> list byte;
  zlib_decompress : list byte -> result (list byte);
}.

(** What a [value ANY] column holds: Python [str] or [bytes]. *)
Inductive stored : Type :=
  | SText (s : string)
  | SBytes (b : list byte).

Definition COMPRESSION_THRESHOLD : Z := 1024.

(** [str.encode("utf-8")] and [bytes.decode("utf-8")]. *)
Definition encode_utf8 (s : string) : list byte := list_byte_of_string s.
Definition decode_utf8 (b : list byte) : string := string_of_list_byte b.

Section codec.
Context `{Libs}.

Definition _serialize (v : value) : result stored :=
  match ujson_dumps v with
  | Raise e => Raise e
  | Ok json_str =>
      if COMPRESSION_THRESHOLD <? Z.of_nat (String.length json_str)
      then Ok (SBytes (zlib_compress (encode_utf8 json_str)))
      else Ok (SText json_str)
  end.

Definition _deserialize (x : stored) : result value :=
  match x with
  | SBytes b =>
      match zlib_decompress b with
      | Raise e => Raise e
      | Ok raw => ujson_loads (decode_utf8 raw)
      end
  | SText s => ujson_loads s
  end.
End codec.

(** ** SQLite connections *)
Module Sqlite.
Inductive stmt : Type :=
  | CreateTableIfNotExists (t : string)
  | DropTableIfExists (t : string)
  | SelectValue (t k : string)
  | SelectExists (t k : string)
  | SelectIn (t : string) (ks : list string)
  | SelectKeys (t : string)
  | SelectAll (t : string)
  | SelectTables
  | InsertOrReplace (t : string) (batch : list (string * stored))
  | DeleteKey (t k : string)
  | DeleteIn (t : string) (ks : list string)
  | DeleteAll (t : string)
  | Commit.

Record conn : Type := {
  tables : gmap string (gmap string stored);
  journal : list stmt;
}.

Definition empty : conn := {| tables := ∅; journal := [] |}.

Definition logged (q : stmt) (c : conn) : conn :=
  {| tables := tables c; journal := journal c ++ [q] |}.

Definition with_tables (f : gmap string (gmap string stored) ->
                            gmap string (gmap string stored))
    (c : conn) : conn :=
  {| tables := f (tables c); journal := journal c |}.

(** A statement on table [t]: [OperationalError] when [t] does not exist. *)
Definition on_table {A} (q : stmt) (t : string)
    (f : gmap string stored -> A * gmap string stored) : M conn A :=
  fun c =>
    let c := logged q c in
    match tables c !! t with
    | None => (Raise OperationalError, c)
    | Some rows =>
        let '(a, rows') := f rows in
        (Ok a, with_tables (insert t rows') c)
    end.

Definition create_table_if_not_exists (t : string) : M conn unit :=
  fun c =>
    let c := logged (CreateTableIfNotExists t) c in
    match tables c !! t with
    | None => (Ok tt, with_tables (insert t ∅) c)
    | Some _ => (Ok tt, c)
    end.

Definition drop_table_if_exists (t : string) : M conn unit :=
  fun c => (Ok tt, with_tables (delete t) (logged (DropTableIfExists t) c)).

Definition select_value (t k : string) : M conn (option stored) :=
  on_table (SelectValue t k) t (fun rows => (rows !! k, rows)).

Definition select_exists (t k : string) : M conn bool :=
  on_table (SelectExists t k) t
    (fun rows => (bool_decide (is_Some (rows !! k)), rows)).

Definition select_in (t : string) (ks : list string)
    : M conn (list (string * stored)) :=
  on_table (SelectIn t ks) t
    (fun rows =>
       (omap (fun k => pair k <$> rows !! k) (remove_dups ks), rows)).

Definition select_keys (t : string) : M conn (list string) :=
  on_table (SelectKeys t) t (fun rows => ((map_to_list rows).*1, rows)).

Definition select_all (t : string) : M conn (list (string * stored)) :=
  on_table (SelectAll t) t (fun rows => (map_to_list rows, rows)).

Definition select_tables : M conn (list string) :=
  fun c => let c := logged SelectTables c in
           (Ok (map_to_list (tables c)).*1, c).

Definition insert_or_replace (t : string) (batch : list (string * stored))
    : M conn unit :=
  on_table (InsertOrReplace t batch) t
    (fun rows => (tt, fold_left (fun r kv => <[kv.1 := kv.2]> r) batch rows)).

Definition delete_key (t k : string) : M conn unit :=
  on_table (DeleteKey t k) t (fun rows => (tt, delete k rows)).

Definition delete_in (t : string) (ks : list string) : M conn unit :=
  on_table (DeleteIn t ks) t
    (fun rows => (tt, fold_left (fun r k => delete k r) ks rows)).

Definition delete_all (t : string) : M conn unit :=
  on_table (DeleteAll t) t (fun _ => (tt, ∅)).

Definition commit : M conn unit :=
  fun c => (Ok tt, logged Commit c).
End Sqlite.

(** [l[i:i+n] for i in range(0, len(l), n)] *)
Fixpoint chunks_fuel {A} (fuel : nat) (n : nat) (l : list A) : list (list A) :=
  match fuel with
  | O => []
  | S fuel' =>
      match l with
      | [] => []
      | _ => take n l :: chunks_fuel fuel' n (drop n l)
      end
  end.
Definition chunks {A} (n : nat) (l : list A) : list (list A) :=
  chunks_fuel (length l) n l.

(** An outcome computed without touching the state. *)
Definition lift {S A} (r : result A) : M S A := fun s => (r, s).

(** [d.get(k)] on a value that is known to be a JSON object. *)
Definition is_dict (v : value) : bool :=
  match v with VDict _ => true | _ => false end.

(** ** The single-file store: class [Light] of [system.py] *)
Module Light.
Section Light.
Context `{Libs}.
Local Open Scope py_scope.

Record state : Type := {
  default_table : string;
  _cache : gmap string (gmap string value);
  _dirty_keys : list (string * gset string);
  container : Sqlite.conn;
}.

Definition with_cache (f : gmap string (gmap string value) ->
                           gmap string (gmap string value)) (s : state) :=
  {| default_table := default_table s; _cache := f (_cache s);
     _dirty_keys := _dirty_keys s; container := container s |}.
Definition with_dirty (f : list (string * gset string) ->
                           list (string * gset string)) (s : state) :=
  {| default_table := default_table s; _cache := _cache s;
     _dirty_keys := f (_dirty_keys s); container := container s |}.
Definition with_container (c : Sqlite.conn) (s : state) :=
  {| default_table := default_table s; _cache := _cache s;
     _dirty_keys := _dirty_keys s; container := c |}.

(** [self.cursor.execute(...)] and [self.container.commit()] *)
Definition sql {A} (q : M Sqlite.conn A) : M state A :=
  fun s => let '(r, c) := q (container s) in (r, with_container c s).

(** [_table_regex = re.compile(r"^[A-Za-z0-9_]+$")] *)
Definition table_char (c : ascii) : bool :=
  let n := nat_of_ascii c in
  ((65 <=? n) && (n <=? 90) || (97 <=? n) && (n <=? 122)
   || (48 <=? n) && (n <=? 57) || (n =? 95))%nat.
Definition _table_regex_fullmatch (target : string) : bool :=
  match list_ascii_of_string target with
  | [] => false
  | cs => forallb table_char cs
  end.

Definition _validate_table (name : option string) : M state string :=
  fun s =>
    let target := py_or name (default_table s) in
    if _table_regex_fullmatch target then (Ok target, s)
    else (Raise ValueError, s).

(** [if table not in self._cache: self._cache[table] = {};
     self._dirty_keys[table] = set()] *)
Definition track (table : string) (s : state) : state :=
  match _cache s !! table with
  | Some _ => s
  | None => with_dirty (OrderedDict.set table ∅) (with_cache (insert table ∅) s)
  end.

(** [if table not in self._cache: self._cache[table] = {}] followed by
    [self._cache[table][key] = val] *)
Definition cache_store (table key : string) (val : value) (s : state) : state :=
  with_cache (fun c => <[table := <[key := val]> (default ∅ (c !! table))]> c) s.

Definition cache_lookup (table key : string) (s : state) : option value :=
  _cache s !! table ≫= fun tc => tc !! key.

Definition create_table (table_name : option string) : M state unit :=
  table <- _validate_table table_name ;;
  sql (Sqlite.create_table_if_not_exists table) ;;;
  sql Sqlite.commit ;;;
  modify (track table).

(** [Light(containername, table_name, path)] on the database file [file]:
    [_validate_table] reads [self.default_table] before it is assigned when
    [table_name] is empty, which is an [AttributeError]. *)
Definition init (table_name : string) (file : Sqlite.conn) : result unit * state :=
  let s0 := {| default_table := table_name; _cache := ∅; _dirty_keys := [];
               container := file |} in
  if decide (table_name = EmptyString) then (Raise AttributeError, s0)
  else if _table_regex_fullmatch table_name
       then create_table (Some table_name) s0
       else (Raise ValueError, s0).

Definition get_value (key : string) (table : option string) : M state value :=
  table <- _validate_table table ;;
  hit <- gets (cache_lookup table key) ;;
  match hit with
  | Some v => ret v
  | None =>
      row <- sql (Sqlite.select_value table key) ;;
      match row with
      | Some x =>
          val <- lift (_deserialize x) ;;
          modify (cache_store table key val) ;;;
          ret val
      | None => ret VNone
      end
  end.

(** [self._dirty_keys[table].add(key)], a [KeyError] when the table has a
    cache but no dirty set. *)
Definition dirty_add (table : string) (ks : list string) : M state unit :=
  fun s =>
    match OrderedDict.get table (_dirty_keys s) with
    | None => (Raise KeyError, s)
    | Some d =>
        (Ok tt, with_dirty (OrderedDict.set table (d ∪ list_to_set ks)) s)
    end.

Definition set_value (key : string) (value : value) (table : option string)
    : M state unit :=
  table <- _validate_table table ;;
  modify (track table) ;;;
  modify (cache_store table key value) ;;;
  dirty_add table [key].

Definition set_multiple (mapping : list (string * value))
    (table : option string) : M state unit :=
  table <- _validate_table table ;;
  modify (track table) ;;;
  modify (fun s => fold_left (fun s kv => cache_store table kv.1 kv.2 s) mapping s) ;;;
  dirty_add table (OrderedDict.keys mapping).

(** The rows of one [SELECT ... WHERE key IN (...)] chunk, decoded and
    merged into [results] and the cache. *)
Fixpoint absorb_rows (table : string) (rows : list (string * stored))
    (results : list (string * value)) : M state (list (string * value)) :=
  match rows with
  | [] => ret results
  | (r_key, r_val) :: rows' =>
      decoded <- lift (_deserialize r_val) ;;
      modify (cache_store table r_key decoded) ;;;
      absorb_rows table rows' (OrderedDict.set r_key decoded results)
  end.

Fixpoint fetch_chunks (table : string) (cs : list (list string))
    (results : list (string * value)) : M state (list (string * value)) :=
  match cs with
  | [] => ret results
  | chunk :: cs' =>
      rows <- sql (Sqlite.select_in table chunk) ;;
      results <- absorb_rows table rows results ;;
      fetch_chunks table cs' results
  end.

Definition get_multiple (keys : list string) (table : option string)
    : M state (list (string * value)) :=
  table <- _validate_table table ;;
  table_cache <- gets (fun s => default ∅ (_cache s !! table)) ;;
  let results :=
    fold_left (fun r k => match table_cache !! k with
                          | Some v => OrderedDict.set k v r
                          | None => r
                          end) keys [] in
  let missing := filter (fun k => table_cache !! k = None) keys in
  fetch_chunks table (chunks 900 missing) results.

(** [self._cache[table].pop(k, None)] and [self._dirty_keys[table].discard(k)],
    each only for a table that is tracked. *)
Definition forget (table key : string) (s : state) : state :=
  with_dirty (fun d => match OrderedDict.get table d with
                       | Some ks => OrderedDict.set table (ks ∖ {[key]}) d
                       | None => d
                       end)
    (with_cache (fun c => match c !! table with
                          | Some tc => <[table := delete key tc]> c
                          | None => c
                          end) s).

Definition delete_multiple (keys : list string) (table : option string)
    : M state unit :=
  table <- _validate_table table ;;
  modify (fun s => fold_left (fun s k => forget table k s) keys s) ;;;
  for_each (chunks 900 keys) (fun chunk => sql (Sqlite.delete_in table chunk)) ;;;
  sql Sqlite.commit.

Definition delete (key : string) (table : option string) : M state unit :=
  table <- _validate_table table ;;
  modify (forget table key) ;;;
  sql (Sqlite.delete_key table key) ;;;
  sql Sqlite.commit.

Definition check (key : string) (table : option string) : M state bool :=
  table <- _validate_table table ;;
  hit <- gets (cache_lookup table key) ;;
  match hit with
  | Some _ => ret true
  | None => sql (Sqlite.select_exists table key)
  end.

Definition list_keys (table : option string) : M state (list string) :=
  table <- _validate_table table ;;
  on_disk <- sql (Sqlite.select_keys table) ;;
  in_memory <- gets (fun s => default ∅ (dom <$> _cache s !! table)) ;;
  ret (elements ((list_to_set on_disk : gset string) ∪ in_memory)).

(** The batch [(key, _serialize(cache[key]))] of the dirty keys that are
    cached; [self._cache[t_name]] is a [KeyError] for an untracked table. *)
Fixpoint flush_batch (tc : gmap string value) (dirty : list string)
    : result (list (string * stored)) :=
  match dirty with
  | [] => Ok []
  | key :: dirty' =>
      match tc !! key with
      | None => flush_batch tc dirty'
      | Some v =>
          match _serialize v with
          | Raise e => Raise e
          | Ok x =>
              match flush_batch tc dirty' with
              | Raise e => Raise e
              | Ok b => Ok ((key, x) :: b)
              end
          end
      end
  end.

Definition flush_table (clear_cache : bool) (t_name : string) : M state unit :=
  t_name <- _validate_table (Some t_name) ;;
  dirty <- gets (fun s => OrderedDict.get t_name (_dirty_keys s)) ;;
  match dirty with
  | None => ret tt
  | Some ks =>
      if decide (ks = ∅) then ret tt
      else
        sql (Sqlite.create_table_if_not_exists t_name) ;;;
        tc <- (fun s => match _cache s !! t_name with
                        | Some tc => (Ok tc, s)
                        | None => (Raise KeyError, s)
                        end) ;;
        batch <- lift (flush_batch tc (elements ks)) ;;
        (match batch with
         | [] => ret tt
         | _ => sql (Sqlite.insert_or_replace t_name batch)
         end) ;;;
        sql Sqlite.commit ;;;
        modify (with_dirty (OrderedDict.set t_name ∅)) ;;;
        if clear_cache then modify (with_cache (insert t_name ∅)) else ret tt
  end.

Definition flush (table : option string) (clear_cache : bool) : M state bool :=
  tables_to_flush <- gets (fun s =>
    match table with
    | Some t => if decide (t = EmptyString) then OrderedDict.keys (_dirty_keys s)
                else [t]
    | None => OrderedDict.keys (_dirty_keys s)
    end) ;;
  for_each tables_to_flush (flush_table clear_cache) ;;;
  ret true.

Definition get_column (key column : string) (table : option string)
    : M state value :=
  except_KeyError
    (data <- get_value key table ;;
     match data with
     | VDict d => ret (default VNone (OrderedDict.get column d))
     | _ => ret VNone
     end)
    (ret VNone).

Definition update_column (key column : string) (value : value)
    (table : option string) : M state unit :=
  data <- except_KeyError
    (data <- get_value key table ;;
     match data with
     | VDict d => ret d
     | _ => ret [("value", data)]
     end)
    (ret []) ;;
  set_value key (VDict (OrderedDict.set column value data)) table.

Definition clear_table (table : option string) : M state bool :=
  table <- _validate_table table ;;
  modify (with_cache (fun c => match c !! table with
                               | Some _ => <[table := ∅]> c
                               | None => c
                               end)) ;;;
  modify (with_dirty (fun d => match OrderedDict.get table d with
                               | Some _ => OrderedDict.set table ∅ d
                               | None => d
                               end)) ;;;
  sql (Sqlite.delete_all table) ;;;
  sql Sqlite.commit ;;;
  ret true.

Definition drop_table (table : option string) : M state bool :=
  table <- _validate_table table ;;
  sql (Sqlite.drop_table_if_exists table) ;;;
  sql Sqlite.commit ;;;
  modify (with_cache (base.delete table)) ;;;
  modify (with_dirty (OrderedDict.pop table)) ;;;
  ret true.

Fixpoint decode_rows (rows : list (string * stored))
    (acc : list (string * value)) : result (list (string * value)) :=
  match rows with
  | [] => Ok acc
  | (k, x) :: rows' =>
      match _deserialize x with
      | Raise e => Raise e
      | Ok v => decode_rows rows' (OrderedDict.set k v acc)
      end
  end.

Definition get_all (table : option string) : M state (list (string * value)) :=
  table <- _validate_table table ;;
  rows <- sql (Sqlite.select_all table) ;;
  lift (decode_rows rows []).

(** [name LIKE 'sqlite_%']: [LIKE] ignores the case of ASCII letters, [_]
    stands for one character and [%] for any run of characters. *)
Definition ascii_lower (c : ascii) : ascii :=
  let n := nat_of_ascii c in
  if ((65 <=? n) && (n <=? 90))%nat then ascii_of_nat (n + 32) else c.
Definition like_sqlite_ (name : string) : bool :=
  let cs := map ascii_lower (list_ascii_of_string name) in
  bool_decide (take 6 cs = list_ascii_of_string "sqlite") && (7 <=? length cs)%nat.

Definition list_tables : M state (list string) :=
  names <- sql Sqlite.select_tables ;;
  let tables := filter (fun name => like_sqlite_ name = false) names in
  modify (fun s => fold_left (fun s t => track t s) tables s) ;;;
  ret tables.
End Light.
End Light.

(** ** The reader-writer lock: class [RWLock] of [MasterLight.py]

    Every method runs under [self._lock] and changes the counters in one
    step, once the condition of its [while] loop is false; until then the
    caller waits on the condition variable, which is the outcome [None]. *)
Module RWLock.
Record state : Type := {
  _readers : Z;
  _writing : bool;
}.

Definition init : state := {| _readers := 0; _writing := false |}.

Definition acquire_read (l : state) : option state :=
  if _writing l then None
  else Some {| _readers := _readers l + 1; _writing := _writing l |}.

Definition release_read (l : state) : option state :=
  Some {| _readers := _readers l - 1; _writing := _writing l |}.

Definition acquire_write (l : state) : option state :=
  if _writing l || (0 <? _readers l) then None
  else Some {| _readers := _readers l; _writing := true |}.

Definition release_write (l : state) : option state :=
  Some {| _readers := _readers l; _writing := false |}.
End RWLock.

(** ** The sharded store: classes [Shard] and [MasterLight] of [MasterLight.py] *)
Module MasterLight.
Section MasterLight.
Context `{Libs}.
Local Open Scope py_scope.

Definition MAX_SHARD_SIZE : Z := 100 * 1024 * 1024.
(** [@lru_cache(maxsize=10000)] *)
Definition LOOKUP_CACHE_SIZE : Z := 10000.

Record Shard : Type := {
  conn : Sqlite.conn;
  _cache : gmap string (gmap string value);
  _dirty : list (string * gset string);
  _last_size : Z;
}.

Definition estimate_size (sh : Shard) : Z := _last_size sh.

(** [idx] is the table of [master_index.db]; [lookup_cache] is the memo
    of [_lookup_shard_id], least recently used entry first; [files] are
    the shard files of [base_path] that no [Shard] object has opened. *)
Record state : Type := {
  default_table : string;
  idx : gmap (string * string) Z;
  lookup_cache : list ((string * string) * option Z);
  shards : list (Z * Shard);
  active_shard_id : Z;
  files : gmap Z Sqlite.conn;
}.

Definition with_idx (f : gmap (string * string) Z -> gmap (string * string) Z)
    (s : state) : state :=
  {| default_table := default_table s; idx := f (idx s);
     lookup_cache := lookup_cache s; shards := shards s;
     active_shard_id := active_shard_id s; files := files s |}.
Definition with_lookup_cache
    (f : list ((string * string) * option Z) ->
         list ((string * string) * option Z)) (s : state) : state :=
  {| default_table := default_table s; idx := idx s;
     lookup_cache := f (lookup_cache s); shards := shards s;
     active_shard_id := active_shard_id s; files := files s |}.
Definition with_shards (f : list (Z * Shard) -> list (Z * Shard))
    (s : state) : state :=
  {| default_table := default_table s; idx := idx s;
     lookup_cache := lookup_cache s; shards := f (shards s);
     active_shard_id := active_shard_id s; files := files s |}.
Definition with_active (f : Z -> Z) (s : state) : state :=
  {| default_table := default_table s; idx := idx s;
     lookup_cache := lookup_cache s; shards := shards s;
     active_shard_id := f (active_shard_id s); files := files s |}.

(** [SELECT MAX(shard_id) FROM idx] *)
Definition max_shard_id (i : gmap (string * string) Z) : option Z :=
  foldr (fun sid acc => Some (match acc with
                              | None => sid
                              | Some m => Z.max sid m
                              end)) None (map_to_list i).*2.

Definition _get_last_shard_id (i : gmap (string * string) Z) : Z :=
  default 0 (max_shard_id i).

(** [MasterLight(base_path, default_table)] on a directory that holds the
    index [index] and the shard files [shard_files]. *)
Definition init (default_table : string) (index : gmap (string * string) Z)
    (shard_files : gmap Z Sqlite.conn) : state :=
  {| default_table := default_table; idx := index; lookup_cache := [];
     shards := []; active_shard_id := _get_last_shard_id index;
     files := shard_files |}.

Definition cache_clear : M state unit :=
  modify (with_lookup_cache (fun _ => [])).

Definition _lookup_shard_id (table key : string) : M state (option Z) :=
  fun s =>
    let p := (table, key) in
    match OrderedDict.get p (lookup_cache s) with
    | Some r =>
        (Ok r, with_lookup_cache
                 (fun m => default m (OrderedDict.move_to_end p m)) s)
    | None =>
        let r := idx s !! p in
        (Ok r, with_lookup_cache
                 (fun m => let m := OrderedDict.set p r m in
                           if LOOKUP_CACHE_SIZE <? Z.of_nat (length m)
                           then tail m else m) s)
    end.

Definition with_cache (f : gmap string (gmap string value) ->
                           gmap string (gmap string value)) (sh : Shard) :=
  {| conn := conn sh; _cache := f (_cache sh); _dirty := _dirty sh;
     _last_size := _last_size sh |}.
Definition with_dirty (f : list (string * gset string) ->
                           list (string * gset string)) (sh : Shard) :=
  {| conn := conn sh; _cache := _cache sh; _dirty := f (_dirty sh);
     _last_size := _last_size sh |}.
Definition with_conn (c : Sqlite.conn) (sh : Shard) :=
  {| conn := c; _cache := _cache sh; _dirty := _dirty sh;
     _last_size := _last_size sh |}.
Definition with_last_size (z : Z) (sh : Shard) :=
  {| conn := conn sh; _cache := _cache sh; _dirty := _dirty sh;
     _last_size := z |}.

(** [shard.conn.execute(...)] *)
Definition sql {A} (q : M Sqlite.conn A) : M Shard A :=
  fun sh => let '(r, c) := q (conn sh) in (r, with_conn c sh).

(** [if t not in shard._cache: shard._cache[t] = {}] followed by
    [shard._cache[t][key] = val] *)
Definition cache_store (t key : string) (val : value) (sh : Shard) : Shard :=
  with_cache (fun c => <[t := <[key := val]> (default ∅ (c !! t))]> c) sh.

Definition cache_lookup (t key : string) (sh : Shard) : option value :=
  _cache sh !! t ≫= fun tc => tc !! key.

Section with_file_sizes.
(** [os.path.getsize] of the file of each shard, as the operating
    system reports it during the call. *)
Variable getsize : Z -> Z.

(** [Shard(db_path)]: [sqlite3.connect] opens the file, creating it when
    it is missing, and [_last_size] is its size. *)
Definition open_shard (shard_id : Z) (s : state) : Shard :=
  {| conn := default Sqlite.empty (files s !! shard_id);
     _cache := ∅; _dirty := []; _last_size := getsize shard_id |}.

Definition _get_shard (shard_id : Z) : M state Shard :=
  fun s =>
    match OrderedDict.get shard_id (shards s) with
    | Some sh => (Ok sh, s)
    | None =>
        let sh := open_shard shard_id s in
        (Ok sh, with_shards (OrderedDict.set shard_id sh) s)
    end.

(** A block that mutates the shard object [shard_id] ([with shard._lock]). *)
Definition on_shard {A} (shard_id : Z) (body : M Shard A) : M state A :=
  sh <- _get_shard shard_id ;;
  fun s => let '(r, sh') := body sh in
           (r, with_shards (OrderedDict.set shard_id sh') s).

(** The rotation of [set_multiple] for a pair that the index does not
    hold: the shard id the pair is assigned. *)
Definition assign_shard : M state Z :=
  active <- gets active_shard_id ;;
  sh <- _get_shard active ;;
  (if MAX_SHARD_SIZE <? estimate_size sh
   then modify (with_active (fun a => a + 1)) else ret tt) ;;;
  sid <- gets active_shard_id ;;
  cache_clear ;;;
  ret sid.

(** The loop of [set_multiple] over [mapping.items()]. *)
Fixpoint route (t : string) (mapping : list (string * value))
    (groups : list (Z * list (string * value)))
    (new_idx : list (string * string * Z))
    : M state (list (Z * list (string * value)) * list (string * string * Z)) :=
  match mapping with
  | [] => ret (groups, new_idx)
  | (k, v) :: mapping' =>
      found <- _lookup_shard_id t k ;;
      assigned <-
        match found with
        | Some sid => ret (sid, new_idx)
        | None => sid <- assign_shard ;; ret (sid, new_idx ++ [(t, k, sid)])
        end ;;
      let '(sid, new_idx) := assigned in
      let dmap := default [] (OrderedDict.get sid groups) in
      route t mapping' (OrderedDict.set sid (OrderedDict.set k v dmap) groups)
        new_idx
  end.

(** [INSERT OR REPLACE INTO idx VALUES (?,?,?)] for every row. *)
Definition insert_index (new_idx : list (string * string * Z))
    (i : gmap (string * string) Z) : gmap (string * string) Z :=
  fold_left (fun i row => <[(row.1.1, row.1.2) := row.2]> i) new_idx i.

(** The body of [with shard._lock] in [set_multiple]. *)
Definition shard_update (t : string) (dmap : list (string * value))
    : M Shard unit :=
  modify (fun sh => match _cache sh !! t with
                    | Some _ => sh
                    | None => with_dirty (OrderedDict.set t ∅)
                                (with_cache (insert t ∅) sh)
                    end) ;;;
  modify (fun sh => fold_left (fun sh kv => cache_store t kv.1 kv.2 sh) dmap sh) ;;;
  fun sh => match OrderedDict.get t (_dirty sh) with
            | None => (Raise KeyError, sh)
            | Some ks =>
                (Ok tt, with_dirty
                          (OrderedDict.set t
                             (ks ∪ list_to_set (OrderedDict.keys dmap))) sh)
            end.

Definition set_multiple (mapping : list (string * value))
    (table : option string) : M state unit :=
  t <- gets (fun s => py_or table (default_table s)) ;;
  routed <- route t mapping [] [] ;;
  let '(groups, new_idx) := routed in
  modify (with_idx (insert_index new_idx)) ;;;
  for_each groups (fun g => on_shard g.1 (shard_update t g.2)).

Definition set_value (key : string) (value : value) (table : option string)
    : M state unit :=
  set_multiple [(key, value)] table.

Definition get_value (key : string) (table : option string)
    (default : value) : M state value :=
  t <- gets (fun s => py_or table (default_table s)) ;;
  sid <- _lookup_shard_id t key ;;
  match sid with
  | None => ret default
  | Some sid =>
      on_shard sid
        (hit <- gets (cache_lookup t key) ;;
         match hit with
         | Some v => ret v
         | None =>
             sql (Sqlite.create_table_if_not_exists t) ;;;
             row <- sql (Sqlite.select_value t key) ;;
             match row with
             | Some x =>
                 val <- lift (_deserialize x) ;;
                 modify (cache_store t key val) ;;;
                 ret val
             | None => ret default
             end
         end)
  end.

(** [for k in keys: sid = lookup(t, k); if sid is not None:
     groups[sid].append(k)] *)
Fixpoint group_keys (t : string) (keys : list string)
    (groups : list (Z * list string)) : M state (list (Z * list string)) :=
  match keys with
  | [] => ret groups
  | k :: keys' =>
      sid <- _lookup_shard_id t k ;;
      match sid with
      | Some sid =>
          let skeys := default [] (OrderedDict.get sid groups) in
          group_keys t keys' (OrderedDict.set sid (skeys ++ [k]) groups)
      | None => group_keys t keys' groups
      end
  end.

Fixpoint absorb_rows (t : string) (rows : list (string * stored))
    (results : list (string * value)) : M Shard (list (string * value)) :=
  match rows with
  | [] => ret results
  | (rk, rv) :: rows' =>
      val <- lift (_deserialize rv) ;;
      modify (cache_store t rk val) ;;;
      absorb_rows t rows' (OrderedDict.set rk val results)
  end.

Fixpoint fetch_chunks (t : string) (cs : list (list string))
    (results : list (string * value)) : M Shard (list (string * value)) :=
  match cs with
  | [] => ret results
  | chunk :: cs' =>
      rows <- sql (Sqlite.select_in t chunk) ;;
      results <- absorb_rows t rows results ;;
      fetch_chunks t cs' results
  end.

Definition shard_get_multiple (t : string) (skeys : list string)
    (results : list (string * value)) : M Shard (list (string * value)) :=
  tc <- gets (fun sh => default ∅ (_cache sh !! t)) ;;
  let results :=
    fold_left (fun r k => match tc !! k with
                          | Some v => OrderedDict.set k v r
                          | None => r
                          end) skeys results in
  let miss := filter (fun k => tc !! k = None) skeys in
  match miss with
  | [] => ret results
  | _ =>
      sql (Sqlite.create_table_if_not_exists t) ;;;
      fetch_chunks t (chunks 999 miss) results
  end.

Fixpoint get_multiple_groups (t : string) (groups : list (Z * list string))
    (results : list (string * value)) : M state (list (string * value)) :=
  match groups with
  | [] => ret results
  | (sid, skeys) :: groups' =>
      results <- on_shard sid (shard_get_multiple t skeys results) ;;
      get_multiple_groups t groups' results
  end.

Definition get_multiple (keys : list string) (table : option string)
    : M state (list (string * value)) :=
  t <- gets (fun s => py_or table (default_table s)) ;;
  shard_groups <- group_keys t keys [] ;;
  get_multiple_groups t shard_groups [].

Definition shard_delete (t : string) (skeys : list string) : M Shard unit :=
  modify (with_cache (fun c => match c !! t with
                               | Some tc => <[t := fold_left (fun tc k => base.delete k tc) skeys tc]> c
                               | None => c
                               end)) ;;;
  modify (with_dirty (fun d => match OrderedDict.get t d with
                               | Some ks => OrderedDict.set t (ks ∖ list_to_set skeys) d
                               | None => d
                               end)) ;;;
  for_each (chunks 999 skeys) (fun chunk => sql (Sqlite.delete_in t chunk)) ;;;
  sql Sqlite.commit.

(** [DELETE FROM idx WHERE table_name=? AND key=?] for every key. *)
Definition delete_index (t : string) (keys : list string)
    (i : gmap (string * string) Z) : gmap (string * string) Z :=
  fold_left (fun i k => base.delete (t, k) i) keys i.

Definition delete_multiple (keys : list string) (table : option string)
    : M state unit :=
  t <- gets (fun s => py_or table (default_table s)) ;;
  groups <- group_keys t keys [] ;;
  for_each groups (fun g => on_shard g.1 (shard_delete t g.2)) ;;;
  match keys with
  | [] => ret tt
  | _ => modify (with_idx (delete_index t keys)) ;;; cache_clear
  end.

Definition delete (key : string) (table : option string) : M state unit :=
  delete_multiple [key] table.

Definition check (key : string) (table : option string) : M state bool :=
  t <- gets (fun s => py_or table (default_table s)) ;;
  sid <- _lookup_shard_id t key ;;
  ret (bool_decide (is_Some sid)).

Definition list_keys (table : option string) : M state (list string) :=
  t <- gets (fun s => py_or table (default_table s)) ;;
  gets (fun s => (filter (fun p => p.1 = t) (map_to_list (idx s)).*1).*2).

Definition list_tables : M state (list string) :=
  gets (fun s => remove_dups (map_to_list (idx s)).*1.*1).

Definition create_table (table_name : string) : M state bool :=
  active <- gets active_shard_id ;;
  on_shard active (sql (Sqlite.create_table_if_not_exists table_name)) ;;;
  ret true.

(** [DELETE FROM idx WHERE table_name = ?] *)
Definition delete_index_table (table : string)
    (i : gmap (string * string) Z) : gmap (string * string) Z :=
  filter (fun kv => kv.1.1 <> table) i.

(** [for shard in self.shards.values(): with shard._lock: body] *)
Fixpoint for_each_shard (todo : list Z) (body : M Shard unit) : M state unit :=
  match todo with
  | [] => ret tt
  | sid :: todo' => on_shard sid body ;;; for_each_shard todo' body
  end.

Definition clear_table (table : string) : M state bool :=
  modify (with_idx (delete_index_table table)) ;;;
  open <- gets (fun s => OrderedDict.keys (shards s)) ;;
  for_each_shard open
    (sql (Sqlite.drop_table_if_exists table) ;;;
     sql (Sqlite.create_table_if_not_exists table) ;;;
     modify (with_cache (fun c => match c !! table with
                                  | Some _ => <[table := ∅]> c
                                  | None => c
                                  end)) ;;;
     modify (with_dirty (fun d => match OrderedDict.get table d with
                                  | Some _ => OrderedDict.set table ∅ d
                                  | None => d
                                  end))) ;;;
  cache_clear ;;;
  ret true.

Definition drop_table (table : string) : M state bool :=
  modify (with_idx (delete_index_table table)) ;;;
  open <- gets (fun s => OrderedDict.keys (shards s)) ;;
  for_each_shard open
    (sql (Sqlite.drop_table_if_exists table) ;;;
     modify (with_cache (base.delete table)) ;;;
     modify (with_dirty (OrderedDict.pop table))) ;;;
  cache_clear ;;;
  ret true.

(** [[(k, shard._serialize(shard._cache[t][k])) for k in ks]] *)
Fixpoint flush_batch (tc : option (gmap string value)) (ks : list string)
    : result (list (string * stored)) :=
  match ks with
  | [] => Ok []
  | k :: ks' =>
      match tc ≫= fun tc => tc !! k with
      | None => Raise KeyError
      | Some v =>
          match _serialize v with
          | Raise e => Raise e
          | Ok x =>
              match flush_batch tc ks' with
              | Raise e => Raise e
              | Ok b => Ok ((k, x) :: b)
              end
          end
      end
  end.

Definition flush_dirty_table (t : string) : M Shard unit :=
  ks <- gets (fun sh => default ∅ (OrderedDict.get t (_dirty sh))) ;;
  if decide (ks = ∅) then ret tt
  else
    sql (Sqlite.create_table_if_not_exists t) ;;;
    tc <- gets (fun sh => _cache sh !! t) ;;
    batch <- lift (flush_batch tc (elements ks)) ;;
    sql (Sqlite.insert_or_replace t batch) ;;;
    sql Sqlite.commit ;;;
    modify (with_dirty (OrderedDict.set t ∅)).

Definition flush_shard (clear_cache : bool) (shard_id : Z) : M Shard unit :=
  dirty_tables <- gets (fun sh => OrderedDict.keys (_dirty sh)) ;;
  for_each dirty_tables flush_dirty_table ;;;
  (if clear_cache then modify (with_cache (fun _ => ∅)) else ret tt) ;;;
  modify (with_last_size (getsize shard_id)).

Definition flush (clear_cache : bool) : M state bool :=
  open <- gets (fun s => OrderedDict.keys (shards s)) ;;
  for_each open (fun sid => on_shard sid (flush_shard clear_cache sid)) ;;;
  ret true.

Fixpoint decode_rows (rows : list (string * stored))
    (acc : list (string * value)) : result (list (string * value)) * list (string * value) :=
  match rows with
  | [] => (Ok acc, acc)
  | (rk, rv) :: rows' =>
      match _deserialize rv with
      | Raise e => (Raise e, acc)
      | Ok v => decode_rows rows' (OrderedDict.set rk v acc)
      end
  end.

(** The body of the loop of [get_all] for one shard file; its
    [except (sqlite3.OperationalError, ValueError): continue] keeps the
    rows decoded before the failure. *)
Definition get_all_shard (t : string) (shard_id : Z)
    (combined_data : list (string * value))
    : M state (list (string * value)) :=
  fun s =>
    match on_shard shard_id (sql (Sqlite.select_all t)) s with
    | (Raise OperationalError, s') => (Ok combined_data, s')
    | (Raise e, s') => (Raise e, s')
    | (Ok rows, s') =>
        match decode_rows rows combined_data with
        | (Ok acc, _) => (Ok acc, s')
        | (Raise ValueError, acc) => (Ok acc, s')
        | (Raise e, _) => (Raise e, s')
        end
    end.

Fixpoint get_all_files (t : string) (todo : list Z)
    (combined_data : list (string * value))
    : M state (list (string * value)) :=
  match todo with
  | [] => ret combined_data
  | sid :: todo' =>
      combined_data <- get_all_shard t sid combined_data ;;
      get_all_files t todo' combined_data
  end.

Definition get_all (table : option string) : M state (list (string * value)) :=
  t <- gets (fun s => py_or table (default_table s)) ;;
  on_disk <- gets (fun s => elements (dom (files s) ∪
                                      list_to_set (OrderedDict.keys (shards s)))) ;;
  get_all_files t on_disk [].
End with_file_sizes.
End MasterLight.
End MasterLight.

(** ** The backend capability set

    The methods of the backend ([Light] or [MasterLight]) that [flash]
    calls on [self.db]. *)
Class Backend (B : Type) : Type := {
  db_get_value : string -> string -> M B value;
  db_check : string -> string -> M B bool;
  db_set_multiple : list (string * value) -> string -> M B unit;
  db_delete_multiple : list string -> string -> M B unit;
  db_flush : M B bool;
}.

#[export] Instance Light_backend `{Libs} : Backend Light.state := {
  db_get_value key t := Light.get_value key (Some t);
  db_check key t := Light.check key (Some t);
  db_set_multiple mapping t := Light.set_multiple mapping (Some t);
  db_delete_multiple keys t := Light.delete_multiple keys (Some t);
  db_flush := Light.flush None false;
}.

(** [MasterLight] as a backend, with the file sizes [getsize] that the
    operating system reports. *)
Definition MasterLight_backend `{Libs} (getsize : Z -> Z)
    : Backend MasterLight.state := {|
  db_get_value key t := MasterLight.get_value getsize key (Some t) VNone;
  db_check key t := MasterLight.check key (Some t);
  db_set_multiple mapping t := MasterLight.set_multiple getsize mapping (Some t);
  db_delete_multiple keys t := MasterLight.delete_multiple getsize keys (Some t);
  db_flush := MasterLight.flush getsize false;
|}.

(** The methods of the backend that the discovery and maintenance calls of
    [flash] use; [flash] ignores what [create_table], [clear_table] and
    [drop_table] return. *)
Class BackendAdmin (B : Type) : Type := {
  db_list_keys : string -> M B (list string);
  db_list_tables : M B (list string);
  db_create_table : string -> M B unit;
  db_clear_table : string -> M B unit;
  db_drop_table : string -> M B unit;
  db_get_all : string -> M B (list (string * value));
}.

#[export] Instance Light_admin `{Libs} : BackendAdmin Light.state := {
  db_list_keys t := Light.list_keys (Some t);
  db_list_tables := Light.list_tables;
  db_create_table name := Light.create_table (Some name);
  db_clear_table t := bind (Light.clear_table (Some t)) (fun _ => ret tt);
  db_drop_table t := bind (Light.drop_table (Some t)) (fun _ => ret tt);
  db_get_all t := Light.get_all (Some t);
}.

Definition MasterLight_admin `{Libs} (getsize : Z -> Z)
    : BackendAdmin MasterLight.state := {|
  db_list_keys t := MasterLight.list_keys (Some t);
  db_list_tables := MasterLight.list_tables;
  db_create_table name :=
    bind (MasterLight.create_table getsize name) (fun _ => ret tt);
  db_clear_table t := bind (MasterLight.clear_table getsize t) (fun _ => ret tt);
  db_drop_table t := bind (MasterLight.drop_table getsize t) (fun _ => ret tt);
  db_get_all t := MasterLight.get_all getsize (Some t);
|}.

(** ** The RAM cache tier: class [flash] of [flash.py] *)
Module flash.
(** A callback registered with [watch]: [cb_body] tells whether the call
    returns ([None]) or raises. *)
Record watcher : Type := {
  cb_id : nat;
  cb_body : value -> option exn;
}.

(** A function registered with [use]: [func(key, value) -> processed_value]. *)
Definition middleware : Type := string -> value -> result value.

Section flash.
Context {B : Type} `{Backend B}.
Local Open Scope py_scope.

(** [invoked] records the calls made to watcher callbacks, oldest first. *)
Record state : Type := {
  memory : list (string * list (string * value));
  _cache : list (string * list (string * value));
  _deleted : list (string * gset string);
  db : B;
  max_keys : Z;
  default_table : string;
  _watchers : gmap string (list watcher);
  _middleware : list middleware;
  invoked : list (nat * value);
}.

Definition with_memory (f : list (string * list (string * value)) ->
                            list (string * list (string * value)))
    (s : state) : state :=
  {| memory := f (memory s); _cache := _cache s; _deleted := _deleted s;
     db := db s; max_keys := max_keys s; default_table := default_table s;
     _watchers := _watchers s; _middleware := _middleware s;
     invoked := invoked s |}.
Definition with_cache (f : list (string * list (string * value)) ->
                           list (string * list (string * value)))
    (s : state) : state :=
  {| memory := memory s; _cache := f (_cache s); _deleted := _deleted s;
     db := db s; max_keys := max_keys s; default_table := default_table s;
     _watchers := _watchers s; _middleware := _middleware s;
     invoked := invoked s |}.
Definition with_deleted (f : list (string * gset string) ->
                             list (string * gset string))
    (s : state) : state :=
  {| memory := memory s; _cache := _cache s; _deleted := f (_deleted s);
     db := db s; max_keys := max_keys s; default_table := default_table s;
     _watchers := _watchers s; _middleware := _middleware s;
     invoked := invoked s |}.
Definition with_db (b : B) (s : state) : state :=
  {| memory := memory s; _cache := _cache s; _deleted := _deleted s;
     db := b; max_keys := max_keys s; default_table := default_table s;
     _watchers := _watchers s; _middleware := _middleware s;
     invoked := invoked s |}.
Definition with_watchers (f : gmap string (list watcher) ->
                              gmap string (list watcher))
    (s : state) : state :=
  {| memory := memory s; _cache := _cache s; _deleted := _deleted s;
     db := db s; max_keys := max_keys s; default_table := default_table s;
     _watchers := f (_watchers s); _middleware := _middleware s;
     invoked := invoked s |}.
Definition with_middleware (f : list middleware -> list middleware)
    (s : state) : state :=
  {| memory := memory s; _cache := _cache s; _deleted := _deleted s;
     db := db s; max_keys := max_keys s; default_table := default_table s;
     _watchers := _watchers s; _middleware := f (_middleware s);
     invoked := invoked s |}.
Definition with_invoked (f : list (nat * value) -> list (nat * value))
    (s : state) : state :=
  {| memory := memory s; _cache := _cache s; _deleted := _deleted s;
     db := db s; max_keys := max_keys s; default_table := default_table s;
     _watchers := _watchers s; _middleware := _middleware s;
     invoked := f (invoked s) |}.

(** [flash(..., default_table, max_keys, preload=False)] over the backend
    object [backend]. *)
Definition init (backend : B) (default_table : string) (max_keys : Z) : state :=
  {| memory := []; _cache := []; _deleted := []; db := backend;
     max_keys := max_keys; default_table := default_table;
     _watchers := ∅; _middleware := []; invoked := [] |}.

(** [self.db.method(...)] *)
Definition backend {A} (q : M B A) : M state A :=
  fun s => let '(r, b) := q (db s) in (r, with_db b s).

Definition use (func : middleware) : M state unit :=
  modify (with_middleware (fun l => l ++ [func])).

Definition watch (key : string) (callback : watcher) : M state unit :=
  modify (with_watchers (fun w =>
    <[key := default [] (w !! key) ++ [callback]]> w)).

(** [if t not in d: d[t] = empty] *)
Definition ensure {V} (t : string) (empty : V) (d : list (string * V))
    : list (string * V) :=
  match OrderedDict.get t d with
  | Some _ => d
  | None => OrderedDict.set t empty d
  end.

(** [d[t]] for a table [t] that the caller has just ensured. *)
Definition table_of {V} (t : string) (d : list (string * list (string * V)))
    : list (string * V) :=
  default [] (OrderedDict.get t d).

(** [d[t][key] = item] *)
Definition store_in (t key : string) (item : value)
    (d : list (string * list (string * value)))
    : list (string * list (string * value)) :=
  OrderedDict.set t (OrderedDict.set key item (table_of t d)) d.

(** [if t in d: d[t].pop(key, None)] *)
Definition pop_in (t key : string) (d : list (string * list (string * value)))
    : list (string * list (string * value)) :=
  match OrderedDict.get t d with
  | Some tbl => OrderedDict.set t (OrderedDict.pop key tbl) d
  | None => d
  end.

(** [self.memory[t].move_to_end(key)] *)
Definition move_to_end (t key : string) : M state unit :=
  fun s =>
    match OrderedDict.get t (memory s) ≫= OrderedDict.move_to_end key with
    | Some tbl => (Ok tt, with_memory (OrderedDict.set t tbl) s)
    | None => (Raise KeyError, s)
    end.

Definition _manage_memory (table : string) : M state unit :=
  fun s =>
    match OrderedDict.get table (memory s) with
    | None => (Raise KeyError, s)
    | Some tbl =>
        if max_keys s <? Z.of_nat (length tbl)
        then match OrderedDict.popitem_first tbl with
             | Some (_, rest) => (Ok tt, with_memory (OrderedDict.set table rest) s)
             | None => (Raise KeyError, s)
             end
        else (Ok tt, s)
    end.

(** [for mw in self._middleware: value = mw(key, value)] *)
Fixpoint run_middleware (mws : list middleware) (key : string) (val : value)
    : result value :=
  match mws with
  | [] => Ok val
  | mw :: mws' =>
      match mw key val with
      | Ok v => run_middleware mws' key v
      | Raise e => Raise e
      end
  end.

(** [time.time() + ttl if ttl else None] *)
Definition expiry_of (now : Z) (ttl : option Z) : option Z :=
  match ttl with
  | Some x => if decide (x = 0) then None else Some (now + x)
  | None => None
  end.

(** [{"val": value, "ttl": expiry}] *)
Definition wrapper (val : value) (expiry : option Z) : value :=
  VDict [("val", val);
         ("ttl", match expiry with Some e => VInt e | None => VNone end)].

(** [cb(value)] *)
Definition call (cb : watcher) (value : value) : M state unit :=
  fun s =>
    let s' := with_invoked (fun l => l ++ [(cb_id cb, value)]) s in
    match cb_body cb value with
    | None => (Ok tt, s')
    | Some e => (Raise e, s')
    end.

(** [if t not in self.memory: ...; if t not in self._cache: ...;
     if t not in self._deleted: ...] *)
Definition ensure_tables (t : string) (s : state) : state :=
  with_deleted (ensure t ∅) (with_cache (ensure t []) (with_memory (ensure t []) s)).

(** [self.memory[t][key] = wrapper; self._cache[t][key] = wrapper;
     self._deleted[t].discard(key)] *)
Definition store (t key : string) (wrapper : value) (s : state) : state :=
  with_deleted (fun d => OrderedDict.set t (default ∅ (OrderedDict.get t d) ∖ {[key]}) d)
    (with_cache (store_in t key wrapper)
       (with_memory (store_in t key wrapper) s)).

Definition set_value (key : string) (value : value) (table : option string)
    (ttl : option Z) (now : Z) : M state unit :=
  t <- gets (fun s => py_or table (default_table s)) ;;
  mws <- gets _middleware ;;
  value <- lift (run_middleware mws key value) ;;
  let wrapper := wrapper value (expiry_of now ttl) in
  modify (ensure_tables t) ;;;
  modify (store t key wrapper) ;;;
  move_to_end t key ;;;
  _manage_memory t ;;;
  cbs <- gets (fun s => _watchers s !! key) ;;
  match cbs with
  | Some cbs => for_each cbs (fun cb => call cb value)
  | None => ret tt
  end.

Definition delete (key : string) (table : option string) : M state unit :=
  t <- gets (fun s => py_or table (default_table s)) ;;
  modify (with_memory (pop_in t key)) ;;;
  modify (with_cache (pop_in t key)) ;;;
  modify (with_deleted (fun d =>
    OrderedDict.set t (default ∅ (OrderedDict.get t d) ∪ {[key]}) d)).

(** [isinstance(item, dict) and item.get("ttl") is not None and
     now > item["ttl"]]; comparing a number with a string, a list or a
    dict is a [TypeError]. *)
Definition ttl_expired (now : Z) (item : value) : result bool :=
  match item with
  | VDict d =>
      match OrderedDict.get "ttl" d with
      | None | Some VNone => Ok false
      | Some (VInt e) => Ok (e <? now)
      | Some (VBool b) => Ok ((if b then 1 else 0) <? now)
      | Some _ => Raise TypeError
      end
  | _ => Ok false
  end.

(** [raw if (isinstance(raw, dict) and "val" in raw) else
     {"val": raw, "ttl": None}] *)
Definition as_wrapper (raw : value) : value :=
  match raw with
  | VDict d => if OrderedDict.contains "val" d then raw else wrapper raw None
  | _ => wrapper raw None
  end.

(** [item["val"] if isinstance(item, dict) else item] *)
Definition unwrap (item : value) : result value :=
  match item with
  | VDict d =>
      match OrderedDict.get "val" d with
      | Some v => Ok v
      | None => Raise KeyError
      end
  | _ => Ok item
  end.

Definition get_value (key : string) (table : option string)
    (default : value) (now : Z) : M state value :=
  t <- gets (fun s => py_or table (default_table s)) ;;
  modify (with_memory (ensure t [])) ;;;
  item <- gets (fun s => OrderedDict.get key (table_of t (memory s))) ;;
  loaded <-
    match item with
    | None | Some VNone =>
        except_Exception
          (raw <- backend (db_get_value key t) ;;
           let item := as_wrapper raw in
           modify (with_memory (store_in t key item)) ;;;
           _manage_memory t ;;;
           ret (Some item))
          (ret None)
    | Some item => ret (Some item)
    end ;;
  match loaded with
  | None => ret default
  | Some item =>
      expired <- lift (ttl_expired now item) ;;
      if (expired : bool) then delete key (Some t) ;;; ret default
      else move_to_end t key ;;; lift (unwrap item)
  end.

(** The body of one wake-up of the thread of [_start_ttl_monitor]. *)
Fixpoint expired_keys (now : Z) (table_dict : list (string * value))
    : result (list string) :=
  match table_dict with
  | [] => Ok []
  | (k, v) :: rest =>
      match ttl_expired now v with
      | Raise e => Raise e
      | Ok b =>
          match expired_keys now rest with
          | Raise e => Raise e
          | Ok ks => Ok (if b then k :: ks else ks)
          end
      end
  end.

(** The body of the loop over [self.memory.items()] for one table. *)
Definition sweep_table (now : Z) (t_name : string) : M state unit :=
  table_dict <- gets (fun s => table_of t_name (memory s)) ;;
  expired <- lift (expired_keys now table_dict) ;;
  for_each expired (fun k => delete k (Some t_name)).

Definition ttl_monitor_step (now : Z) : M state unit :=
  tables <- gets (fun s => OrderedDict.keys (memory s)) ;;
  for_each tables (sweep_table now).

Definition flush : M state bool :=
  pending <- gets (fun s => OrderedDict.keys (_deleted s)) ;;
  for_each pending (fun t_name =>
    keys_to_del <- gets (fun s => default ∅ (OrderedDict.get t_name (_deleted s))) ;;
    if decide (keys_to_del = ∅) then ret tt
    else backend (db_delete_multiple (elements keys_to_del) t_name) ;;;
         modify (with_deleted (OrderedDict.set t_name ∅))) ;;;
  dirty <- gets (fun s => OrderedDict.keys (_cache s)) ;;
  for_each dirty (fun t_name =>
    dirty_data <- gets (fun s => table_of t_name (_cache s)) ;;
    match dirty_data with
    | [] => ret tt
    | _ => backend (db_set_multiple dirty_data t_name) ;;;
           modify (with_cache (OrderedDict.set t_name []))
    end) ;;;
  backend db_flush ;;;
  ret true.

(** [for cb in self._watchers[key]: try: cb(value) except: pass] *)
Definition call_guarded (cb : watcher) (value : value) : M state unit :=
  except_Exception (call cb value) (ret tt).

(** [while len(self.memory[t]) > self.max_keys:
     self.memory[t].popitem(last=False)] *)
Fixpoint evict (max_keys : Z) (tbl : list (string * value))
    : result (list (string * value)) :=
  if max_keys <? Z.of_nat (length tbl)
  then match tbl with
       | [] => Raise KeyError
       | _ :: rest => evict max_keys rest
       end
  else Ok tbl.

(** The body of the loop of [set_multiple] for one item of the mapping. *)
Definition set_one (t : string) (expiry : option Z) (kv : string * value)
    : M state unit :=
  let '(key, value) := kv in
  mws <- gets _middleware ;;
  value <- lift (run_middleware mws key value) ;;
  let wrapper := wrapper value expiry in
  modify (store t key wrapper) ;;;
  move_to_end t key ;;;
  cbs <- gets (fun s => _watchers s !! key) ;;
  match cbs with
  | Some cbs => for_each cbs (fun cb => call_guarded cb value)
  | None => ret tt
  end.

(** The definition of [set_multiple] that is in force: the second one of
    the class body, which replaces the first. *)
Definition set_multiple (mapping : list (string * value))
    (table : option string) (ttl : option Z) (now : Z) : M state unit :=
  t <- gets (fun s => py_or table (default_table s)) ;;
  let expiry := expiry_of now ttl in
  modify (ensure_tables t) ;;;
  for_each mapping (set_one t expiry) ;;;
  fun s =>
    match evict (max_keys s) (table_of t (memory s)) with
    | Ok tbl => (Ok tt, with_memory (OrderedDict.set t tbl) s)
    | Raise e =>
        (Raise e, with_memory (OrderedDict.set t []) s)
    end.

Fixpoint get_multiple_loop (t : string) (keys : list string) (now : Z)
    (results : list (string * value)) : M state (list (string * value)) :=
  match keys with
  | [] => ret results
  | k :: keys' =>
      val <- get_value k (Some t) VNone now ;;
      get_multiple_loop t keys' now
        (match val with
         | VNone => results
         | _ => OrderedDict.set k val results
         end)
  end.

Definition get_multiple (keys : list string) (table : option string)
    (now : Z) : M state (list (string * value)) :=
  t <- gets (fun s => py_or table (default_table s)) ;;
  get_multiple_loop t keys now [].

Definition delete_multiple (keys : list string) (table : option string)
    : M state unit :=
  t <- gets (fun s => py_or table (default_table s)) ;;
  modify (ensure_tables t) ;;;
  for_each keys (fun k =>
    modify (with_memory (pop_in t k)) ;;;
    modify (with_cache (pop_in t k)) ;;;
    modify (with_deleted (fun d =>
      OrderedDict.set t (default ∅ (OrderedDict.get t d) ∪ {[k]}) d))).

Definition check (key : string) (table : option string) : M state bool :=
  t <- gets (fun s => py_or table (default_table s)) ;;
  hit <- gets (fun s => match OrderedDict.get t (memory s) with
                        | Some tbl => OrderedDict.contains key tbl
                        | None => false
                        end) ;;
  if (hit : bool) then ret true else backend (db_check key t).
End flash.
Arguments state B : clear implicits.

Section flash_maintenance.
Context {B : Type} `{Backend B} `{BackendAdmin B}.
Local Open Scope py_scope.

Definition list_keys (table : option string) : M (state B) (list string) :=
  t <- gets (fun s => py_or table (default_table s)) ;;
  disk_keys <- backend (db_list_keys t) ;;
  ram_keys <- gets (fun s => OrderedDict.keys (table_of t (memory s))) ;;
  deleted_keys <- gets (fun s => default ∅ (OrderedDict.get t (_deleted s))) ;;
  ret (elements
         (((list_to_set disk_keys : gset string) ∪ list_to_set ram_keys)
            ∖ deleted_keys)).

Definition list_tables : M (state B) (list string) := backend db_list_tables.

Definition create_table (name : string) : M (state B) bool :=
  modify (fun s =>
    match OrderedDict.get name (memory s) with
    | Some _ => s
    | None =>
        with_deleted (OrderedDict.set name ∅)
          (with_cache (OrderedDict.set name [])
             (with_memory (OrderedDict.set name []) s))
    end) ;;;
  backend (db_create_table name) ;;;
  ret true.

(** [if t in d: d[t].clear()] *)
Definition clear_in (t : string) (d : list (string * list (string * value)))
    : list (string * list (string * value)) :=
  match OrderedDict.get t d with
  | Some _ => OrderedDict.set t [] d
  | None => d
  end.

Definition clear_table (table : string) : M (state B) unit :=
  modify (with_memory (clear_in table)) ;;;
  modify (with_cache (clear_in table)) ;;;
  backend (db_clear_table table).

Definition drop_table (table : string) : M (state B) unit :=
  modify (with_memory (OrderedDict.pop table)) ;;;
  modify (with_cache (OrderedDict.pop table)) ;;;
  modify (with_deleted (OrderedDict.pop table)) ;;;
  backend (db_drop_table table).

(** The truth value of a Python object. *)
Definition truthy (v : value) : bool :=
  match v with
  | VNone => false
  | VBool b => b
  | VInt z => negb (z =? 0)
  | VStr s => negb (bool_decide (s = EmptyString))
  | VList l => negb (bool_decide (l = []))
  | VDict d => negb (bool_decide (d = []))
  end.

(** [isinstance(wrapper, dict) and wrapper.get("ttl")] and then
    [time.time() > wrapper["ttl"]] *)
Definition get_all_expired (now : Z) (wrapper : value) : result bool :=
  match wrapper with
  | VDict d =>
      match OrderedDict.get "ttl" d with
      | Some ttl =>
          if truthy ttl
          then match ttl with
               | VInt e => Ok (e <? now)
               | VBool b => Ok ((if b then 1 else 0) <? now)
               | _ => Raise TypeError
               end
          else Ok false
      | None => Ok false
      end
  | _ => Ok false
  end.

(** [wrapper["val"] if isinstance(wrapper, dict) and "val" in wrapper
     else wrapper] *)
Definition get_all_unwrap (wrapper : value) : value :=
  match wrapper with
  | VDict d => default wrapper (OrderedDict.get "val" d)
  | _ => wrapper
  end.

(** The loop of [get_all] over [self.memory[t].items()]. *)
Fixpoint get_all_merge (now : Z) (items : list (string * value))
    (all_data : list (string * value)) : result (list (string * value)) :=
  match items with
  | [] => Ok all_data
  | (k, wrapper) :: items' =>
      match get_all_expired now wrapper with
      | Raise e => Raise e
      | Ok true => get_all_merge now items' all_data
      | Ok false =>
          get_all_merge now items' (OrderedDict.set k (get_all_unwrap wrapper) all_data)
      end
  end.

Definition get_all (table : option string) (now : Z)
    : M (state B) (list (string * value)) :=
  t <- gets (fun s => py_or table (default_table s)) ;;
  all_data <- backend (db_get_all t) ;;
  items <- gets (fun s => table_of t (memory s)) ;;
  all_data <- lift (get_all_merge now items all_data) ;;
  deleted_keys <- gets (fun s => default ∅ (OrderedDict.get t (_deleted s))) ;;
  ret (fold_left (fun d k => OrderedDict.pop k d) (elements deleted_keys) all_data).
End flash_maintenance.
End flash.

(** ** A reference implementation of the libraries

    Concrete runs need an implementation of [ujson] and [zlib].  [RefLibs]
    prints and reads compact JSON (no white space; a double quote or a
    backslash inside a string is escaped with a backslash) and stores a
    compressed payload behind the first byte of a zlib stream.  The
    properties below are proved for every instance of [Libs]; this one only
    runs examples. *)
Module RefLibs.
Definition dquote : ascii := ascii_of_nat 34.
Definition backslash : ascii := ascii_of_nat 92.

Definition digit_char (d : Z) : ascii := ascii_of_nat (48 + Z.to_nat d).

Fixpoint digits (fuel : nat) (n : Z) (acc : list ascii) : list ascii :=
  match fuel with
  | O => acc
  | S fuel' =>
      let acc' := digit_char (n mod 10) :: acc in
      if n / 10 =? 0 then acc' else digits fuel' (n / 10) acc'
  end.

Definition print_int (z : Z) : list ascii :=
  let n := Z.abs z in
  let ds := digits (S (Z.to_nat (Z.log2 n))) n [] in
  if z <? 0 then "-"%char :: ds else ds.

Definition escape (s : string) : list ascii :=
  flat_map (fun c => if decide (c = dquote \/ c = backslash)
                     then [backslash; c] else [c])
    (list_ascii_of_string s).

Definition quote (s : string) : list ascii :=
  (dquote :: escape s) ++ [dquote].

Fixpoint join (sep : ascii) (parts : list (list ascii)) : list ascii :=
  match parts with
  | [] => []
  | [p] => p
  | p :: parts' => p ++ sep :: join sep parts'
  end.

Fixpoint print (v : value) : list ascii :=
  match v with
  | VNone => list_ascii_of_string "null"
  | VBool true => list_ascii_of_string "true"
  | VBool false => list_ascii_of_string "false"
  | VInt z => print_int z
  | VStr s => quote s
  | VList l => ("["%char :: join ","%char (map print l)) ++ ["]"%char]
  | VDict d =>
      ("{"%char ::
         join ","%char
           (map (fun kv => match kv with
                           | (k, x) => quote k ++ ":"%char :: print x
                           end) d)) ++ ["}"%char]
  end.

Definition is_digit (c : ascii) : bool :=
  let n := nat_of_ascii c in ((48 <=? n) && (n <=? 57))%nat.

Fixpoint read_digits (cs : list ascii) (acc : Z) : Z * list ascii :=
  match cs with
  | c :: cs' =>
      if is_digit c
      then read_digits cs' (10 * acc + (Z.of_nat (nat_of_ascii c) - 48))
      else (acc, cs)
  | [] => (acc, [])
  end.

(** The characters of a string literal after its opening quote. *)
Fixpoint read_string (cs : list ascii) (acc : list ascii)
    : option (string * list ascii) :=
  match cs with
  | [] => None
  | c :: cs' =>
      if decide (c = dquote)
      then Some (string_of_list_ascii (rev acc), cs')
      else if decide (c = backslash)
           then match cs' with
                | e :: cs'' => read_string cs'' (e :: acc)
                | [] => None
                end
           else read_string cs' (c :: acc)
  end.

Fixpoint read_value (fuel : nat) (cs : list ascii)
    : option (value * list ascii) :=
  match fuel with
  | O => None
  | S fuel' =>
      match cs with
      | "n" :: "u" :: "l" :: "l" :: r => Some (VNone, r)
      | "t" :: "r" :: "u" :: "e" :: r => Some (VBool true, r)
      | "f" :: "a" :: "l" :: "s" :: "e" :: r => Some (VBool false, r)
      | "[" :: "]" :: r => Some (VList [], r)
      | "[" :: r =>
          match read_elements fuel' r with
          | Some (l, r') => Some (VList l, r')
          | None => None
          end
      | "{" :: "}" :: r => Some (VDict [], r)
      | "{" :: r =>
          match read_members fuel' r with
          | Some (d, r') => Some (VDict d, r')
          | None => None
          end
      | "-" :: c :: r =>
          if is_digit c
          then let '(n, r') := read_digits (c :: r) 0 in Some (VInt (- n), r')
          else None
      | c :: r =>
          if decide (c = dquote)
          then match read_string r [] with
               | Some (s, r') => Some (VStr s, r')
               | None => None
               end
          else if is_digit c
          then let '(n, r') := read_digits (c :: r) 0 in Some (VInt n, r')
          else None
      | [] => None
      end%char
  end
with read_elements (fuel : nat) (cs : list ascii)
    : option (list value * list ascii) :=
  match fuel with
  | O => None
  | S fuel' =>
      match read_value fuel' cs with
      | Some (v, "," :: r) =>
          match read_elements fuel' r with
          | Some (l, r') => Some (v :: l, r')
          | None => None
          end
      | Some (v, "]" :: r) => Some ([v], r)
      | _ => None
      end%char
  end
with read_members (fuel : nat) (cs : list ascii)
    : option (list (string * value) * list ascii) :=
  match fuel with
  | O => None
  | S fuel' =>
      match cs with
      | c :: r =>
          if decide (c = dquote)
          then match read_string r [] with
               | Some (k, ":" :: r') =>
                   match read_value fuel' r' with
                   | Some (v, "," :: r'') =>
                       match read_members fuel' r'' with
                       | Some (d, r3) =>
                           Some ((k, default v (OrderedDict.get k d))
                                   :: OrderedDict.pop k d, r3)
                       | None => None
                       end
                   | Some (v, "}" :: r'') => Some ([(k, v)], r'')
                   | _ => None
                   end
               | _ => None
               end
          else None
      | [] => None
      end%char
  end.

Definition dumps (v : value) : result string :=
  Ok (string_of_list_ascii (print v)).

Definition loads (s : string) : result value :=
  let cs := list_ascii_of_string s in
  match read_value (S (length cs)) cs with
  | Some (v, []) => Ok v
  | _ => Raise ValueError
  end.

Definition compress (b : list byte) : list byte := x78 :: b.

Definition decompress (b : list byte) : result (list byte) :=
  match b with
  | x78 :: payload => Ok payload
  | _ => Raise ValueError
  end.

#[export] Instance libs : Libs := {
  ujson_dumps := dumps;
  ujson_loads := loads;
  zlib_compress := compress;
  zlib_decompress := decompress;
}.
End RefLibs.

#[local] Existing Instance RefLibs.libs.

(** * Notions used in the statements *)

(** A name that contains a character outside [[A-Za-z0-9_]]. *)
Definition has_forbidden_char (name : string) : Prop :=
  exists c, In c (list_ascii_of_string name) /\ Light.table_char c = false.

(** The single-file store on an empty database file, with the table
    [storage]. *)
Definition light0 : Light.state := (Light.init "storage" Sqlite.empty).2.

(** A value whose JSON text is short, and one whose text exceeds the
    compression threshold. *)
Definition short_value : value :=
  VDict [("val", VList [VInt 3; VStr "x"]); ("ttl", VNone)].
Definition long_value : value := VList (repeat (VInt 7) 600).

(** [key] becomes the most recently used entry of [tbl], holding [item]. *)
Definition touch (key : string) (item : value) (tbl : list (string * value))
    : list (string * value) :=
  OrderedDict.pop key tbl ++ [(key, item)].

(** One step of eviction: the oldest entry goes when [tbl] is over [max_keys]. *)
Definition bounded (max_keys : Z) (tbl : list (string * value))
    : list (string * value) :=
  if max_keys <? Z.of_nat (length tbl) then tail tbl else tbl.

(** [key] is bound exactly once in [tbl], to [w]. *)
Definition sole (key : string) (w : value) (tbl : list (string * value)) : Prop :=
  exists l1 l2, tbl = l1 ++ (key, w) :: l2 /\
                OrderedDict.get key l1 = None /\ OrderedDict.get key l2 = None.

(** The table after the entries [ws] were touched one after the other. *)
Definition touch_all (ws tbl : list (string * value)) : list (string * value) :=
  fold_left (fun tbl kw => touch kw.1 kw.2 tbl) ws tbl.

(** A watcher that raises and one that returns. *)
Definition failing_watcher : flash.watcher :=
  {| flash.cb_id := 1; flash.cb_body := fun _ => Some (CallbackError 1) |}.
Definition quiet_watcher : flash.watcher :=
  {| flash.cb_id := 2; flash.cb_body := fun _ => None |}.

(** The tier with [failing_watcher] and then [quiet_watcher] on key ["k"]. *)
Definition watched : flash.state Light.state :=
  (flash.watch "k" quiet_watcher
     (flash.watch "k" failing_watcher (flash.init light0 "storage" 10)).2).2.

(** Calls of [set_value] issued one after the other on one table; each
    write is a key, a value, a TTL and the time of the call. *)
Definition set_values {B : Type} `{Backend B}
    (writes : list (string * value * option Z * Z)) (table : option string)
    (s : flash.state B) : flash.state B :=
  fold_left (fun s w => (flash.set_value w.1.1.1 w.1.1.2 table w.1.2 w.2 s).2) writes s.

Section flash_notions.
Context {B : Type} `{Backend B}.
Implicit Types (s : flash.state B).

(** The state without the record of watcher calls. *)
(** A watcher call only extends the record of calls. *)
Definition erase_invoked s : flash.state B := flash.with_invoked (fun _ => []) s.

(** What a flush never touches: the recency maps and the configuration. *)
Definition resident_view s : list (string * list (string * value)) * Z * string :=
  (flash.memory s, flash.max_keys s, flash.default_table s).

(** The part of the state that a write of the tier decides its effect on. *)
Definition write_view s
    : list (string * list (string * value)) * Z * string * list flash.middleware :=
  (flash.memory s, flash.max_keys s, flash.default_table s, flash._middleware s).

(** The value of an outcome, [None] for a failure. *)
Definition ok_value (r : result value) : value :=
  match r with Ok v => v | Raise _ => VNone end.

(** The middleware chain [mws] returns on the item [kv]. *)
Definition succeeds (mws : list flash.middleware) (kv : string * value) : Prop :=
  exists v', flash.run_middleware mws kv.1 kv.2 = Ok v'.

(** The wrappers that a batch leaves for its keys. *)
Definition wrap_all (mws : list flash.middleware) (expiry : option Z)
    (mapping : list (string * value)) : list (string * value) :=
  map (fun kv => (kv.1, flash.wrapper
                          (ok_value (flash.run_middleware mws kv.1 kv.2)) expiry))
    mapping.

(** [key] is no longer held for table [t], neither in the recency map nor
    in the dirty map. *)
Definition gone (t key : string) s : Prop :=
  OrderedDict.get key (flash.table_of t (flash.memory s)) = None /\
  OrderedDict.get key (flash.table_of t (flash._cache s)) = None.

(** The recency map of table [t] binds [key] to [item]. *)
Definition held (t key : string) (item : value) s : Prop :=
  OrderedDict.get key (flash.table_of t (flash.memory s)) = Some item.
End flash_notions.

(** The shard that the rotation looks at: the size recorded for the active
    shard, which is the size of its file when the shard is opened by the
    look. *)
Definition recorded_size (getsize : Z -> Z) (s : MasterLight.state) : Z :=
  match OrderedDict.get (MasterLight.active_shard_id s) (MasterLight.shards s) with
  | Some sh => MasterLight.estimate_size sh
  | None => getsize (MasterLight.active_shard_id s)
  end.

Section MasterLight_notions.
Implicit Types (s : MasterLight.state) (p : string * string).

(** The memo of [_lookup_shard_id] agrees with the Master Index. *)
Definition coherent s : Prop :=
  forall p r, (p, r) ∈ MasterLight.lookup_cache s -> MasterLight.idx s !! p = r.

(** No recorded shard id exceeds the active one. *)
Definition bounded_ids s : Prop :=
  forall p sid, MasterLight.idx s !! p = Some sid -> sid <= MasterLight.active_shard_id s.

(** A well-formed state of the sharded backend. *)
Definition wf s : Prop := coherent s /\ bounded_ids s.

(** The routing state: everything but the pool of shards. *)
Definition routing s :=
  (MasterLight.idx s, MasterLight.lookup_cache s, MasterLight.active_shard_id s,
   MasterLight.default_table s).

(** A step that leaves the index and the active shard alone and keeps
    the memo coherent. *)
Definition quiet s s' : Prop :=
  MasterLight.idx s' = MasterLight.idx s /\
  MasterLight.active_shard_id s' = MasterLight.active_shard_id s /\
  MasterLight.default_table s' = MasterLight.default_table s /\
  (coherent s -> coherent s').

(** The invariant of the loop of [set_multiple]: [s0] is the state at the
    start of the loop, [new_idx] the rows gathered so far. *)
Definition routed (t : string) s0 s (new_idx : list (string * string * Z)) : Prop :=
  MasterLight.idx s = MasterLight.idx s0 /\
  MasterLight.default_table s = MasterLight.default_table s0 /\
  MasterLight.active_shard_id s0 <= MasterLight.active_shard_id s /\
  coherent s /\
  Forall (fun row => row.1.1 = t /\ MasterLight.idx s0 !! row.1 = None /\
                     MasterLight.active_shard_id s0 <= row.2
                       <= MasterLight.active_shard_id s) new_idx /\
  (forall p, (p, None) ∈ MasterLight.lookup_cache s -> p ∉ new_idx.*1) /\
  StronglySorted Z.le new_idx.*2.

(** What a call may do to the routing state: [removed] are the pairs it
    may take out of the index. *)
Definition advances (removed : string * string -> Prop) s s' : Prop :=
  wf s' /\
  MasterLight.active_shard_id s <= MasterLight.active_shard_id s' /\
  MasterLight.default_table s' = MasterLight.default_table s /\
  (forall p sid, MasterLight.idx s !! p = Some sid -> ~ removed p ->
                 MasterLight.idx s' !! p = Some sid) /\
  (forall p sid', MasterLight.idx s' !! p = Some sid' ->
                  MasterLight.idx s !! p = Some sid' \/
                  MasterLight.active_shard_id s <= sid').
End MasterLight_notions.

(** The calls of the sharded backend, each made while the operating system
    reports the file sizes [getsize]. *)
Module MasterOp.
Inductive op : Type :=
  | SetValue (key : string) (val : value) (table : option string)
  | GetValue (key : string) (table : option string) (default : value)
  | SetMultiple (mapping : list (string * value)) (table : option string)
  | GetMultiple (keys : list string) (table : option string)
  | Delete (key : string) (table : option string)
  | DeleteMultiple (keys : list string) (table : option string)
  | Check (key : string) (table : option string)
  | ListKeys (table : option string)
  | ListTables
  | CreateTable (table_name : string)
  | ClearTable (table : string)
  | DropTable (table : string)
  | Flush (clear_cache : bool)
  | GetAll (table : option string).

Section run.
Context `{Libs}.

Definition step (getsize : Z -> Z) (o : op) (s : MasterLight.state)
    : MasterLight.state :=
  match o with
  | SetValue key val table => (MasterLight.set_value getsize key val table s).2
  | GetValue key table default => (MasterLight.get_value getsize key table default s).2
  | SetMultiple mapping table => (MasterLight.set_multiple getsize mapping table s).2
  | GetMultiple keys table => (MasterLight.get_multiple getsize keys table s).2
  | Delete key table => (MasterLight.delete getsize key table s).2
  | DeleteMultiple keys table => (MasterLight.delete_multiple getsize keys table s).2
  | Check key table => (MasterLight.check key table s).2
  | ListKeys table => (MasterLight.list_keys table s).2
  | ListTables => (MasterLight.list_tables s).2
  | CreateTable table_name => (MasterLight.create_table getsize table_name s).2
  | ClearTable table => (MasterLight.clear_table getsize table s).2
  | DropTable table => (MasterLight.drop_table getsize table s).2
  | Flush clear_cache => (MasterLight.flush getsize clear_cache s).2
  | GetAll table => (MasterLight.get_all getsize table s).2
  end.

Definition run (calls : list ((Z -> Z) * op)) (s : MasterLight.state)
    : MasterLight.state :=
  fold_left (fun s c => step c.1 c.2 s) calls s.
End run.

(** The call removes the pair [p] from the Master Index, in a backend
    whose default table is [dt]. *)
Definition removes (dt : string) (o : op) (p : string * string) : Prop :=
  match o with
  | Delete key table => p = (py_or table dt, key)
  | DeleteMultiple keys table => p.1 = py_or table dt /\ p.2 ∈ keys
  | ClearTable table | DropTable table => p.1 = table
  | _ => False
  end.
End MasterOp.

(** ** Notions of the further properties *)

(** The table that the call names, or the default table, has a valid
    name. *)
Definition Light_valid (table : option string) (s : Light.state) : Prop :=
  Light._table_regex_fullmatch (py_or table (Light.default_table s)) = true.

(** A table that has a cache has a dirty set, as [create_table],
    [set_value] and [list_tables] leave it. *)
Definition Light_tracked (t : string) (s : Light.state) : Prop :=
  is_Some (Light._cache s !! t) -> is_Some (OrderedDict.get t (Light._dirty_keys s)).

(** The row of key [k] in table [t] of the database file. *)
Definition Light_row (t k : string) (s : Light.state) : option stored :=
  Sqlite.tables (Light.container s) !! t ≫= fun rows => rows !! k.

(** What [_serialize] stores for a value, when it does not raise. *)
Definition serialized `{Libs} (v : value) : option stored :=
  match _serialize v with Ok x => Some x | Raise _ => None end.

(** The dirty keys of a table, none when it has no dirty set. *)
Definition Light_dirty (t : string) (s : Light.state) : gset string :=
  default ∅ (OrderedDict.get t (Light._dirty_keys s)).

(** The table has nothing to flush, or each of its dirty values that is
    cached can be serialized. *)
Definition Light_flushable `{Libs} (t : string) (s : Light.state) : Prop :=
  Light_dirty t s <> ∅ ->
  exists tc, Light._cache s !! t = Some tc /\
    forall k v, k ∈ Light_dirty t s -> tc !! k = Some v -> is_Some (serialized v).

(** The value that the next flush of table [t] writes for [k]: the cached
    value of a dirty key. *)
Definition Light_pending (t k : string) (s : Light.state) : option value :=
  if decide (k ∈ Light_dirty t s) then Light.cache_lookup t k s else None.

(** The tables that [flush(table)] goes through. *)
Definition Light_flush_targets (table : option string) (s : Light.state) : list string :=
  match table with
  | Some t => if decide (t = EmptyString) then OrderedDict.keys (Light._dirty_keys s)
              else [t]
  | None => OrderedDict.keys (Light._dirty_keys s)
  end.

(** Every table that [flush(table)] goes through has a valid name and
    can be flushed. *)
Definition Light_flush_ready `{Libs} (table : option string) (s : Light.state) : Prop :=
  forall t, t ∈ Light_flush_targets table s ->
    Light._table_regex_fullmatch t = true /\ Light_flushable t s.

(** The database file that a first session leaves: one row in the table
    [users]; and a second session that opens it. *)
Definition users_file : Sqlite.conn :=
  Light.container
    (Light.flush None false
       (Light.set_value "k" (VInt 1) (Some "users") light0).2).2.
Definition light_reopened : Light.state := (Light.init "storage" users_file).2.

(** The second session after it has created the table [users] anew and
    written the key [fresh], which it has not flushed. *)
Definition light_written : Light.state :=
  (Light.set_value "fresh" (VInt 7) (Some "users")
     (Light.create_table (Some "users") light_reopened).2).2.

(** The dictionary that [update_column] edits: the value read when it is
    a dictionary, the value under the column ["value"] otherwise. *)
Definition as_columns (data : value) : list (string * value) :=
  match data with
  | VDict d => d
  | _ => [("value", data)]
  end.

(** What [_deserialize] reads from a stored object, when it does not
    raise. *)
Definition decoded `{Libs} (x : stored) : option value :=
  match _deserialize x with Ok v => Some v | Raise _ => None end.

(** The shard object that the next [_get_shard(shard_id)] returns: the
    one that is open, or a new one on the file of that name. *)
Definition shard_view `{Libs} (getsize : Z -> Z) (shard_id : Z)
    (s : MasterLight.state) : MasterLight.Shard :=
  default (MasterLight.open_shard getsize shard_id s)
    (OrderedDict.get shard_id (MasterLight.shards s)).

(** A table that has a cache in the shard has a dirty set there, as
    [set_multiple] leaves it. *)
Definition Shard_tracked (t : string) (sh : MasterLight.Shard) : Prop :=
  is_Some (MasterLight._cache sh !! t) ->
  is_Some (OrderedDict.get t (MasterLight._dirty sh)).

(** The row of key [k] in table [t] of the database file of a shard. *)
Definition Shard_row (t k : string) (sh : MasterLight.Shard) : option stored :=
  Sqlite.tables (MasterLight.conn sh) !! t ≫= fun rows => rows !! k.

(** The dirty keys of a table of a shard. *)
Definition Shard_dirty (t : string) (sh : MasterLight.Shard) : gset string :=
  default ∅ (OrderedDict.get t (MasterLight._dirty sh)).

(** The groups of [set_multiple]: a dict of dicts. *)
Definition well_grouped (groups : list (Z * list (string * value))) : Prop :=
  NoDup groups.*1 /\
  forall sid dmap, OrderedDict.get sid groups = Some dmap -> NoDup dmap.*1.

(** The shard that [set_multiple] sends key [k] of table [t] to: the one
    the index of [s0] records, or else the one of the new index row. *)
Definition resolves (t : string) (s0 : MasterLight.state)
    (new_idx : list (string * string * Z)) (k : string) (sid : Z) : Prop :=
  MasterLight.idx s0 !! (t, k) = Some sid \/
  (MasterLight.idx s0 !! (t, k) = None /\ (t, k, sid) ∈ new_idx).

(** A sharded store in which the key [a] was written and flushed, and the
    store that a second session opens on the files it leaves. *)
Definition sharded_flushed : MasterLight.state :=
  MasterOp.run [(fun _ => 0, MasterOp.SetValue "a" (VInt 1) None);
                (fun _ => 0, MasterOp.Flush false)]
    (MasterLight.init "storage" ∅ ∅).
Definition sharded_reopened : MasterLight.state :=
  MasterLight.init "storage" (MasterLight.idx sharded_flushed)
    (list_to_map (map (fun p => (p.1, MasterLight.conn p.2))
                    (MasterLight.shards sharded_flushed))).

(** The calls made on a lock, in the order in which they return. *)
Inductive rw_call : Type :=
  | AcquireRead
  | ReleaseRead
  | AcquireWrite
  | ReleaseWrite.

Definition rw_step (c : rw_call) (l : RWLock.state) : option RWLock.state :=
  match c with
  | AcquireRead => RWLock.acquire_read l
  | ReleaseRead => RWLock.release_read l
  | AcquireWrite => RWLock.acquire_write l
  | ReleaseWrite => RWLock.release_write l
  end.

(** The lock after a schedule; [None] when one of its calls would still be
    waiting at its turn. *)
Fixpoint rw_run (calls : list rw_call) (l : RWLock.state) : option RWLock.state :=
  match calls with
  | [] => Some l
  | c :: calls' =>
      match rw_step c l with
      | Some l' => rw_run calls' l'
      | None => None
      end
  end.

(** The threads that are inside a read section and inside a write
    section, counted from the calls. *)
Definition rw_enter (c : rw_call) (h : Z * Z) : Z * Z :=
  match c with
  | AcquireRead => (h.1 + 1, h.2)
  | ReleaseRead => (h.1 - 1, h.2)
  | AcquireWrite => (h.1, h.2 + 1)
  | ReleaseWrite => (h.1, h.2 - 1)
  end.
Definition rw_holders (calls : list rw_call) (h : Z * Z) : Z * Z :=
  fold_left (fun h c => rw_enter c h) calls h.

(** Every release is made by a thread that is inside the section, as in
    [acquire ... try ... finally release]. *)
Fixpoint rw_bracketed (calls : list rw_call) (h : Z * Z) : bool :=
  match calls with
  | [] => true
  | c :: calls' =>
      match c with
      | ReleaseRead => 0 <? h.1
      | ReleaseWrite => 0 <? h.2
      | _ => true
      end && rw_bracketed calls' (rw_enter c h)
  end.

(** The calls of the RAM cache tier. *)
Module FlashOp.
Inductive op : Type :=
  | Use (func : flash.middleware)
  | Watch (key : string) (callback : flash.watcher)
  | SetValue (key : string) (val : value) (table : option string) (ttl : option Z)
  | GetValue (key : string) (table : option string) (default : value)
  | SetMultiple (mapping : list (string * value)) (table : option string) (ttl : option Z)
  | GetMultiple (keys : list string) (table : option string)
  | Delete (key : string) (table : option string)
  | DeleteMultiple (keys : list string) (table : option string)
  | Check (key : string) (table : option string)
  | Flush
  | TtlMonitor
  | ListKeys (table : option string)
  | ListTables
  | CreateTable (name : string)
  | ClearTable (table : string)
  | DropTable (table : string)
  | GetAll (table : option string).

Section run.
Context {B : Type} `{Backend B} `{BackendAdmin B}.

(** The state that a call made at time [now] leaves, whether it returns
    or raises. *)
Definition step (now : Z) (o : op) (s : flash.state B) : flash.state B :=
  match o with
  | Use func => (flash.use func s).2
  | Watch key callback => (flash.watch key callback s).2
  | SetValue key val table ttl => (flash.set_value key val table ttl now s).2
  | GetValue key table default => (flash.get_value key table default now s).2
  | SetMultiple mapping table ttl => (flash.set_multiple mapping table ttl now s).2
  | GetMultiple keys table => (flash.get_multiple keys table now s).2
  | Delete key table => (flash.delete key table s).2
  | DeleteMultiple keys table => (flash.delete_multiple keys table s).2
  | Check key table => (flash.check key table s).2
  | Flush => (flash.flush s).2
  | TtlMonitor => (flash.ttl_monitor_step now s).2
  | ListKeys table => (flash.list_keys table s).2
  | ListTables => (flash.list_tables s).2
  | CreateTable name => (flash.create_table name s).2
  | ClearTable table => (flash.clear_table table s).2
  | DropTable table => (flash.drop_table table s).2
  | GetAll table => (flash.get_all table now s).2
  end.

Definition run (calls : list (Z * op)) (s : flash.state B) : flash.state B :=
  fold_left (fun s c => step c.1 c.2 s) calls s.
End run.
End FlashOp.

Section flash_queues.
Context {B : Type}.
Implicit Types (s : flash.state B).

(** The keys of table [t] that wait to be written to the backend, and
    those that wait to be deleted from it. *)
Definition flash_dirty (t : string) s : list string :=
  OrderedDict.keys (flash.table_of t (flash._cache s)).
Definition flash_deleted (t : string) s : gset string :=
  default ∅ (OrderedDict.get t (flash._deleted s)).

(** No key waits both to be written and to be deleted. *)
Definition exclusive s : Prop :=
  forall t k, k ∈ flash_dirty t s -> k ∉ flash_deleted t s.
End flash_queues.

(** * Properties *)

Example RefLibs_dumps_list :
  RefLibs.dumps (VList [VInt (-12); VBool true; VNone; VList []])
  = Ok "[-12,true,null,[]]".
Proof. reflexivity. Qed.

Example RefLibs_loads_dumps_wrapper :
  let v := VDict [("val", VList [VInt (-12); VStr "a\b"; VBool true]);
                  ("ttl", VInt 130)] in
  match RefLibs.dumps v with
  | Ok j => String.length j = 35%nat /\ RefLibs.loads j = Ok v
  | Raise _ => False
  end.
Proof. split; reflexivity. Qed.


(** ** The monad *)

Lemma bind_ok {S A B} (m : M S A) (k : A -> M S B) s a s' :
  m s = (Ok a, s') -> bind m k s = k a s'.
Proof. unfold bind. intros ->. reflexivity. Qed.

Lemma bind_raise {S A B} (m : M S A) (k : A -> M S B) s e s' :
  m s = (Raise e, s') -> bind m k s = (Raise e, s').
Proof. unfold bind. intros ->. reflexivity. Qed.

(** A loop keeps what each of its iterations keeps. *)
Lemma for_each_preserves {S A T} (f : S -> T) (body : A -> M S unit) l :
  (forall x s, f (body x s).2 = f s) ->
  forall s, f (for_each l body s).2 = f s.
Proof.
  intros Hbody. induction l as [|x l IH]; intros s; simpl; [reflexivity|].
  unfold bind. specialize (Hbody x s).
  destruct (body x s) as [[u|e] s1]; simpl in *; [|assumption].
  rewrite IH. assumption.
Qed.

(** ** The codec *)

(** C9. [_deserialize] inverts [_serialize] on every value that [ujson]
    serializes and reads back, whether the JSON text is stored as it is (at
    most [COMPRESSION_THRESHOLD] characters) or compressed (longer); the form
    is recognised from the type of the stored object. *)
Theorem serialize_deserialize_roundtrip `{Libs} (v : value) (json_str : string) :
  ujson_dumps v = Ok json_str ->
  ujson_loads json_str = Ok v ->
  zlib_decompress (zlib_compress (encode_utf8 json_str))
    = Ok (encode_utf8 json_str) ->
  exists x,
    _serialize v = Ok x /\
    _deserialize x = Ok v /\
    x = (if COMPRESSION_THRESHOLD <? Z.of_nat (String.length json_str)
         then SBytes (zlib_compress (encode_utf8 json_str))
         else SText json_str).
Proof.
  intros Hdumps Hloads Hzlib. unfold _serialize. rewrite Hdumps.
  destruct (COMPRESSION_THRESHOLD <? Z.of_nat (String.length json_str)) eqn:Hlen.
  - eexists. split; [reflexivity|]. split; [|reflexivity].
    simpl. rewrite Hzlib. unfold decode_utf8, encode_utf8.
    rewrite string_of_list_byte_of_string. exact Hloads.
  - eexists. split; [reflexivity|]. split; [|reflexivity].
    simpl. exact Hloads.
Qed.


Lemma serialize_deserialize_roundtrip_witness :
  (exists x, _serialize short_value = Ok x /\ _deserialize x = Ok short_value /\
             x = SText (string_of_list_ascii (RefLibs.print short_value))) /\
  (exists x, _serialize long_value = Ok x /\ _deserialize x = Ok long_value /\
             x = SBytes (zlib_compress
                           (encode_utf8 (string_of_list_ascii (RefLibs.print long_value))))).
Proof.
  split.
  - apply (serialize_deserialize_roundtrip short_value
             (string_of_list_ascii (RefLibs.print short_value)));
      vm_compute; reflexivity.
  - apply (serialize_deserialize_roundtrip long_value
             (string_of_list_ascii (RefLibs.print long_value)));
      vm_compute; reflexivity.
Defined.

(** ** Table-name validation *)


Section validation.
Context `{Libs}.

Lemma forbidden_char_no_fullmatch name :
  has_forbidden_char name -> Light._table_regex_fullmatch name = false.
Proof.
  intros (c & Hin & Hc). unfold Light._table_regex_fullmatch.
  destruct (list_ascii_of_string name) as [|c0 cs] eqn:E; [reflexivity|].
  apply not_true_is_false. intros Hall.
  rewrite forallb_forall in Hall. specialize (Hall c Hin). congruence.
Qed.

Lemma forbidden_char_nonempty name :
  has_forbidden_char name -> name <> EmptyString.
Proof. intros (c & Hin & _) ->. simpl in Hin. contradiction. Qed.

Lemma validate_table_rejects name (s : Light.state) :
  has_forbidden_char name ->
  Light._validate_table (Some name) s = (Raise ValueError, s).
Proof.
  intros Hbad. unfold Light._validate_table, py_or.
  destruct (decide (name = EmptyString)) as [->|_].
  - exfalso. eapply forbidden_char_nonempty; eauto.
  - rewrite forbidden_char_no_fullmatch by assumption. reflexivity.
Qed.

(** C3, as amended. Every operation of the single-file store that takes
    a table name raises [ValueError] on a name with a character outside
    [[A-Za-z0-9_]], and leaves the store as it was: caches, dirty sets,
    database and the journal of the statements sent to SQLite. *)
Theorem Light_rejects_invalid_table_name (s : Light.state) (name : string) :
  has_forbidden_char name ->
  Light.create_table (Some name) s = (Raise ValueError, s) /\
  (forall key, Light.get_value key (Some name) s = (Raise ValueError, s)) /\
  (forall key v, Light.set_value key v (Some name) s = (Raise ValueError, s)) /\
  (forall mapping, Light.set_multiple mapping (Some name) s = (Raise ValueError, s)) /\
  (forall keys, Light.get_multiple keys (Some name) s = (Raise ValueError, s)) /\
  (forall keys, Light.delete_multiple keys (Some name) s = (Raise ValueError, s)) /\
  (forall key, Light.delete key (Some name) s = (Raise ValueError, s)) /\
  (forall key, Light.check key (Some name) s = (Raise ValueError, s)) /\
  Light.list_keys (Some name) s = (Raise ValueError, s) /\
  (forall clear_cache, Light.flush (Some name) clear_cache s = (Raise ValueError, s)) /\
  (forall key column, Light.get_column key column (Some name) s = (Raise ValueError, s)) /\
  (forall key column v,
     Light.update_column key column v (Some name) s = (Raise ValueError, s)) /\
  Light.clear_table (Some name) s = (Raise ValueError, s) /\
  Light.drop_table (Some name) s = (Raise ValueError, s) /\
  Light.get_all (Some name) s = (Raise ValueError, s).
Proof.
  intros Hbad.
  pose proof (validate_table_rejects name s Hbad) as Hv.
  pose proof (forbidden_char_nonempty name Hbad) as Hne.
  assert (Hget : forall key, Light.get_value key (Some name) s = (Raise ValueError, s)).
  { intros. unfold Light.get_value. erewrite bind_raise; eauto. }
  repeat split; intros;
    try (unfold Light.create_table, Light.set_value, Light.set_multiple,
           Light.get_multiple, Light.delete_multiple, Light.delete,
           Light.check, Light.list_keys, Light.clear_table, Light.drop_table,
           Light.get_all;
         erewrite bind_raise; eauto; fail).
  - apply Hget.
  - unfold Light.flush, bind, gets.
    destruct (decide (name = EmptyString)); [contradiction|].
    simpl. unfold Light.flush_table, bind. rewrite Hv. reflexivity.
  - unfold Light.get_column, except_KeyError, bind. fold (@bind Light.state).
    change (Light.get_value key (Some name) s) with (Light.get_value key (Some name) s).
    unfold Light.get_value at 1. unfold bind. rewrite Hv. reflexivity.
  - unfold Light.update_column, except_KeyError, bind.
    unfold Light.get_value at 1. unfold bind. rewrite Hv. reflexivity.
Qed.
End validation.

Lemma Light_rejects_invalid_table_name_witness :
  let s := (Light.init "storage" Sqlite.empty).2 in
  Light.set_value "k" (VInt 1) (Some "my-table") s = (Raise ValueError, s).
Proof.
  intros s.
  refine (proj1 (proj2 (proj2
    (Light_rejects_invalid_table_name s "my-table" _))) "k" (VInt 1)).
  exists "-"%char. split; [simpl; tauto | reflexivity].
Defined.

(** C3, counterexample. The sharded backend stores a pair under a table
    name with a hyphen, and records it in the Master Index; the RAM cache
    tier accepts the same name. *)
Lemma invalid_table_name_accepted :
  Light._table_regex_fullmatch "my-table" = false /\
  (let r := MasterLight.set_value (fun _ => 0) "k" (VInt 1) (Some "my-table")
              (MasterLight.init "storage" ∅ ∅) in
   r.1 = Ok tt /\ MasterLight.idx r.2 !! ("my-table", "k") = Some 0) /\
  (let r := flash.set_value "k" (VInt 1) (Some "my-table") None 0
              (flash.init (Light.init "storage" Sqlite.empty).2 "storage" 10) in
   r.1 = Ok tt /\
   flash.memory r.2 = [("my-table", [("k", flash.wrapper (VInt 1) None)])]).
Proof. vm_compute. repeat split; reflexivity. Qed.

(** ** Insertion-ordered dictionaries *)
Section OrderedDict_facts.
Context {K V : Type} `{EqDecision K}.
Implicit Types (d : list (K * V)) (k : K) (v : V).

Lemma od_get_app k d1 d2 :
  OrderedDict.get k (d1 ++ d2)
  = match OrderedDict.get k d1 with
    | Some v => Some v
    | None => OrderedDict.get k d2
    end.
Proof.
  induction d1 as [|[k' v'] d1 IH]; simpl; [reflexivity|].
  destruct (decide (k' = k)); [reflexivity | exact IH].
Qed.

Lemma od_get_None k d : OrderedDict.get k d = None <-> k ∉ OrderedDict.keys d.
Proof.
  unfold OrderedDict.keys.
  induction d as [|[k' v'] d IH]; simpl.
  - split; [intros _; apply not_elem_of_nil | reflexivity].
  - rewrite not_elem_of_cons. destruct (decide (k' = k)) as [->|Hne].
    + split; [discriminate | intros [? _]; congruence].
    + rewrite IH. split; [intros ?; split; [congruence | assumption] | intros [_ ?]; assumption].
Qed.

Lemma od_get_Some_keys k v d :
  OrderedDict.get k d = Some v -> k ∈ OrderedDict.keys d.
Proof.
  intros Hget. destruct (decide (k ∈ OrderedDict.keys d)) as [|Hn]; [assumption|].
  apply od_get_None in Hn. congruence.
Qed.

Lemma od_pop_cons k k' v d :
  OrderedDict.pop k ((k', v) :: d)
  = if decide (k' = k) then OrderedDict.pop k d else (k', v) :: OrderedDict.pop k d.
Proof.
  unfold OrderedDict.pop. rewrite filter_cons. simpl.
  destruct (decide (k' = k)); destruct (decide (k' <> k)); try reflexivity;
    contradiction.
Qed.

Lemma od_get_pop_eq k d : OrderedDict.get k (OrderedDict.pop k d) = None.
Proof.
  induction d as [|[k' v'] d IH]; [reflexivity|].
  rewrite od_pop_cons. destruct (decide (k' = k)); [exact IH|].
  simpl. destruct (decide (k' = k)); [contradiction | exact IH].
Qed.

Lemma od_get_pop_ne k k' d :
  k <> k' -> OrderedDict.get k' (OrderedDict.pop k d) = OrderedDict.get k' d.
Proof.
  intros Hne. induction d as [|[k0 v0] d IH]; [reflexivity|].
  rewrite od_pop_cons. simpl.
  destruct (decide (k0 = k)) as [->|]; simpl.
  - destruct (decide (k = k')); [contradiction | exact IH].
  - destruct (decide (k0 = k')); [reflexivity | exact IH].
Qed.

Lemma od_pop_absent k d : OrderedDict.get k d = None -> OrderedDict.pop k d = d.
Proof.
  induction d as [|[k' v'] d IH]; [reflexivity|]. simpl.
  rewrite od_pop_cons. destruct (decide (k' = k)); [discriminate|].
  intros Hd. rewrite IH by assumption. reflexivity.
Qed.

Lemma od_pop_app k d1 d2 :
  OrderedDict.pop k (d1 ++ d2) = OrderedDict.pop k d1 ++ OrderedDict.pop k d2.
Proof. unfold OrderedDict.pop. apply filter_app. Qed.

Lemma od_set_absent k v d :
  OrderedDict.get k d = None -> OrderedDict.set k v d = d ++ [(k, v)].
Proof.
  induction d as [|[k' v'] d IH]; simpl; [reflexivity|].
  destruct (decide (k' = k)); [discriminate|].
  intros Hd. rewrite IH by assumption. reflexivity.
Qed.

Lemma od_get_set_eq k v d : OrderedDict.get k (OrderedDict.set k v d) = Some v.
Proof.
  induction d as [|[k' v'] d IH]; simpl.
  - destruct (decide (k = k)); [reflexivity | contradiction].
  - destruct (decide (k' = k)) as [->|Hne]; simpl.
    + destruct (decide (k = k)); [reflexivity | contradiction].
    + destruct (decide (k' = k)); [contradiction | exact IH].
Qed.

Lemma od_get_set_ne k k' v d :
  k <> k' -> OrderedDict.get k' (OrderedDict.set k v d) = OrderedDict.get k' d.
Proof.
  intros Hne. induction d as [|[k0 v0] d IH]; simpl.
  - destruct (decide (k = k')); [contradiction | reflexivity].
  - destruct (decide (k0 = k)) as [->|Hne0]; simpl.
    + destruct (decide (k = k')); [contradiction | reflexivity].
    + destruct (decide (k0 = k')); [reflexivity | exact IH].
Qed.

Lemma od_pop_set k v d :
  OrderedDict.pop k (OrderedDict.set k v d) = OrderedDict.pop k d.
Proof.
  induction d as [|[k' v'] d IH]; simpl.
  - rewrite od_pop_cons. destruct (decide (k = k)); [reflexivity | contradiction].
  - destruct (decide (k' = k)) as [->|Hne].
    + rewrite !od_pop_cons. destruct (decide (k = k)); [reflexivity | contradiction].
    + rewrite !od_pop_cons. destruct (decide (k' = k)); [contradiction|].
      rewrite IH. reflexivity.
Qed.

Lemma od_set_set k v v' d :
  OrderedDict.set k v (OrderedDict.set k v' d) = OrderedDict.set k v d.
Proof.
  induction d as [|[k0 v0] d IH]; simpl.
  - destruct (decide (k = k)); [reflexivity | contradiction].
  - destruct (decide (k0 = k)) as [->|Hne]; simpl.
    + destruct (decide (k = k)); [reflexivity | contradiction].
    + destruct (decide (k0 = k)); [contradiction|]. rewrite IH. reflexivity.
Qed.

Lemma od_keys_set_present k v d :
  k ∈ OrderedDict.keys d ->
  OrderedDict.keys (OrderedDict.set k v d) = OrderedDict.keys d.
Proof.
  unfold OrderedDict.keys.
  induction d as [|[k0 v0] d IH]; intros Hin.
  - apply elem_of_nil in Hin. contradiction.
  - cbn [OrderedDict.set]. rewrite fmap_cons in Hin. cbn [fst] in Hin.
    destruct (decide (k0 = k)) as [->|Hne]; rewrite !fmap_cons; cbn [fst];
      [reflexivity|].
    apply elem_of_cons in Hin as [->|Hin]; [contradiction|].
    f_equal. apply IH. assumption.
Qed.

Lemma od_move_to_end_set k v d :
  OrderedDict.move_to_end k (OrderedDict.set k v d)
  = Some (OrderedDict.pop k d ++ [(k, v)]).
Proof.
  unfold OrderedDict.move_to_end. rewrite od_get_set_eq, od_pop_set. reflexivity.
Qed.

Lemma od_keys_pop k d :
  OrderedDict.keys (OrderedDict.pop k d)
  = filter (fun k' => k' <> k) (OrderedDict.keys d).
Proof.
  unfold OrderedDict.keys.
  induction d as [|[k0 v0] d IH]; [reflexivity|].
  rewrite od_pop_cons, fmap_cons, filter_cons. cbn [fst].
  destruct (decide (k0 = k)); destruct (decide (k0 <> k)); try contradiction;
    rewrite ?fmap_cons, IH; reflexivity.
Qed.

Lemma od_get_elem k v d : OrderedDict.get k d = Some v -> (k, v) ∈ d.
Proof.
  induction d as [|[k' v'] d IH]; simpl; [discriminate|].
  destruct (decide (k' = k)) as [->|].
  - intros [= ->]. apply elem_of_cons. left. reflexivity.
  - intros Hd. apply elem_of_cons. right. apply IH. assumption.
Qed.

Lemma od_set_elem k v d x : x ∈ OrderedDict.set k v d -> x = (k, v) \/ x ∈ d.
Proof.
  induction d as [|[k' v'] d IH]; simpl.
  - intros Hin. apply list_elem_of_singleton in Hin. left. assumption.
  - destruct (decide (k' = k)) as [->|].
    + intros Hin. apply elem_of_cons in Hin as [->|Hin]; [left; reflexivity|].
      right. apply elem_of_cons. right. assumption.
    + intros Hin. apply elem_of_cons in Hin as [->|Hin].
      * right. apply elem_of_cons. left. reflexivity.
      * destruct (IH Hin) as [->|Hd]; [left; reflexivity|].
        right. apply elem_of_cons. right. assumption.
Qed.

Lemma od_pop_elem k d x : x ∈ OrderedDict.pop k d -> x ∈ d.
Proof. unfold OrderedDict.pop. intros Hin. apply list_elem_of_filter in Hin as [_ Hin]. exact Hin. Qed.
End OrderedDict_facts.

(** ** The RAM cache tier *)



(** Reduction of the record projections and updates of [flash.state] only. *)
Ltac flash_cbn :=
  cbv beta iota delta
    [flash.memory flash._cache flash._deleted flash.db flash.max_keys
     flash.default_table flash._watchers flash._middleware flash.invoked
     flash.with_memory flash.with_cache flash.with_deleted flash.with_db
     flash.with_watchers flash.with_middleware flash.with_invoked fst snd] in *.

Section flash_facts.
Context {B : Type} `{Backend B}.
Implicit Types (s : flash.state B) (t key : string).

Lemma py_or_idem table dt : py_or (Some (py_or table dt)) dt = py_or table dt.
Proof.
  unfold py_or. destruct table as [n|].
  - destruct (decide (n = EmptyString)) as [->|Hn].
    + destruct (decide (dt = EmptyString)); reflexivity.
    + destruct (decide (n = EmptyString)); [contradiction | reflexivity].
  - destruct (decide (dt = EmptyString)); reflexivity.
Qed.

Lemma od_set_same {V} t (x : V) (d : list (string * V)) :
  OrderedDict.get t d = Some x -> OrderedDict.set t x d = d.
Proof.
  induction d as [|[k0 v0] d IH]; simpl; [discriminate|].
  destruct (decide (k0 = t)) as [->|Hne].
  - intros [= ->]. reflexivity.
  - intros Hd. rewrite IH by assumption. reflexivity.
Qed.

Lemma ensure_get {V} t (e : V) (d : list (string * V)) :
  OrderedDict.get t (flash.ensure t e d) = Some (default e (OrderedDict.get t d)).
Proof.
  unfold flash.ensure. destruct (OrderedDict.get t d) eqn:E; simpl.
  - exact E.
  - apply od_get_set_eq.
Qed.

Lemma ensure_present {V} t (e x : V) (d : list (string * V)) :
  OrderedDict.get t d = Some x -> flash.ensure t e d = d.
Proof. unfold flash.ensure. intros ->. reflexivity. Qed.

Lemma set_ensure {V} t (e x : V) (d : list (string * V)) :
  OrderedDict.set t x (flash.ensure t e d) = OrderedDict.set t x d.
Proof.
  unfold flash.ensure. destruct (OrderedDict.get t d); [reflexivity|].
  apply od_set_set.
Qed.

Lemma table_of_set {V} t (x : list (string * V)) d :
  flash.table_of t (OrderedDict.set t x d) = x.
Proof. unfold flash.table_of. rewrite od_get_set_eq. reflexivity. Qed.

Lemma table_of_set_ne {V} t t' (x : list (string * V)) d :
  t <> t' -> flash.table_of t' (OrderedDict.set t x d) = flash.table_of t' d.
Proof. intros. unfold flash.table_of. rewrite od_get_set_ne by assumption. reflexivity. Qed.

Lemma table_of_ensure {V} t (d : list (string * list (string * V))) :
  flash.table_of t (flash.ensure t [] d) = flash.table_of t d.
Proof.
  unfold flash.table_of. rewrite ensure_get.
  destruct (OrderedDict.get t d); reflexivity.
Qed.

Lemma touch_get key item tbl : OrderedDict.get key (touch key item tbl) = Some item.
Proof.
  unfold touch. rewrite od_get_app, od_get_pop_eq. simpl.
  destruct (decide (key = key)); [reflexivity | contradiction].
Qed.

Lemma touch_nonempty key item tbl : touch key item tbl <> [].
Proof. unfold touch. destruct (OrderedDict.pop key tbl); discriminate. Qed.

(** With room for at least one key, eviction spares the entry that was
    touched last. *)
Lemma bounded_touch_get max_keys key item tbl :
  1 <= max_keys ->
  OrderedDict.get key (bounded max_keys (touch key item tbl)) = Some item.
Proof.
  intros Hmax. unfold bounded.
  destruct (max_keys <? Z.of_nat (length (touch key item tbl))) eqn:Hover;
    [|apply touch_get].
  pose proof (od_get_pop_eq key tbl) as Hpop.
  unfold touch in *.
  destruct (OrderedDict.pop key tbl) as [|[k0 v0] rest]; simpl in *.
  - apply Z.ltb_lt in Hover. lia.
  - destruct (decide (k0 = key)); [discriminate|].
    rewrite od_get_app, Hpop. simpl.
    destruct (decide (key = key)); [reflexivity | contradiction].
Qed.


Lemma call_erase cb v s : erase_invoked (flash.call cb v s).2 = erase_invoked s.
Proof. unfold flash.call. destruct (flash.cb_body cb v); reflexivity. Qed.

Lemma call_guarded_erase cb v s :
  erase_invoked (flash.call_guarded cb v s).2 = erase_invoked s.
Proof.
  unfold flash.call_guarded, except_Exception, flash.call.
  destruct (flash.cb_body cb v); reflexivity.
Qed.

Lemma call_guarded_ok cb v s : (flash.call_guarded cb v s).1 = Ok tt.
Proof.
  unfold flash.call_guarded, except_Exception, flash.call.
  destruct (flash.cb_body cb v); reflexivity.
Qed.

Lemma move_to_end_ok t key s tbl tbl' :
  OrderedDict.get t (flash.memory s) = Some tbl ->
  OrderedDict.move_to_end key tbl = Some tbl' ->
  flash.move_to_end t key s
  = (Ok tt, flash.with_memory (OrderedDict.set t tbl') s).
Proof.
  unfold flash.move_to_end. intros -> Hm. cbn [mbind option_bind].
  rewrite Hm. reflexivity.
Qed.

Lemma manage_memory_ok t s tbl :
  OrderedDict.get t (flash.memory s) = Some tbl ->
  tbl <> [] ->
  flash._manage_memory t s
  = (Ok tt, flash.with_memory
              (OrderedDict.set t (bounded (flash.max_keys s) tbl)) s).
Proof.
  unfold flash._manage_memory, bounded. intros Hget Hne. rewrite Hget.
  destruct (flash.max_keys s <? Z.of_nat (length tbl)).
  - destruct tbl as [|kv rest]; [contradiction | reflexivity].
  - f_equal. destruct s. flash_cbn.
    rewrite od_set_same by assumption. reflexivity.
Qed.

(** What [set_value] leaves in the state, whether or not a watcher raised. *)
Lemma set_value_state s key v table ttl now v' :
  flash.run_middleware (flash._middleware s) key v = Ok v' ->
  let t := py_or table (flash.default_table s) in
  let w := flash.wrapper v' (flash.expiry_of now ttl) in
  erase_invoked (flash.set_value key v table ttl now s).2
  = erase_invoked
      (flash.with_deleted
         (fun d => OrderedDict.set t (default ∅ (OrderedDict.get t d) ∖ {[key]}) d)
         (flash.with_cache
            (fun c => OrderedDict.set t (OrderedDict.set key w (flash.table_of t c)) c)
            (flash.with_memory
               (fun m => OrderedDict.set t
                           (bounded (flash.max_keys s)
                              (touch key w (flash.table_of t m))) m) s))).
Proof.
  intros Hmw t w.
  unfold flash.set_value.
  unfold bind at 1. unfold gets at 1.
  unfold bind at 1. unfold gets at 1.
  unfold bind at 1. unfold lift at 1. rewrite Hmw.
  unfold bind at 1. unfold modify at 1.
  unfold bind at 1. unfold modify at 1.
  fold t. fold w.
  set (s1 := flash.store t key w (flash.ensure_tables t s)).
  assert (Hs1 : OrderedDict.get t (flash.memory s1)
                = Some (OrderedDict.set key w (flash.table_of t (flash.memory s)))).
  { subst s1. destruct s. unfold flash.store, flash.ensure_tables, flash.store_in.
    flash_cbn. rewrite od_get_set_eq, table_of_ensure. reflexivity. }
  unfold bind at 1.
  rewrite (move_to_end_ok t key s1 _ _ Hs1 (od_move_to_end_set _ _ _)).
  fold (touch key w (flash.table_of t (flash.memory s))).
  set (s2 := flash.with_memory _ s1).
  assert (Hs2 : OrderedDict.get t (flash.memory s2)
                = Some (touch key w (flash.table_of t (flash.memory s)))).
  { subst s2. destruct s1. flash_cbn. apply od_get_set_eq. }
  unfold bind at 1.
  rewrite (manage_memory_ok t s2 _ Hs2 (touch_nonempty _ _ _)).
  set (s3 := flash.with_memory _ s2).
  unfold bind at 1. unfold gets at 1.
  assert (Hs3 : erase_invoked s3 = erase_invoked
      (flash.with_deleted
         (fun d => OrderedDict.set t (default ∅ (OrderedDict.get t d) ∖ {[key]}) d)
         (flash.with_cache
            (fun c => OrderedDict.set t (OrderedDict.set key w (flash.table_of t c)) c)
            (flash.with_memory
               (fun m => OrderedDict.set t
                           (bounded (flash.max_keys s)
                              (touch key w (flash.table_of t m))) m) s)))).
  { subst s3 s2 s1. destruct s.
    unfold erase_invoked, flash.store, flash.ensure_tables, flash.store_in.
    flash_cbn. f_equal.
    - rewrite !od_set_set, set_ensure. reflexivity.
    - rewrite table_of_ensure, set_ensure. reflexivity.
    - rewrite ensure_get, set_ensure.
      destruct (OrderedDict.get t _deleted); reflexivity. }
  rewrite <- Hs3.
  destruct (flash._watchers s3 !! key) as [cbs|]; [|reflexivity].
  apply (for_each_preserves erase_invoked). intros. apply call_erase.
Qed.

Lemma ensure_memory_present s t tbl :
  OrderedDict.get t (flash.memory s) = Some tbl ->
  flash.with_memory (flash.ensure t []) s = s.
Proof.
  intros Hget. destruct s. flash_cbn.
  rewrite (ensure_present _ _ _ _ Hget). reflexivity.
Qed.

(** The read path on a resident entry that has not expired. *)
Lemma get_value_hit s key table dflt now tbl item v :
  let t := py_or table (flash.default_table s) in
  OrderedDict.get t (flash.memory s) = Some tbl ->
  OrderedDict.get key tbl = Some item ->
  item <> VNone ->
  flash.ttl_expired now item = Ok false ->
  flash.unwrap item = Ok v ->
  flash.get_value key table dflt now s
  = (Ok v, flash.with_memory (OrderedDict.set t (touch key item tbl)) s).
Proof.
  intros t Ht Hitem Hnn Httl Hval.
  unfold flash.get_value.
  unfold bind at 1. unfold gets at 1. fold t.
  unfold bind at 1. unfold modify at 1.
  rewrite (ensure_memory_present s t tbl Ht).
  unfold bind at 1. unfold gets at 1.
  unfold flash.table_of at 1. rewrite Ht.
  change (default [] (Some tbl)) with tbl. rewrite Hitem.
  assert (Hmove : flash.move_to_end t key s
                  = (Ok tt, flash.with_memory (OrderedDict.set t (touch key item tbl)) s)).
  { apply (move_to_end_ok t key s tbl); [assumption|].
    unfold OrderedDict.move_to_end. rewrite Hitem. reflexivity. }
  destruct item; try contradiction;
    (unfold bind at 1; unfold ret at 1;
     unfold bind at 1; unfold lift at 1; rewrite Httl;
     unfold bind at 1; rewrite Hmove; unfold lift; rewrite Hval; reflexivity).
Qed.

Lemma delete_state key t s :
  flash.delete key (Some t) s
  = (Ok tt,
     flash.with_deleted
       (fun d => OrderedDict.set (py_or (Some t) (flash.default_table s))
                   (default ∅ (OrderedDict.get (py_or (Some t) (flash.default_table s)) d)
                    ∪ {[key]}) d)
       (flash.with_cache (flash.pop_in (py_or (Some t) (flash.default_table s)) key)
          (flash.with_memory
             (flash.pop_in (py_or (Some t) (flash.default_table s)) key) s))).
Proof. destruct s. reflexivity. Qed.

(** The read path on a resident entry whose expiry is in the past: the
    lazy check deletes the entry and answers with the default. *)
Lemma get_value_expired s key table dflt now tbl item :
  let t := py_or table (flash.default_table s) in
  OrderedDict.get t (flash.memory s) = Some tbl ->
  OrderedDict.get key tbl = Some item ->
  item <> VNone ->
  flash.ttl_expired now item = Ok true ->
  flash.get_value key table dflt now s
  = (Ok dflt,
     flash.with_deleted
       (fun d => OrderedDict.set t (default ∅ (OrderedDict.get t d) ∪ {[key]}) d)
       (flash.with_cache (flash.pop_in t key)
          (flash.with_memory (flash.pop_in t key) s))).
Proof.
  intros t Ht Hitem Hnn Httl.
  unfold flash.get_value.
  unfold bind at 1. unfold gets at 1. fold t.
  unfold bind at 1. unfold modify at 1.
  rewrite (ensure_memory_present s t tbl Ht).
  unfold bind at 1. unfold gets at 1.
  unfold flash.table_of at 1. rewrite Ht.
  change (default [] (Some tbl)) with tbl. rewrite Hitem.
  assert (Hdel : flash.delete key (Some t) s
                 = (Ok tt,
     flash.with_deleted
       (fun d => OrderedDict.set t (default ∅ (OrderedDict.get t d) ∪ {[key]}) d)
       (flash.with_cache (flash.pop_in t key)
          (flash.with_memory (flash.pop_in t key) s)))).
  { rewrite delete_state. subst t. rewrite py_or_idem. reflexivity. }
  destruct item; try contradiction;
    (unfold bind at 1; unfold ret at 1;
     unfold bind at 1; unfold lift at 1; rewrite Httl;
     unfold bind at 1; rewrite Hdel; reflexivity).
Qed.
End flash_facts.

Section preservation.
Context {S T : Type} (f : S -> T).

Lemma bind_preserves {A C} (m : M S A) (k : A -> M S C) :
  (forall s, f (m s).2 = f s) ->
  (forall a s, f (k a s).2 = f s) ->
  forall s, f (bind m k s).2 = f s.
Proof.
  intros Hm Hk s. unfold bind. specialize (Hm s).
  destruct (m s) as [[a|e] s1]; simpl in *; [|assumption].
  rewrite Hk. assumption.
Qed.

Lemma gets_preserves {A} (g : S -> A) s : f (gets g s).2 = f s.
Proof. reflexivity. Qed.

Lemma ret_preserves {A} (a : A) s : f (ret (S:=S) a s).2 = f s.
Proof. reflexivity. Qed.
End preservation.

Section flash_flush.
Context {B : Type} `{Backend B}.
Implicit Types (s : flash.state B).


Lemma backend_resident_view {A} (q : M B A) s :
  resident_view (flash.backend q s).2 = resident_view s.
Proof. unfold flash.backend. destruct (q (flash.db s)). reflexivity. Qed.

Lemma flush_resident_view s : resident_view (flash.flush s).2 = resident_view s.
Proof.
  revert s. unfold flash.flush.
  apply bind_preserves; [apply gets_preserves|]. intros pending.
  apply bind_preserves.
  { intros s. apply for_each_preserves. intros t_name.
    apply bind_preserves; [apply gets_preserves|]. intros ks.
    destruct (decide (ks = ∅)); [apply ret_preserves|].
    apply bind_preserves; [apply backend_resident_view|]. intros _ s1.
    reflexivity. }
  intros _.
  apply bind_preserves; [apply gets_preserves|]. intros dirty.
  apply bind_preserves.
  { intros s. apply for_each_preserves. intros t_name.
    apply bind_preserves; [apply gets_preserves|]. intros dirty_data.
    destruct dirty_data; [apply ret_preserves|].
    apply bind_preserves; [apply backend_resident_view|]. intros _ s1.
    reflexivity. }
  intros _.
  apply bind_preserves; [apply backend_resident_view|]. intros _.
  apply ret_preserves.
Qed.

Lemma wrapper_ttl v' e now :
  flash.ttl_expired now (flash.wrapper v' e)
  = Ok (match e with Some x => x <? now | None => false end).
Proof. destruct e; reflexivity. Qed.

Lemma wrapper_not_expired v' e now :
  (forall x, e = Some x -> now <= x) ->
  flash.ttl_expired now (flash.wrapper v' e) = Ok false.
Proof.
  intros He. rewrite wrapper_ttl. destruct e as [x|]; [|reflexivity].
  specialize (He x eq_refl).
  destruct (x <? now) eqn:E; [apply Z.ltb_lt in E; lia | reflexivity].
Qed.

Lemma wrapper_expired v' x now :
  x < now -> flash.ttl_expired now (flash.wrapper v' (Some x)) = Ok true.
Proof.
  intros Hx. rewrite wrapper_ttl.
  destruct (x <? now) eqn:E; [reflexivity | apply Z.ltb_ge in E; lia].
Qed.

Lemma unwrap_wrapper v' e : flash.unwrap (flash.wrapper v' e) = Ok v'.
Proof. reflexivity. Qed.

(** A read of a resident wrapper written by the tier. *)
Lemma get_value_resident s key table dflt now tbl v' e :
  let t := py_or table (flash.default_table s) in
  OrderedDict.get t (flash.memory s) = Some tbl ->
  OrderedDict.get key tbl = Some (flash.wrapper v' e) ->
  (forall x, e = Some x -> now <= x) ->
  (flash.get_value key table dflt now s).1 = Ok v'.
Proof.
  intros t Ht Hitem He.
  rewrite (get_value_hit s key table dflt now tbl (flash.wrapper v' e) v' Ht Hitem).
  - reflexivity.
  - unfold flash.wrapper. discriminate.
  - apply wrapper_not_expired. assumption.
  - apply unwrap_wrapper.
Qed.

(** The entry that [set_value] leaves for its key. *)
Lemma set_value_resident s key v table ttl now v' :
  flash.run_middleware (flash._middleware s) key v = Ok v' ->
  1 <= flash.max_keys s ->
  let t := py_or table (flash.default_table s) in
  let s1 := (flash.set_value key v table ttl now s).2 in
  flash.max_keys s1 = flash.max_keys s /\
  flash.default_table s1 = flash.default_table s /\
  exists tbl,
    OrderedDict.get t (flash.memory s1) = Some tbl /\
    OrderedDict.get key tbl = Some (flash.wrapper v' (flash.expiry_of now ttl)).
Proof.
  intros Hmw Hmax t s1.
  pose proof (set_value_state s key v table ttl now v' Hmw) as Hst.
  cbv zeta in Hst. fold t in Hst. fold s1 in Hst.
  assert (Hmem : flash.memory s1 = flash.memory (erase_invoked s1)) by (destruct s1; reflexivity).
  assert (Hmk : flash.max_keys s1 = flash.max_keys (erase_invoked s1)) by (destruct s1; reflexivity).
  assert (Hdt : flash.default_table s1 = flash.default_table (erase_invoked s1)) by (destruct s1; reflexivity).
  rewrite Hmem, Hmk, Hdt, Hst. clear Hmem Hmk Hdt Hst.
  destruct s. unfold erase_invoked. flash_cbn.
  split; [reflexivity|]. split; [reflexivity|].
  eexists. split; [apply od_get_set_eq|].
  apply bounded_touch_get. assumption.
Qed.
End flash_flush.

(** ** Batched writes of the RAM cache tier *)


Lemma sole_touch_same key w tbl : sole key w (touch key w tbl).
Proof.
  exists (OrderedDict.pop key tbl), []. split; [reflexivity|].
  split; [apply od_get_pop_eq | reflexivity].
Qed.

Lemma sole_touch_other key w k' w' tbl :
  k' <> key -> sole key w tbl -> sole key w (touch k' w' tbl).
Proof.
  intros Hne (l1 & l2 & -> & H1 & H2). unfold touch.
  exists (OrderedDict.pop k' l1), (OrderedDict.pop k' l2 ++ [(k', w')]).
  split.
  - rewrite od_pop_app, od_pop_cons.
    destruct (decide (key = k')); [congruence|].
    rewrite <- app_assoc. reflexivity.
  - split.
    + rewrite od_get_pop_ne by assumption. assumption.
    + rewrite od_get_app, od_get_pop_ne, H2 by assumption. simpl.
      destruct (decide (k' = key)); [contradiction | reflexivity].
Qed.

Lemma sole_get key w tbl : sole key w tbl -> OrderedDict.get key tbl = Some w.
Proof.
  intros (l1 & l2 & -> & H1 & H2). rewrite od_get_app, H1. simpl.
  destruct (decide (key = key)); [reflexivity | contradiction].
Qed.

Lemma od_get_drop_None {V} (key : string) n (l : list (string * V)) :
  OrderedDict.get key l = None -> OrderedDict.get key (drop n l) = None.
Proof.
  revert n. induction l as [|[k0 v0] l IH]; intros n; [destruct n; reflexivity|].
  simpl. destruct (decide (k0 = key)); [discriminate|]. intros Hl.
  destruct n; simpl.
  - destruct (decide (k0 = key)); [contradiction | assumption].
  - apply IH. assumption.
Qed.

(** A suffix of the table still binds [key] to [w], if it binds it at all. *)
Lemma sole_drop key w tbl n item :
  sole key w tbl -> OrderedDict.get key (drop n tbl) = Some item -> item = w.
Proof.
  intros (l1 & l2 & -> & H1 & H2) Hget.
  destruct (decide (n <= length l1)%nat) as [Hle|Hgt].
  - rewrite drop_app_le in Hget by assumption.
    rewrite od_get_app, (od_get_drop_None key n l1 H1) in Hget. simpl in Hget.
    destruct (decide (key = key)); [|contradiction].
    injection Hget as <-. reflexivity.
  - rewrite drop_app_ge in Hget by lia.
    destruct (n - length l1)%nat as [|m] eqn:E; [lia|]. simpl in Hget.
    rewrite (od_get_drop_None key m l2 H2) in Hget. discriminate.
Qed.


Lemma sole_touch_all_other key w ws tbl :
  key ∉ ws.*1 -> sole key w tbl -> sole key w (touch_all ws tbl).
Proof.
  revert tbl. induction ws as [|[k0 w0] ws IH]; intros tbl Hnin Hs; [assumption|].
  rewrite fmap_cons in Hnin. apply not_elem_of_cons in Hnin as [Hne Hnin].
  cbn [fst] in Hne.
  simpl. apply IH; [assumption|]. apply sole_touch_other; [congruence | assumption].
Qed.

Lemma sole_touch_all key w ws tbl :
  NoDup ws.*1 -> (key, w) ∈ ws -> sole key w (touch_all ws tbl).
Proof.
  revert tbl. induction ws as [|[k0 w0] ws IH]; intros tbl Hnd Hin.
  - apply elem_of_nil in Hin. contradiction.
  - rewrite fmap_cons in Hnd. apply NoDup_cons in Hnd as [Hfresh Hnd].
    apply elem_of_cons in Hin as [Heq|Hin]; simpl.
    + injection Heq as <- <-. apply sole_touch_all_other; [assumption|].
      apply sole_touch_same.
    + apply IH; assumption.
Qed.

(** The loop of eviction stops at a suffix of the table. *)
Lemma evict_suffix max_keys tbl tbl' :
  flash.evict max_keys tbl = Ok tbl' -> exists n, tbl' = drop n tbl.
Proof.
  induction tbl as [|kv tbl IH]; simpl.
  - destruct (max_keys <? _); [discriminate|]. intros [= <-]. exists 0%nat. reflexivity.
  - destruct (max_keys <? _).
    + intros Hev. destruct (IH Hev) as [n ->]. exists (S n). reflexivity.
    + intros [= <-]. exists 0%nat. reflexivity.
Qed.

Lemma evict_drop (N : nat) tbl :
  flash.evict (Z.of_nat N) tbl = Ok (drop (length tbl - N) tbl).
Proof.
  induction tbl as [|kv tbl IH].
  - simpl. destruct (Z.of_nat N <? _) eqn:E; [apply Z.ltb_lt in E; lia | reflexivity].
  - cbn [flash.evict].
    destruct (Z.of_nat N <? Z.of_nat (length (kv :: tbl))) eqn:E.
    + apply Z.ltb_lt in E. cbn [length] in *. rewrite IH.
      replace (S (length tbl) - N)%nat with (S (length tbl - N)) by lia.
      reflexivity.
    + apply Z.ltb_ge in E. cbn [length] in *.
      replace (S (length tbl) - N)%nat with 0%nat by lia. reflexivity.
Qed.

Lemma for_each_ok {S A} (body : A -> M S unit) l :
  (forall x s, (body x s).1 = Ok tt) -> forall s, (for_each l body s).1 = Ok tt.
Proof.
  intros Hbody. induction l as [|x l IH]; intros s; [reflexivity|].
  simpl. unfold bind. specialize (Hbody x s).
  destruct (body x s) as [[[]|e] s1]; simpl in *; [apply IH | discriminate].
Qed.

Section flash_batch.
Context {B : Type} `{Backend B}.
Implicit Types (s : flash.state B).


Lemma write_view_erase s s' :
  erase_invoked s = erase_invoked s' -> write_view s = write_view s'.
Proof. destruct s, s'. unfold erase_invoked, write_view. flash_cbn. congruence. Qed.




Lemma set_one_view s t expiry key v v' :
  flash.run_middleware (flash._middleware s) key v = Ok v' ->
  let r := flash.set_one t expiry (key, v) s in
  r.1 = Ok tt /\
  write_view r.2
  = (OrderedDict.set t (touch key (flash.wrapper v' expiry)
                          (flash.table_of t (flash.memory s))) (flash.memory s),
     flash.max_keys s, flash.default_table s, flash._middleware s).
Proof.
  intros Hmw.
  set (w := flash.wrapper v' expiry).
  set (s1 := flash.store t key w s).
  assert (Hs1 : OrderedDict.get t (flash.memory s1)
                = Some (OrderedDict.set key w (flash.table_of t (flash.memory s)))).
  { subst s1. destruct s. unfold flash.store, flash.store_in.
    flash_cbn. apply od_get_set_eq. }
  set (s2 := flash.with_memory
               (OrderedDict.set t (touch key w (flash.table_of t (flash.memory s)))) s1).
  assert (Hs2 : write_view s2
                = (OrderedDict.set t (touch key w (flash.table_of t (flash.memory s)))
                     (flash.memory s),
                   flash.max_keys s, flash.default_table s, flash._middleware s)).
  { subst s2 s1. destruct s. unfold write_view, flash.store, flash.store_in.
    flash_cbn. rewrite od_set_set. reflexivity. }
  assert (E : flash.set_one t expiry (key, v) s
              = match flash._watchers s2 !! key with
                | Some cbs => for_each cbs (fun cb => flash.call_guarded cb v')
                | None => ret tt
                end s2).
  { unfold flash.set_one.
    unfold bind at 1. unfold gets at 1.
    unfold bind at 1. unfold lift at 1. rewrite Hmw.
    unfold bind at 1. unfold modify at 1. fold w. fold s1.
    unfold bind at 1.
    rewrite (move_to_end_ok t key s1 _ _ Hs1 (od_move_to_end_set _ _ _)).
    fold (touch key w (flash.table_of t (flash.memory s))). fold s2.
    reflexivity. }
  cbv zeta. rewrite E, <- Hs2.
  destruct (flash._watchers s2 !! key) as [cbs|]; [|split; reflexivity].
  split.
  - apply for_each_ok. intros. apply call_guarded_ok.
  - apply write_view_erase.
    apply (for_each_preserves erase_invoked). intros. apply call_guarded_erase.
Qed.

Lemma set_loop_view mapping : forall s t expiry tbl0,
  OrderedDict.get t (flash.memory s) = Some tbl0 ->
  Forall (succeeds (flash._middleware s)) mapping ->
  let r := for_each mapping (flash.set_one t expiry) s in
  r.1 = Ok tt /\
  write_view r.2
  = (OrderedDict.set t
       (touch_all (wrap_all (flash._middleware s) expiry mapping) tbl0)
       (flash.memory s),
     flash.max_keys s, flash.default_table s, flash._middleware s).
Proof.
  induction mapping as [|[key v] mapping IH]; intros s t expiry tbl0 Ht Hok.
  - cbv zeta. split; [reflexivity|]. unfold write_view. simpl.
    rewrite od_set_same by assumption. reflexivity.
  - apply Forall_cons in Hok as [[v' Hmw] Hok]. cbn [fst snd] in Hmw.
    destruct (set_one_view s t expiry key v v' Hmw) as [H1 H2].
    cbv zeta. cbn [for_each]. unfold bind.
    destruct (flash.set_one t expiry (key, v) s) as [[[]|e] s1];
      cbn [fst snd] in *; [|discriminate].
    unfold write_view in H2. injection H2 as Hm Hk Hd Hw.
    assert (Ht1 : OrderedDict.get t (flash.memory s1)
                  = Some (touch key (flash.wrapper v' expiry) tbl0)).
    { rewrite Hm. unfold flash.table_of. rewrite Ht. apply od_get_set_eq. }
    rewrite <- Hw in Hok.
    destruct (IH s1 t expiry _ Ht1 Hok) as [IH1 IH2].
    split; [assumption|]. rewrite IH2, Hm, Hk, Hd, Hw.
    rewrite od_set_set. unfold wrap_all. cbn [map fst snd].
    unfold touch_all at 2. cbn [fold_left fst snd]. rewrite Hmw.
    reflexivity.
Qed.

(** The state that [set_multiple] leaves when every middleware call of
    the batch succeeds. *)
Lemma set_multiple_view s mapping table ttl now :
  Forall (succeeds (flash._middleware s)) mapping ->
  let t := py_or table (flash.default_table s) in
  let T := touch_all (wrap_all (flash._middleware s) (flash.expiry_of now ttl) mapping)
             (flash.table_of t (flash.memory s)) in
  let r := flash.set_multiple mapping table ttl now s in
  flash.max_keys r.2 = flash.max_keys s /\
  flash.default_table r.2 = flash.default_table s /\
  match flash.evict (flash.max_keys s) T with
  | Ok tbl' =>
      r.1 = Ok tt /\ flash.memory r.2 = OrderedDict.set t tbl' (flash.memory s)
  | Raise e =>
      r.1 = Raise e /\ flash.memory r.2 = OrderedDict.set t [] (flash.memory s)
  end.
Proof.
  intros Hok t T.
  set (s0 := flash.ensure_tables t s).
  assert (E : flash.set_multiple mapping table ttl now s
              = match for_each mapping (flash.set_one t (flash.expiry_of now ttl)) s0 with
                | (Ok _, s1) =>
                    match flash.evict (flash.max_keys s1)
                            (flash.table_of t (flash.memory s1)) with
                    | Ok tbl => (Ok tt, flash.with_memory (OrderedDict.set t tbl) s1)
                    | Raise e => (Raise e, flash.with_memory (OrderedDict.set t []) s1)
                    end
                | (Raise e, s1) => (Raise e, s1)
                end) by reflexivity.
  cbv zeta. rewrite E. clear E.
  assert (Ht0 : OrderedDict.get t (flash.memory s0)
                = Some (flash.table_of t (flash.memory s))).
  { subst s0. destruct s. unfold flash.ensure_tables. flash_cbn.
    rewrite ensure_get. reflexivity. }
  assert (Hmw0 : flash._middleware s0 = flash._middleware s) by (destruct s; reflexivity).
  rewrite <- Hmw0 in Hok.
  destruct (set_loop_view mapping s0 t (flash.expiry_of now ttl) _ Ht0 Hok) as [L1 L2].
  destruct (for_each mapping (flash.set_one t (flash.expiry_of now ttl)) s0)
    as [[[]|e] s1]; cbn [fst snd] in *; [|discriminate].
  unfold write_view in L2. injection L2 as Lm Lk Ld Lw.
  rewrite set_ensure in Lm. fold T in Lm.
  rewrite Lm, table_of_set, Lk.
  destruct (flash.evict (flash.max_keys s) T) as [tbl'|e];
    destruct s1; flash_cbn; subst;
    rewrite od_set_set; repeat split; congruence.
Qed.
End flash_batch.

Section flash_read_back.
Context {B : Type} `{Backend B}.
Implicit Types (s : flash.state B).

Lemma wrap_all_keys mws expiry mapping : (wrap_all mws expiry mapping).*1 = mapping.*1.
Proof.
  unfold wrap_all. induction mapping as [|[k v] mapping IH]; [reflexivity|].
  cbn [map]. rewrite !fmap_cons, IH. reflexivity.
Qed.

Lemma wrap_all_elem mws expiry mapping key v v' :
  (key, v) ∈ mapping ->
  flash.run_middleware mws key v = Ok v' ->
  (key, flash.wrapper v' expiry) ∈ wrap_all mws expiry mapping.
Proof.
  intros Hin Hmw. unfold wrap_all. apply list_elem_of_In, in_map_iff.
  exists (key, v). cbn [fst snd]. rewrite Hmw. split; [reflexivity|].
  apply list_elem_of_In. assumption.
Qed.

(** A read, in a state with the recency maps of [s1], of a wrapper that is
    resident in [s1]. *)
Lemma read_back s1 s2 key table dflt now v' e tbl :
  resident_view s2 = resident_view s1 ->
  OrderedDict.get (py_or table (flash.default_table s1)) (flash.memory s1) = Some tbl ->
  OrderedDict.get key tbl = Some (flash.wrapper v' e) ->
  (forall x, e = Some x -> now <= x) ->
  (flash.get_value key table dflt now s2).1 = Ok v'.
Proof.
  unfold resident_view. intros [= Hm Hk Hd] Ht Hitem He.
  apply (get_value_resident s2 key table dflt now tbl v' e); try assumption.
  rewrite Hm, Hd. assumption.
Qed.

(** C1, as amended. A value written through [set_value] or [set_multiple]
    is what a later [get_value] of the key returns, before a flush and
    after it, as long as the TTL given with the write has not elapsed and
    the entry is still in the recency map of its table; what is read is
    the value the middleware chain produced.  [set_value] leaves its key
    resident whenever [max_keys] is at least one; a key of a batch is
    resident unless the eviction that ends the batch removed it. *)
Theorem written_value_read_back (s : flash.state B) (table : option string)
    (ttl : option Z) (now0 now1 : Z) (dflt : value) :
  let t := py_or table (flash.default_table s) in
  (forall x, flash.expiry_of now0 ttl = Some x -> now1 <= x) ->
  (forall key v v',
     flash.run_middleware (flash._middleware s) key v = Ok v' ->
     1 <= flash.max_keys s ->
     let s1 := (flash.set_value key v table ttl now0 s).2 in
     (flash.get_value key table dflt now1 s1).1 = Ok v' /\
     (flash.get_value key table dflt now1 (flash.flush s1).2).1 = Ok v') /\
  (forall mapping key v v',
     NoDup mapping.*1 ->
     Forall (succeeds (flash._middleware s)) mapping ->
     (key, v) ∈ mapping ->
     flash.run_middleware (flash._middleware s) key v = Ok v' ->
     let s1 := (flash.set_multiple mapping table ttl now0 s).2 in
     key ∈ OrderedDict.keys (flash.table_of t (flash.memory s1)) ->
     (flash.get_value key table dflt now1 s1).1 = Ok v' /\
     (flash.get_value key table dflt now1 (flash.flush s1).2).1 = Ok v').
Proof.
  intros t Httl. split.
  - intros key v v' Hmw Hmax s1.
    destruct (set_value_resident s key v table ttl now0 v' Hmw Hmax)
      as (Hk & Hd & tbl & Ht & Hitem).
    fold s1 in Hk, Hd, Ht. rewrite <- Hd in Ht.
    split.
    + apply (read_back s1 s1 key table dflt now1 v' _ tbl eq_refl Ht Hitem); auto.
    + apply (read_back s1 _ key table dflt now1 v' _ tbl
               (flush_resident_view s1) Ht Hitem); auto.
  - intros mapping key v v' Hnd Hok Hin Hmw s1 Hres.
    destruct (set_multiple_view s mapping table ttl now0 Hok) as (Hk & Hd & Hev).
    fold t in Hev. fold s1 in Hk, Hd, Hev.
    set (ws := wrap_all (flash._middleware s) (flash.expiry_of now0 ttl) mapping) in *.
    set (T := touch_all ws (flash.table_of t (flash.memory s))) in *.
    assert (Hsole : sole key (flash.wrapper v' (flash.expiry_of now0 ttl)) T).
    { apply sole_touch_all.
      - subst ws. rewrite wrap_all_keys. assumption.
      - apply (wrap_all_elem _ _ _ key v v'); assumption. }
    destruct (flash.evict (flash.max_keys s) T) as [tbl'|e] eqn:Hevict.
    + destruct Hev as [_ Hmem].
      assert (Ht : OrderedDict.get (py_or table (flash.default_table s1)) (flash.memory s1)
                   = Some tbl').
      { rewrite Hd. fold t. rewrite Hmem. apply od_get_set_eq. }
      rewrite Hmem, table_of_set in Hres.
      destruct (OrderedDict.get key tbl') as [item|] eqn:Hitem;
        [|apply od_get_None in Hitem; contradiction].
      destruct (evict_suffix _ _ _ Hevict) as [n ->].
      pose proof (sole_drop _ _ _ _ _ Hsole Hitem) as ->.
      split.
      * apply (read_back s1 s1 key table dflt now1 v' _ _ eq_refl Ht Hitem); auto.
      * apply (read_back s1 _ key table dflt now1 v' _ _ (flush_resident_view s1) Ht Hitem);
          auto.
    + destruct Hev as [_ Hmem]. rewrite Hmem, table_of_set in Hres.
      apply elem_of_nil in Hres. contradiction.
Qed.
End flash_read_back.


Lemma written_value_read_back_witness :
  let s := flash.init light0 "storage" 10 in
  let s1 := (flash.set_value "k" (VInt 1) None (Some 60) 100 s).2 in
  (flash.get_value "k" None VNone 160 s1).1 = Ok (VInt 1) /\
  (flash.get_value "k" None VNone 160 (flash.flush s1).2).1 = Ok (VInt 1).
Proof.
  intros s.
  refine (proj1 (written_value_read_back s None (Some 60) 100 160 VNone _)
            "k" (VInt 1) (VInt 1) _ _).
  - intros x [= <-]. lia.
  - reflexivity.
  - simpl. lia.
Defined.

(** C1, counterexample. With room for one key, the first of two keys
    written to the default table is evicted by the second write, and a get
    issued before any flush answers [None] instead of the value written. *)
Lemma evicted_value_not_read_back :
  let s := flash.init light0 "storage" 1 in
  let s1 := (flash.set_value "k1" (VInt 1) None None 100 s).2 in
  let s2 := (flash.set_value "k2" (VInt 2) None None 101 s1).2 in
  (flash.get_value "k1" None (VInt 0) 102 s2).1 = Ok VNone /\
  flash._cache s2
  = [("storage", [("k1", flash.wrapper (VInt 1) None);
                   ("k2", flash.wrapper (VInt 2) None)])].
Proof. vm_compute. split; reflexivity. Qed.

Section flash_absent.
Context {B : Type} `{Backend B}.
Implicit Types (s : flash.state B).

Lemma set_absent_touch key (w : value) tbl :
  OrderedDict.get key tbl = None -> OrderedDict.set key w tbl = touch key w tbl.
Proof.
  intros Habs. unfold touch. rewrite od_pop_absent by assumption.
  apply od_set_absent. assumption.
Qed.

(** C10, as amended. When [max_keys] is at least one, a get of a key that
    the recency map does not hold and for which the backend answers
    [None] puts the wrapper of [None] into the recency map and returns
    [None]; a check of the key that follows answers true. *)
Theorem absent_get_inserts_none (s : flash.state B) (key : string)
    (table : option string) (dflt : value) (now : Z) (b' : B) :
  let t := py_or table (flash.default_table s) in
  OrderedDict.get key (flash.table_of t (flash.memory s)) = None ->
  db_get_value key t (flash.db s) = (Ok VNone, b') ->
  1 <= flash.max_keys s ->
  let r := flash.get_value key table dflt now s in
  r.1 = Ok VNone /\
  OrderedDict.get key (flash.table_of t (flash.memory r.2))
    = Some (flash.wrapper VNone None) /\
  (flash.check key table r.2).1 = Ok true.
Proof.
  intros t Habs Hdb Hmax.
  set (w := flash.wrapper VNone None).
  set (tbl0 := flash.table_of t (flash.memory s)) in *.
  set (tbl1 := bounded (flash.max_keys s) (touch key w tbl0)).
  set (s0 := flash.with_memory (flash.ensure t []) s).
  set (s2 := flash.with_memory (flash.store_in t key w) (flash.with_db b' s0)).
  set (s3 := flash.with_memory (OrderedDict.set t tbl1) s2).
  set (s4 := flash.with_memory (OrderedDict.set t (touch key w tbl1)) s3).
  assert (Hs2 : OrderedDict.get t (flash.memory s2) = Some (touch key w tbl0)).
  { subst s2 s0. destruct s. unfold flash.store_in. flash_cbn.
    rewrite od_get_set_eq, table_of_ensure. fold tbl0.
    rewrite set_absent_touch by assumption. reflexivity. }
  assert (Hmk2 : flash.max_keys s2 = flash.max_keys s) by (destruct s; reflexivity).
  assert (Hs3 : OrderedDict.get t (flash.memory s3) = Some tbl1).
  { subst s3. destruct s2. flash_cbn. apply od_get_set_eq. }
  assert (Hkey1 : OrderedDict.get key tbl1 = Some w).
  { apply bounded_touch_get. assumption. }
  assert (E : flash.get_value key table dflt now s = (Ok VNone, s4)).
  { unfold flash.get_value.
    unfold bind at 1. unfold gets at 1. fold t.
    unfold bind at 1. unfold modify at 1. fold s0.
    unfold bind at 1. unfold gets at 1.
    replace (flash.table_of t (flash.memory s0)) with tbl0
      by (subst s0 tbl0; destruct s; flash_cbn; rewrite table_of_ensure; reflexivity).
    rewrite Habs.
    unfold bind at 1. unfold except_Exception at 1.
    unfold bind at 1. unfold flash.backend at 1.
    replace (flash.db s0) with (flash.db s) by (destruct s; reflexivity).
    rewrite Hdb.
    change (flash.as_wrapper VNone) with w.
    unfold bind at 1. unfold modify at 1. fold s2.
    unfold bind at 1.
    rewrite (manage_memory_ok t s2 _ Hs2 (touch_nonempty _ _ _)), Hmk2.
    fold tbl1. fold s3. unfold ret at 1.
    unfold bind at 1. unfold lift at 1.
    change (flash.ttl_expired now w) with (Ok (A:=bool) false).
    cbv beta iota. unfold bind at 1.
    rewrite (move_to_end_ok t key s3 tbl1 (touch key w tbl1) Hs3).
    - reflexivity.
    - unfold OrderedDict.move_to_end. rewrite Hkey1. reflexivity. }
  assert (Hs4 : OrderedDict.get t (flash.memory s4) = Some (touch key w tbl1)).
  { subst s4. destruct s3. flash_cbn. apply od_get_set_eq. }
  assert (Hd4 : flash.default_table s4 = flash.default_table s)
    by (destruct s; reflexivity).
  cbv zeta. rewrite E. cbn [fst snd].
  split; [reflexivity|]. split.
  - unfold flash.table_of. rewrite Hs4. apply touch_get.
  - unfold flash.check. unfold bind at 1. unfold gets at 1.
    rewrite Hd4. fold t.
    unfold bind at 1. unfold gets at 1. rewrite Hs4.
    unfold OrderedDict.contains. rewrite touch_get.
    rewrite bool_decide_eq_true_2 by eauto. reflexivity.
Qed.
End flash_absent.

Lemma absent_get_inserts_none_witness :
  let s := flash.init light0 "storage" 10 in
  let r := flash.get_value "missing" None (VInt 7) 0 s in
  r.1 = Ok VNone /\
  OrderedDict.get "missing" (flash.table_of "storage" (flash.memory r.2))
    = Some (flash.wrapper VNone None) /\
  (flash.check "missing" None r.2).1 = Ok true.
Proof.
  intros s.
  refine (absent_get_inserts_none s "missing" None (VInt 7) 0
            (Light.get_value "missing" (Some "storage") light0).2 _ _ _).
  - reflexivity.
  - vm_compute. reflexivity.
  - simpl. lia.
Defined.

(** C10, counterexample. With [max_keys = 0] the wrapper that a get of an
    absent key inserts is evicted at once, the get raises [KeyError] and a
    check of the key answers false.  On the single-file backend, a get in a
    table that the database file does not hold returns the default, inserts
    nothing, and the check that follows raises. *)
Lemma absent_get_without_insertion :
  (let r := flash.get_value "missing" None (VInt 7) 0 (flash.init light0 "storage" 0) in
   r.1 = Raise KeyError /\
   flash.memory r.2 = [("storage", [])] /\
   (flash.check "missing" None r.2).1 = Ok false) /\
  (let r := flash.get_value "missing" (Some "users") (VInt 7) 0
              (flash.init light0 "storage" 10) in
   r.1 = Ok (VInt 7) /\
   flash.memory r.2 = [("users", [])] /\
   (flash.check "missing" (Some "users") r.2).1 = Raise OperationalError).
Proof. vm_compute. repeat split; reflexivity. Qed.

(** ** Expiry *)
Section flash_ttl.
Context {B : Type} `{Backend B}.
Implicit Types (s : flash.state B).

Lemma table_of_pop_in t t' key k (d : list (string * list (string * value))) :
  OrderedDict.get key (flash.table_of t (flash.pop_in t' k d))
  = if decide (t' = t /\ k = key) then None
    else OrderedDict.get key (flash.table_of t d).
Proof.
  unfold flash.pop_in.
  destruct (OrderedDict.get t' d) as [tbl|] eqn:Ht'.
  - destruct (decide (t' = t)) as [->|Hne].
    + rewrite table_of_set. unfold flash.table_of. rewrite Ht'.
      change (default [] (Some tbl)) with tbl.
      destruct (decide (k = key)) as [->|Hk].
      * rewrite od_get_pop_eq. destruct (decide (t = t /\ key = key)); tauto.
      * rewrite od_get_pop_ne by assumption.
        destruct (decide (t = t /\ k = key)); tauto.
    + rewrite table_of_set_ne by assumption.
      destruct (decide (t' = t /\ k = key)); tauto.
  - destruct (decide (t' = t /\ k = key)) as [[-> ->]|]; [|reflexivity].
    unfold flash.table_of. rewrite Ht'. reflexivity.
Qed.



Lemma delete_default_table k t' s :
  flash.default_table (flash.delete k (Some t') s).2 = flash.default_table s.
Proof. rewrite delete_state. destruct s. reflexivity. Qed.

Lemma delete_gone t key k t' s : gone t key s -> gone t key (flash.delete k (Some t') s).2.
Proof.
  intros [Hm Hc]. rewrite delete_state. destruct s. unfold gone. flash_cbn.
  rewrite !table_of_pop_in.
  destruct (decide (_ /\ _)); split; auto.
Qed.

Lemma delete_held t key item k t' s :
  held t key item s ->
  held t key item (flash.delete k (Some t') s).2 \/ gone t key (flash.delete k (Some t') s).2.
Proof.
  intros Hm. rewrite delete_state. destruct s. unfold held, gone in *. flash_cbn.
  rewrite !table_of_pop_in.
  destruct (decide (_ /\ _)); [right; split; reflexivity | left; assumption].
Qed.

Lemma delete_hits t key t' s :
  py_or (Some t') (flash.default_table s) = t ->
  gone t key (flash.delete key (Some t') s).2.
Proof.
  intros Ht. rewrite delete_state. destruct s. unfold gone. flash_cbn.
  rewrite Ht, !table_of_pop_in.
  destruct (decide (t = t /\ key = key)); [split; reflexivity | tauto].
Qed.

Lemma delete_all_default_table t' ks : forall s,
  flash.default_table (for_each ks (fun k => flash.delete k (Some t')) s).2
  = flash.default_table s.
Proof. intros s. apply for_each_preserves. intros. apply delete_default_table. Qed.

Lemma delete_all_gone t key t' ks : forall s,
  gone t key s -> gone t key (for_each ks (fun k => flash.delete k (Some t')) s).2.
Proof.
  induction ks as [|k ks IH]; intros s Hg; [assumption|].
  cbn [for_each]. unfold bind.
  pose proof (delete_gone t key k t' s Hg) as Hd.
  rewrite delete_state in *. apply IH. exact Hd.
Qed.

Lemma delete_all_held t key item t' ks : forall s,
  held t key item s ->
  let s' := (for_each ks (fun k => flash.delete k (Some t')) s).2 in
  (held t key item s' \/ gone t key s') /\
  (key ∈ ks -> py_or (Some t') (flash.default_table s) = t -> gone t key s').
Proof.
  induction ks as [|k ks IH]; intros s Hh; cbv zeta.
  - split; [left; assumption|]. intros Hin. apply elem_of_nil in Hin. contradiction.
  - cbn [for_each]. unfold bind.
    pose proof (delete_held t key item k t' s Hh) as Hstep.
    pose proof (delete_default_table k t' s) as Hdt.
    pose proof (delete_hits t key t' s) as Hhit.
    destruct (flash.delete k (Some t') s) as [[[]|e] s1] eqn:Hdel;
      [|rewrite delete_state in Hdel; discriminate].
    cbn [snd] in *.
    destruct Hstep as [Hh1|Hg1].
    + destruct (IH s1 Hh1) as [IH1 IH2]. split; [exact IH1|].
      intros Hin Ht. apply elem_of_cons in Hin as [->|Hin].
      * apply delete_all_gone. rewrite Hdel in Hhit. apply Hhit. assumption.
      * apply IH2; [assumption|]. rewrite Hdt. assumption.
    + pose proof (delete_all_gone t key t' ks s1 Hg1) as Hg.
      split; [right; exact Hg | intros _ _; exact Hg].
Qed.

Lemma expired_keys_elem now table_dict ks key item :
  flash.expired_keys now table_dict = Ok ks ->
  OrderedDict.get key table_dict = Some item ->
  flash.ttl_expired now item = Ok true ->
  key ∈ ks.
Proof.
  revert ks. induction table_dict as [|[k v] rest IH]; intros ks Hks Hget Hexp;
    [discriminate|].
  cbn [flash.expired_keys] in Hks. cbn [OrderedDict.get] in Hget.
  destruct (flash.ttl_expired now v) as [b|] eqn:Hv; [|discriminate].
  destruct (flash.expired_keys now rest) as [ks'|] eqn:Hrest; [|discriminate].
  injection Hks as <-.
  destruct (decide (k = key)) as [->|Hne].
  - injection Hget as ->. rewrite Hexp in Hv. injection Hv as <-.
    apply elem_of_cons. left. reflexivity.
  - specialize (IH ks' eq_refl Hget Hexp).
    destruct b; [apply elem_of_cons; right|]; assumption.
Qed.


Lemma sweep_table_default_table now t_name s :
  flash.default_table (flash.sweep_table now t_name s).2 = flash.default_table s.
Proof.
  unfold flash.sweep_table, bind, gets, lift.
  destruct (flash.expired_keys now _); [|reflexivity].
  apply delete_all_default_table.
Qed.

Lemma sweep_table_gone now t_name t key s :
  gone t key s -> gone t key (flash.sweep_table now t_name s).2.
Proof.
  intros Hg. unfold flash.sweep_table, bind, gets, lift.
  destruct (flash.expired_keys now _); [|assumption].
  apply delete_all_gone. assumption.
Qed.

Lemma sweep_table_held now t_name t key item s :
  held t key item s ->
  flash.ttl_expired now item = Ok true ->
  let r := flash.sweep_table now t_name s in
  (held t key item r.2 \/ gone t key r.2) /\
  (r.1 = Ok tt -> t_name = t -> py_or (Some t) (flash.default_table s) = t ->
   gone t key r.2).
Proof.
  intros Hh Hexp. cbv zeta. unfold flash.sweep_table, bind, gets, lift.
  destruct (flash.expired_keys now _) as [ks|e] eqn:Hks; cbn [fst snd].
  - destruct (delete_all_held t key item t_name ks s Hh) as [D1 D2].
    split; [exact D1|]. intros _ -> Ht. apply D2; [|assumption].
    apply (expired_keys_elem now _ ks key item Hks Hh Hexp).
  - split; [left; assumption | discriminate].
Qed.

Lemma sweep_tables_gone now t key tables : forall s,
  gone t key s -> gone t key (for_each tables (flash.sweep_table now) s).2.
Proof.
  induction tables as [|t_name tables IH]; intros s Hg; [assumption|].
  cbn [for_each]. unfold bind.
  pose proof (sweep_table_gone now t_name t key s Hg) as Hg1.
  destruct (flash.sweep_table now t_name s) as [[[]|e] s1]; cbn [snd] in *;
    [apply IH|]; assumption.
Qed.

Lemma sweep_tables now t key item tables : forall s,
  held t key item s ->
  flash.ttl_expired now item = Ok true ->
  py_or (Some t) (flash.default_table s) = t ->
  let r := for_each tables (flash.sweep_table now) s in
  (held t key item r.2 \/ gone t key r.2) /\
  (r.1 = Ok tt -> t ∈ tables -> gone t key r.2).
Proof.
  induction tables as [|t_name tables IH]; intros s Hh Hexp Ht; cbv zeta.
  - split; [left; assumption|]. intros _ Hin. apply elem_of_nil in Hin. contradiction.
  - cbn [for_each]. unfold bind.
    pose proof (sweep_table_default_table now t_name s) as Hdt.
    destruct (sweep_table_held now t_name t key item s Hh Hexp) as [Hstep Hhit].
    destruct (flash.sweep_table now t_name s) as [[[]|e] s1]; cbn [fst snd] in *;
      [|split; [assumption | discriminate]].
    rewrite <- Hdt in Ht.
    destruct Hstep as [Hh1|Hg1].
    + destruct (IH s1 Hh1 Hexp Ht) as [IH1 IH2]. split; [exact IH1|].
      intros Hok Hin. apply elem_of_cons in Hin as [->|Hin]; [|auto].
      rewrite Hdt in Ht.
      apply sweep_tables_gone. apply Hhit; auto.
    + pose proof (sweep_tables_gone now t key tables s1 Hg1) as Hg.
      split; [right; exact Hg | intros _ _; exact Hg].
Qed.
End flash_ttl.

Section flash_ttl_claims.
Context {B : Type} `{Backend B}.
Implicit Types (s : flash.state B).

Lemma ttl_monitor_step_sweep now s :
  flash.ttl_monitor_step now s
  = for_each (OrderedDict.keys (flash.memory s)) (flash.sweep_table now) s.
Proof. reflexivity. Qed.

(** Whatever [get_value] returns is the default or the content of an
    entry, resident or just loaded from the backend, that has not expired. *)
Lemma get_value_never_expired s key table dflt now v s' :
  let t := py_or table (flash.default_table s) in
  flash.get_value key table dflt now s = (Ok v, s') ->
  v = dflt \/
  exists item,
    (OrderedDict.get key (flash.table_of t (flash.memory s)) = Some item \/
     exists raw b', db_get_value key t (flash.db s) = (Ok raw, b') /\
                    item = flash.as_wrapper raw) /\
    flash.ttl_expired now item = Ok false /\
    flash.unwrap item = Ok v.
Proof.
  intros t. unfold flash.get_value.
  unfold bind at 1. unfold gets at 1. fold t.
  unfold bind at 1. unfold modify at 1.
  set (s0 := flash.with_memory (flash.ensure t []) s).
  unfold bind at 1. unfold gets at 1.
  replace (flash.table_of t (flash.memory s0)) with (flash.table_of t (flash.memory s))
    by (subst s0; destruct s; flash_cbn; rewrite table_of_ensure; reflexivity).
  assert (Hdb0 : flash.db s0 = flash.db s) by (destruct s; reflexivity).
  (* the second half of the method, on the entry [item] that was resolved *)
  assert (Htail : forall item s1,
    (OrderedDict.get key (flash.table_of t (flash.memory s)) = Some item \/
     exists raw b', db_get_value key t (flash.db s) = (Ok raw, b') /\
                    item = flash.as_wrapper raw) ->
    bind (lift (flash.ttl_expired now item))
      (fun expired : bool =>
         if expired then bind (flash.delete key (Some t)) (fun _ => ret dflt)
         else bind (flash.move_to_end t key) (fun _ => lift (flash.unwrap item))) s1
    = (Ok v, s') ->
    v = dflt \/
    exists item,
      (OrderedDict.get key (flash.table_of t (flash.memory s)) = Some item \/
       exists raw b', db_get_value key t (flash.db s) = (Ok raw, b') /\
                      item = flash.as_wrapper raw) /\
      flash.ttl_expired now item = Ok false /\
      flash.unwrap item = Ok v).
  { intros item s1 Hres. unfold bind at 1. unfold lift at 1.
    destruct (flash.ttl_expired now item) as [[|]|e] eqn:Httl; [| |discriminate].
    - unfold bind. rewrite delete_state. unfold ret. intros [= <- _]. left. reflexivity.
    - unfold bind. destruct (flash.move_to_end t key s1) as [[[]|e] s2]; [|discriminate].
      unfold lift. intros [= Hv _]. right. exists item. auto. }
  assert (Hmiss :
    bind
      (except_Exception
         (bind (flash.backend (db_get_value key t)) (fun raw =>
            bind (modify (flash.with_memory (flash.store_in t key (flash.as_wrapper raw))))
              (fun _ => bind (flash._manage_memory t)
                 (fun _ => ret (Some (flash.as_wrapper raw))))))
         (ret None))
      (fun loaded : option value =>
         match loaded with
         | Some item =>
             bind (lift (flash.ttl_expired now item))
               (fun expired : bool =>
                  if expired then bind (flash.delete key (Some t)) (fun _ => ret dflt)
                  else bind (flash.move_to_end t key) (fun _ => lift (flash.unwrap item)))
         | None => ret dflt
         end) s0 = (Ok v, s') ->
    v = dflt \/
    exists item,
      (OrderedDict.get key (flash.table_of t (flash.memory s)) = Some item \/
       exists raw b', db_get_value key t (flash.db s) = (Ok raw, b') /\
                      item = flash.as_wrapper raw) /\
      flash.ttl_expired now item = Ok false /\
      flash.unwrap item = Ok v).
  { unfold bind at 1. unfold except_Exception.
    unfold bind at 1. unfold flash.backend. rewrite Hdb0.
    destruct (db_get_value key t (flash.db s)) as [[raw|e] b'] eqn:Hraw.
    - unfold bind at 1. unfold modify at 1.
      unfold bind at 1.
      destruct (flash._manage_memory t _) as [[[]|e] s2].
      + unfold ret at 1. apply Htail. right. eauto.
      + unfold ret. intros [= <- _]. left. reflexivity.
    - unfold ret. intros [= <- _]. left. reflexivity. }
  destruct (OrderedDict.get key (flash.table_of t (flash.memory s))) as [item|] eqn:Hitem;
    [|exact Hmiss].
  destruct item; try exact Hmiss;
    (unfold bind at 1; unfold ret at 1; apply Htail; left; reflexivity).
Qed.

(** C5, as amended. A key written with a TTL of [T] ticks, [T] other
    than zero, and still resident is read back until [T] ticks have
    passed; later the lazy check of a get deletes the entry and answers
with the default; a sweep that completes after that time discards the
entry from the recency map and from the dirty map; and a get never
returns the content of an entry whose expiry is in the past, be the
entry resident or loaded from the backend. *)
Theorem ttl_expiry (s : flash.state B) (key : string) (v v' : value)
    (table : option string) (T now0 now1 : Z) (dflt : value) :
  T <> 0 ->
  flash.run_middleware (flash._middleware s) key v = Ok v' ->
  1 <= flash.max_keys s ->
  let t := py_or table (flash.default_table s) in
  let s1 := (flash.set_value key v table (Some T) now0 s).2 in
  (now1 <= now0 + T -> (flash.get_value key table dflt now1 s1).1 = Ok v') /\
  (now0 + T < now1 ->
   let r := flash.get_value key table dflt now1 s1 in
   r.1 = Ok dflt /\ gone t key r.2 /\
   key ∈ default ∅ (OrderedDict.get t (flash._deleted r.2))) /\
  (now0 + T < now1 ->
   let r := flash.ttl_monitor_step now1 s1 in
   r.1 = Ok tt -> gone t key r.2) /\
  (forall s0 k tb d now x s',
     flash.get_value k tb d now s0 = (Ok x, s') ->
     x = d \/
     exists item,
       (OrderedDict.get k (flash.table_of (py_or tb (flash.default_table s0))
                             (flash.memory s0)) = Some item \/
        exists raw b', db_get_value k (py_or tb (flash.default_table s0)) (flash.db s0)
                       = (Ok raw, b') /\ item = flash.as_wrapper raw) /\
       flash.ttl_expired now item = Ok false /\
       flash.unwrap item = Ok x).
Proof.
  intros HT Hmw Hmax t s1.
  destruct (set_value_resident s key v table (Some T) now0 v' Hmw Hmax)
    as (Hk & Hd & tbl & Ht & Hitem).
  fold s1 in Hk, Hd, Ht. fold t in Ht.
  assert (Hexp : flash.expiry_of now0 (Some T) = Some (now0 + T)).
  { unfold flash.expiry_of. destruct (decide (T = 0)); [contradiction | reflexivity]. }
  rewrite Hexp in Hitem.
  assert (Ht1 : OrderedDict.get (py_or table (flash.default_table s1)) (flash.memory s1)
                = Some tbl) by (rewrite Hd; exact Ht).
  repeat split.
  - intros Hnow.
    apply (read_back s1 s1 key table dflt now1 v' _ tbl eq_refl Ht1 Hitem).
    intros x [= <-]. assumption.
  - rewrite (get_value_expired s1 key table dflt now1 tbl _ Ht1 Hitem).
    + reflexivity.
    + unfold flash.wrapper. discriminate.
    + apply wrapper_expired. assumption.
  - rewrite (get_value_expired s1 key table dflt now1 tbl _ Ht1 Hitem).
    + rewrite Hd. fold t. destruct s1. flash_cbn.
      rewrite table_of_pop_in. destruct (decide (t = t /\ key = key)); tauto.
    + unfold flash.wrapper. discriminate.
    + apply wrapper_expired. assumption.
  - rewrite (get_value_expired s1 key table dflt now1 tbl _ Ht1 Hitem).
    + rewrite Hd. fold t. destruct s1. flash_cbn.
      rewrite table_of_pop_in. destruct (decide (t = t /\ key = key)); tauto.
    + unfold flash.wrapper. discriminate.
    + apply wrapper_expired. assumption.
  - rewrite (get_value_expired s1 key table dflt now1 tbl _ Ht1 Hitem).
    + rewrite Hd. fold t. destruct s1. flash_cbn.
      rewrite od_get_set_eq. cbv beta iota delta [from_option id].
      apply elem_of_union_r, elem_of_singleton. reflexivity.
    + unfold flash.wrapper. discriminate.
    + apply wrapper_expired. assumption.
  - rewrite ttl_monitor_step_sweep in *.
    assert (Hheld : held t key (flash.wrapper v' (Some (now0 + T))) s1).
    { unfold held, flash.table_of. rewrite Ht. exact Hitem. }
    assert (Hpy : py_or (Some t) (flash.default_table s1) = t).
    { rewrite Hd. apply py_or_idem. }
    destruct (sweep_tables now1 t key _ (OrderedDict.keys (flash.memory s1)) s1
                Hheld (wrapper_expired v' _ now1 H0) Hpy) as [_ Hsw].
    apply Hsw; [assumption|]. eapply od_get_Some_keys. exact Ht.
  - rewrite ttl_monitor_step_sweep in *.
    assert (Hheld : held t key (flash.wrapper v' (Some (now0 + T))) s1).
    { unfold held, flash.table_of. rewrite Ht. exact Hitem. }
    assert (Hpy : py_or (Some t) (flash.default_table s1) = t).
    { rewrite Hd. apply py_or_idem. }
    destruct (sweep_tables now1 t key _ (OrderedDict.keys (flash.memory s1)) s1
                Hheld (wrapper_expired v' _ now1 H0) Hpy) as [_ Hsw].
    apply Hsw; [assumption|]. eapply od_get_Some_keys. exact Ht.
  - intros s0 k tb d now x s'. apply get_value_never_expired.
Qed.
End flash_ttl_claims.

(** ** Eviction *)


Lemma filter_ne_fresh (k : string) (l : list string) :
  k ∉ l -> filter (fun k' => k' <> k) l = l.
Proof.
  induction l as [|x l IH]; intros Hnin; [reflexivity|].
  apply not_elem_of_cons in Hnin as [Hne Hnin].
  rewrite filter_cons. destruct (decide (x <> k)) as [|Hn]; [|exfalso; apply Hn; congruence].
  rewrite IH by assumption. reflexivity.
Qed.

Lemma touch_keys key w tbl :
  OrderedDict.keys (touch key w tbl)
  = filter (fun k' => k' <> key) (OrderedDict.keys tbl) ++ [key].
Proof.
  unfold touch, OrderedDict.keys. rewrite fmap_app.
  change ((OrderedDict.pop key tbl).*1) with (OrderedDict.keys (OrderedDict.pop key tbl)).
  rewrite od_keys_pop. reflexivity.
Qed.

Lemma bounded_keys max_keys tbl :
  OrderedDict.keys (bounded max_keys tbl)
  = if max_keys <? Z.of_nat (length (OrderedDict.keys tbl))
    then tail (OrderedDict.keys tbl) else OrderedDict.keys tbl.
Proof.
  unfold bounded, OrderedDict.keys. rewrite length_fmap.
  destruct (max_keys <? _); [|reflexivity]. destruct tbl; reflexivity.
Qed.

(** The keys of a table that keeps the last [N] keys touched, after one
    more fresh key. *)
Lemma window_step (N : nat) (pre : list string) (k : string) :
  (if Z.of_nat N <? Z.of_nat (length (drop (length pre - N) pre ++ [k]))
   then tail (drop (length pre - N) pre ++ [k])
   else drop (length pre - N) pre ++ [k])
  = drop (length (pre ++ [k]) - N) (pre ++ [k]).
Proof.
  rewrite !length_app, length_drop. cbn [length].
  destruct (Z.of_nat N <? _) eqn:E.
  - apply Z.ltb_lt in E.
    assert (Hge : (N <= length pre)%nat) by lia.
    destruct N as [|n].
    + rewrite Nat.sub_0_r, drop_all. cbn [app tail].
      rewrite drop_ge; [reflexivity | rewrite length_app; cbn [length]; lia].
    + replace (length pre + 1 - S n)%nat with (S (length pre - S n)) by lia.
      rewrite drop_app_le by lia.
      destruct (drop (length pre - S n) pre) as [|x l] eqn:Hd.
      * assert (Hlen : length (drop (length pre - S n) pre) = 0%nat)
          by (rewrite Hd; reflexivity).
        rewrite length_drop in Hlen. lia.
      * cbn [tail app].
        change (S (length pre - S n)) with (1 + (length pre - S n))%nat.
        rewrite Nat.add_comm, <- drop_drop, Hd. reflexivity.
  - apply Z.ltb_ge in E.
    replace (length pre - N)%nat with 0%nat by lia.
    replace (length pre + 1 - N)%nat with 0%nat by lia.
    reflexivity.
Qed.

Section flash_lru.
Context {B : Type} `{Backend B}.
Implicit Types (s : flash.state B).

Lemma set_value_keys s key v table ttl now v' :
  flash.run_middleware (flash._middleware s) key v = Ok v' ->
  let t := py_or table (flash.default_table s) in
  let s1 := (flash.set_value key v table ttl now s).2 in
  write_view s1
  = (OrderedDict.set t
       (bounded (flash.max_keys s)
          (touch key (flash.wrapper v' (flash.expiry_of now ttl))
             (flash.table_of t (flash.memory s)))) (flash.memory s),
     flash.max_keys s, flash.default_table s, flash._middleware s).
Proof.
  intros Hmw t s1.
  pose proof (set_value_state s key v table ttl now v' Hmw) as Hst.
  cbv zeta in Hst. fold t s1 in Hst.
  rewrite (write_view_erase _ _ Hst). destruct s. reflexivity.
Qed.

Lemma set_values_window (N : nat) table writes : forall s pre,
  flash.max_keys s = Z.of_nat N ->
  OrderedDict.keys (flash.table_of (py_or table (flash.default_table s)) (flash.memory s))
    = drop (length pre - N) pre ->
  NoDup (pre ++ writes.*1.*1.*1) ->
  Forall (fun w => succeeds (flash._middleware s) w.1.1) writes ->
  let s' := set_values writes table s in
  OrderedDict.keys (flash.table_of (py_or table (flash.default_table s)) (flash.memory s'))
    = drop (length (pre ++ writes.*1.*1.*1) - N) (pre ++ writes.*1.*1.*1).
Proof.
  induction writes as [|[[[k v] ttl] now] writes IH]; intros s pre Hmax Hkeys Hnd Hok;
    cbv zeta.
  - cbn [fmap list_fmap]. rewrite app_nil_r. exact Hkeys.
  - rewrite !fmap_cons in *. cbn [fst snd] in *.
    apply Forall_cons in Hok as [[v' Hmw] Hok]. cbn [fst snd] in Hmw.
    unfold set_values. cbn [fold_left fst snd].
    pose proof (set_value_keys s k v table ttl now v' Hmw) as Hview.
    cbv zeta in Hview.
    set (s1 := (flash.set_value k v table ttl now s).2) in *.
    unfold write_view in Hview. injection Hview as Hm Hk Hd Hw.
    set (t := py_or table (flash.default_table s)) in *.
    assert (Hfresh : k ∉ pre).
    { apply NoDup_app in Hnd as (_ & Hdisj & _). intros Hin.
      apply (Hdisj k Hin). apply elem_of_cons. left. reflexivity. }
    assert (Hkeys1 :
      OrderedDict.keys (flash.table_of (py_or table (flash.default_table s1))
                          (flash.memory s1))
      = drop (length (pre ++ [k]) - N) (pre ++ [k])).
    { rewrite Hd. fold t. rewrite Hm, table_of_set, bounded_keys, touch_keys, Hkeys.
      rewrite filter_ne_fresh.
      - rewrite Hmax. apply window_step.
      - intros Hin. apply Hfresh. eapply subseteq_drop. exact Hin. }
    assert (Hnd1 : NoDup ((pre ++ [k]) ++ writes.*1.*1.*1)).
    { rewrite <- app_assoc. exact Hnd. }
    rewrite <- Hw in Hok. rewrite <- Hk in Hmax.
    pose proof (IH s1 (pre ++ [k]) Hmax Hkeys1 Hnd1 Hok) as IHs.
    cbv zeta in IHs. rewrite Hd in IHs. fold t in IHs.
    rewrite <- app_assoc in IHs. exact IHs.
Qed.

Lemma touch_all_keys ws : forall tbl,
  NoDup (OrderedDict.keys tbl ++ ws.*1) ->
  OrderedDict.keys (touch_all ws tbl) = OrderedDict.keys tbl ++ ws.*1.
Proof.
  induction ws as [|[k w] ws IH]; intros tbl Hnd.
  - cbn [fmap list_fmap]. rewrite app_nil_r. reflexivity.
  - rewrite fmap_cons in *. cbn [fst] in *.
    unfold touch_all. cbn [fold_left fst snd].
    change (fold_left _ ws ?x) with (touch_all ws x).
    assert (Hfresh : k ∉ OrderedDict.keys tbl).
    { apply NoDup_app in Hnd as (_ & Hdisj & _). intros Hin.
      apply (Hdisj k Hin). apply elem_of_cons. left. reflexivity. }
    assert (Hk1 : OrderedDict.keys (touch k w tbl) = OrderedDict.keys tbl ++ [k]).
    { rewrite touch_keys, filter_ne_fresh by assumption. reflexivity. }
    rewrite IH; rewrite Hk1, <- app_assoc; [reflexivity | exact Hnd].
Qed.

(** C6. With [max_keys = N], writing [N + 1] distinct keys to a table
    whose recency map is empty, one [set_value] after the other or all in
    one [set_multiple], leaves exactly [N] keys in the recency map: all
    but the first one written, which is the least recently touched. *)
Theorem lru_eviction (s : flash.state B) (N : nat) (table : option string) :
  let t := py_or table (flash.default_table s) in
  flash.max_keys s = Z.of_nat N ->
  flash.table_of t (flash.memory s) = [] ->
  (forall writes,
     length writes = S N ->
     NoDup writes.*1.*1.*1 ->
     Forall (fun w => succeeds (flash._middleware s) w.1.1) writes ->
     let resident :=
       OrderedDict.keys (flash.table_of t (flash.memory (set_values writes table s))) in
     resident = tail writes.*1.*1.*1 /\
     length resident = N /\
     (forall k0, head writes.*1.*1.*1 = Some k0 -> k0 ∉ resident)) /\
  (forall mapping ttl now,
     length mapping = S N ->
     NoDup mapping.*1 ->
     Forall (succeeds (flash._middleware s)) mapping ->
     let r := flash.set_multiple mapping table ttl now s in
     let resident := OrderedDict.keys (flash.table_of t (flash.memory r.2)) in
     r.1 = Ok tt /\
     resident = tail mapping.*1 /\
     length resident = N /\
     (forall k0, head mapping.*1 = Some k0 -> k0 ∉ resident)).
Proof.
  intros t Hmax Hempty.
  assert (Htail : forall ks : list string,
            length ks = S N -> NoDup ks ->
            drop (length ks - N) ks = tail ks /\
            length (tail ks) = N /\
            (forall k0, head ks = Some k0 -> k0 ∉ tail ks)).
  { intros ks Hlen Hnd. rewrite Hlen.
    replace (S N - N)%nat with 1%nat by lia.
    destruct ks as [|k0 ks]; [discriminate|].
    cbn [length] in Hlen. apply NoDup_cons in Hnd as [Hfresh _].
    repeat split; [cbn; lia|]. intros k [= <-]. exact Hfresh. }
  split.
  - intros writes Hlen Hnd Hok.
    pose proof (set_values_window N table writes s [] Hmax) as Hwin.
    cbv zeta in Hwin. fold t in Hwin. rewrite Hempty in Hwin.
    specialize (Hwin eq_refl Hnd Hok). cbn [app] in Hwin.
    assert (Hl : length writes.*1.*1.*1 = S N) by (rewrite !length_fmap; exact Hlen).
    destruct (Htail _ Hl Hnd) as (E1 & E2 & E3).
    cbv zeta. rewrite Hwin, E1. auto.
  - intros mapping ttl now Hlen Hnd Hok.
    destruct (set_multiple_view s mapping table ttl now Hok) as (_ & _ & Hev).
    fold t in Hev. rewrite Hempty, Hmax, evict_drop in Hev.
    destruct Hev as [Hr Hmem].
    cbv zeta. rewrite Hmem, table_of_set.
    set (ws := wrap_all (flash._middleware s) (flash.expiry_of now ttl) mapping) in *.
    assert (HT : OrderedDict.keys (touch_all ws []) = mapping.*1).
    { rewrite touch_all_keys; subst ws; cbn [OrderedDict.keys fmap list_fmap app];
        rewrite wrap_all_keys; [reflexivity | exact Hnd]. }
    assert (Hl : length mapping.*1 = S N) by (rewrite length_fmap; exact Hlen).
    destruct (Htail _ Hl Hnd) as (E1 & E2 & E3).
    assert (Hres : OrderedDict.keys (drop (length (touch_all ws []) - N) (touch_all ws []))
                   = tail mapping.*1).
    { unfold OrderedDict.keys in *. rewrite fmap_drop, HT.
      replace (length (touch_all ws [])) with (length mapping.*1)
        by (rewrite <- HT, length_fmap; reflexivity).
      exact E1. }
    rewrite Hres. auto.
Qed.
End flash_lru.

Lemma lru_eviction_witness :
  let s := flash.init light0 "storage" 2 in
  let writes := [("a", VInt 1, None, 10); ("b", VInt 2, None, 11); ("c", VInt 3, None, 12)] in
  OrderedDict.keys (flash.table_of "storage" (flash.memory (set_values writes None s)))
  = ["b"; "c"].
Proof.
  intros s writes.
  refine (proj1 (proj1 (lru_eviction s 2 None _ _) writes _ _ _)).
  - reflexivity.
  - reflexivity.
  - reflexivity.
  - apply (bool_decide_unpack _). vm_compute. reflexivity.
  - repeat (apply Forall_cons; split; [eexists; reflexivity|]). apply Forall_nil_2.
Defined.

Lemma ttl_expiry_witness :
  let s := flash.init light0 "storage" 10 in
  let s1 := (flash.set_value "k" (VInt 1) None (Some 60) 100 s).2 in
  (flash.get_value "k" None (VInt 0) 161 s1).1 = Ok (VInt 0).
Proof.
  intros s.
  refine (proj1 (proj1 (proj2
    (ttl_expiry s "k" (VInt 1) (VInt 1) None 60 100 161 (VInt 0) _ _ _)) _)).
  - discriminate.
  - reflexivity.
  - simpl. lia.
  - lia.
Defined.

(** C5, counterexample. A TTL of zero is no TTL: the wrapper gets no
    expiry, and a get issued a hundred ticks after the write still returns
    the value instead of the default. *)
Lemma zero_ttl_never_expires :
  let s := flash.init light0 "storage" 10 in
  let s1 := (flash.set_value "k" (VInt 1) None (Some 0) 100 s).2 in
  flash.memory s1 = [("storage", [("k", flash.wrapper (VInt 1) None)])] /\
  (flash.get_value "k" None (VInt 0) 200 s1).1 = Ok (VInt 1).
Proof. vm_compute. split; reflexivity. Qed.

(** ** Where the code departs from its contract *)

(** C2. A key that was flushed to the single-file backend and then deleted
    through the RAM cache tier is still reported by [check] and still read
    by [get_value] until the next flush: both fall through to the backend
    and neither consults the pending-deletion set, which [list_keys] and
    [get_all] do.  After the flush the get answers [None], not the default,
    and the check that follows answers true. *)
Theorem deleted_key_still_visible :
  let s1 := (flash.set_value "k" (VInt 1) None None 100
               (flash.init light0 "storage" 10)).2 in
  let s2 := (flash.flush s1).2 in
  let s3 := (flash.delete "k" None s2).2 in
  (flash.flush s1).1 = Ok true /\
  flash._deleted s3 = [("storage", {["k"]})] /\
  (flash.check "k" None s3).1 = Ok true /\
  (flash.get_value "k" None (VInt 0) 101 s3).1 = Ok (VInt 1) /\
  (let s4 := (flash.flush s3).2 in
   let r := flash.get_value "k" None (VInt 0) 102 s4 in
   (flash.flush s3).1 = Ok true /\
   r.1 = Ok VNone /\
   (flash.check "k" None r.2).1 = Ok true).
Proof. vm_compute. repeat split; reflexivity. Qed.

(** C7. A get of a key that neither the recency map nor the backend holds
    returns [None] and not the default of the caller: the backends answer
    [None] for an absent key instead of raising, so the [except] branch
    that returns the default is not taken. *)
Theorem absent_key_ignores_default :
  (flash.get_value "missing" None (VInt 7) 0 (flash.init light0 "storage" 10)).1
    = Ok VNone /\
  (flash.get_value (H := MasterLight_backend (fun _ => 0)) "missing" None (VInt 7) 0
     (flash.init (MasterLight.init "storage" ∅ ∅) "storage" 10)).1
    = Ok VNone.
Proof. vm_compute. split; reflexivity. Qed.



(** C8. When the first watcher of a key raises, [set_value] has stored
    the value and marked the key dirty, but the failure reaches the caller
    and the second watcher is never called; [set_multiple], which guards
    each call, completes and calls both. *)
Theorem set_value_watcher_failure_propagates :
  (let r := flash.set_value "k" (VInt 5) None None 0 watched in
   r.1 = Raise (CallbackError 1) /\
   flash.memory r.2 = [("storage", [("k", flash.wrapper (VInt 5) None)])] /\
   flash._cache r.2 = [("storage", [("k", flash.wrapper (VInt 5) None)])] /\
   flash.invoked r.2 = [(1%nat, VInt 5)]) /\
  (let r := flash.set_multiple [("k", VInt 5)] None None 0 watched in
   r.1 = Ok tt /\
   flash.memory r.2 = [("storage", [("k", flash.wrapper (VInt 5) None)])] /\
   flash._cache r.2 = [("storage", [("k", flash.wrapper (VInt 5) None)])] /\
   flash.invoked r.2 = [(1%nat, VInt 5); (2%nat, VInt 5)]).
Proof. vm_compute. repeat split; reflexivity. Qed.

(** ** The sharded backend *)

Section relations.
Context {S : Type} (R : S -> S -> Prop).
Hypothesis R_refl : forall s, R s s.
Hypothesis R_trans : forall s1 s2 s3, R s1 s2 -> R s2 s3 -> R s1 s3.

Lemma bind_related {A C} (m : M S A) (k : A -> M S C) :
  (forall s, R s (m s).2) ->
  (forall a s, R s (k a s).2) ->
  forall s, R s (bind m k s).2.
Proof.
  intros Hm Hk s. unfold bind. specialize (Hm s).
  destruct (m s) as [[a|e] s1]; cbn [snd] in *; [|assumption].
  eapply R_trans; [exact Hm | apply Hk].
Qed.

Lemma for_each_related {A} (body : A -> M S unit) l :
  (forall x s, R s (body x s).2) ->
  forall s, R s (for_each l body s).2.
Proof.
  intros Hbody. induction l as [|x l IH]; intros s; [apply R_refl|].
  cbn [for_each]. apply bind_related; [apply Hbody | intros _; apply IH].
Qed.
End relations.


Section MasterLight_facts.
Context `{Libs}.
Implicit Types (s : MasterLight.state) (p : string * string).






Lemma quiet_refl s : quiet s s.
Proof. unfold quiet. auto. Qed.

Lemma quiet_trans s1 s2 s3 : quiet s1 s2 -> quiet s2 s3 -> quiet s1 s3.
Proof. unfold quiet. intros (?&?&?&?) (?&?&?&?). repeat split; try congruence. auto. Qed.

Lemma routing_quiet s s' : routing s' = routing s -> quiet s s'.
Proof.
  unfold routing, quiet, coherent. intros [= Hi Hm Ha Hd].
  rewrite Hi, Hm. auto.
Qed.

Lemma max_shard_id_bound (i : gmap (string * string) Z) p sid :
  i !! p = Some sid -> sid <= MasterLight._get_last_shard_id i.
Proof.
  intros Hp. unfold MasterLight._get_last_shard_id, MasterLight.max_shard_id.
  assert (Hin : sid ∈ (map_to_list i).*2).
  { apply list_elem_of_fmap. exists (p, sid). split; [reflexivity|].
    apply elem_of_map_to_list. assumption. }
  enough (Hmax : exists m,
            foldr (fun sid acc => Some (match acc with
                                        | None => sid
                                        | Some m => Z.max sid m
                                        end)) None (map_to_list i).*2 = Some m /\
            sid <= m) by (destruct Hmax as (m & -> & Hle); exact Hle).
  induction ((map_to_list i).*2) as [|x l IH]; [apply elem_of_nil in Hin; contradiction|].
  cbn [foldr]. apply elem_of_cons in Hin as [->|Hin].
  - eexists. split; [reflexivity|]. destruct (foldr _ None l); lia.
  - destruct (IH Hin) as (m & -> & Hle). eexists. split; [reflexivity|]. lia.
Qed.

Lemma init_wf default_table index shard_files :
  wf (MasterLight.init default_table index shard_files).
Proof.
  split.
  - intros p r Hin. apply elem_of_nil in Hin. contradiction.
  - intros p sid Hp. apply (max_shard_id_bound index p sid Hp).
Qed.
End MasterLight_facts.

Ltac master_cbn :=
  cbv beta iota delta
    [MasterLight.default_table MasterLight.idx MasterLight.lookup_cache
     MasterLight.shards MasterLight.active_shard_id MasterLight.files
     MasterLight.with_idx MasterLight.with_lookup_cache MasterLight.with_shards
     MasterLight.with_active fst snd] in *.

Section MasterLight_steps.
Context `{Libs}.
Variable getsize : Z -> Z.
Implicit Types (s : MasterLight.state) (p : string * string).

(** What a look at the memo returns and leaves. *)
Lemma lookup_spec t k s :
  coherent s ->
  exists s',
    MasterLight._lookup_shard_id t k s = (Ok (MasterLight.idx s !! (t, k)), s') /\
    MasterLight.idx s' = MasterLight.idx s /\
    MasterLight.active_shard_id s' = MasterLight.active_shard_id s /\
    MasterLight.default_table s' = MasterLight.default_table s /\
    MasterLight.shards s' = MasterLight.shards s /\
    (forall x, x ∈ MasterLight.lookup_cache s' ->
               x ∈ MasterLight.lookup_cache s \/ x = ((t, k), MasterLight.idx s !! (t, k))).
Proof.
  intros Hco. unfold MasterLight._lookup_shard_id.
  destruct (OrderedDict.get (t, k) (MasterLight.lookup_cache s)) as [r|] eqn:Hget.
  - pose proof (Hco _ _ (od_get_elem _ _ _ Hget)) as Hr. rewrite Hr.
    eexists. split; [reflexivity|]. destruct s. master_cbn.
    repeat split; try reflexivity.
    intros x Hx. unfold OrderedDict.move_to_end in Hx. rewrite Hget in Hx.
    cbv beta iota delta [from_option id] in Hx.
    apply elem_of_app in Hx as [Hx|Hx].
    + left. eapply od_pop_elem. exact Hx.
    + apply list_elem_of_singleton in Hx. right. rewrite Hx. reflexivity.
  - eexists. split; [reflexivity|]. destruct s. master_cbn.
    repeat split; try reflexivity.
    intros x Hx.
    assert (Hx' : x ∈ OrderedDict.set (t, k) (idx !! (t, k)) lookup_cache).
    { destruct (MasterLight.LOOKUP_CACHE_SIZE <? _); [|exact Hx].
      destruct (OrderedDict.set (t, k) (idx !! (t, k)) lookup_cache);
        [exact Hx | apply elem_of_cons; right; exact Hx]. }
    apply od_set_elem in Hx' as [->|Hx']; [right; reflexivity | left; assumption].
Qed.

Lemma lookup_quiet t k s : quiet s (MasterLight._lookup_shard_id t k s).2.
Proof.
  unfold quiet.
  assert (Hfields :
    MasterLight.idx (MasterLight._lookup_shard_id t k s).2 = MasterLight.idx s /\
    MasterLight.active_shard_id (MasterLight._lookup_shard_id t k s).2
      = MasterLight.active_shard_id s /\
    MasterLight.default_table (MasterLight._lookup_shard_id t k s).2
      = MasterLight.default_table s).
  { unfold MasterLight._lookup_shard_id.
    destruct (OrderedDict.get _ _); destruct s; repeat split; reflexivity. }
  destruct Hfields as (Hi & Ha & Hd). repeat split; try assumption.
  intros Hco. destruct (lookup_spec t k s Hco) as (s' & E & Hi' & _ & _ & _ & Hmemo).
  rewrite E. cbn [snd]. intros p r Hin. rewrite Hi'.
  destruct (Hmemo _ Hin) as [Hold|[= -> ->]]; [apply Hco; assumption | reflexivity].
Qed.

Lemma get_shard_routing sid s :
  routing (MasterLight._get_shard getsize sid s).2 = routing s.
Proof.
  unfold MasterLight._get_shard. destruct (OrderedDict.get sid _); destruct s; reflexivity.
Qed.

Lemma get_shard_ok sid s : exists sh, (MasterLight._get_shard getsize sid s).1 = Ok sh.
Proof. unfold MasterLight._get_shard. destruct (OrderedDict.get sid _); eauto. Qed.

Lemma on_shard_routing {A} sid (body : M MasterLight.Shard A) s :
  routing (MasterLight.on_shard getsize sid body s).2 = routing s.
Proof.
  unfold MasterLight.on_shard, bind.
  pose proof (get_shard_routing sid s) as Hr.
  destruct (MasterLight._get_shard getsize sid s) as [[sh|e] s1]; cbn [snd] in *;
    [|assumption].
  destruct (body sh) as [r sh']. rewrite <- Hr. destruct s1. reflexivity.
Qed.

Lemma on_shard_quiet {A} sid (body : M MasterLight.Shard A) s :
  quiet s (MasterLight.on_shard getsize sid body s).2.
Proof. apply routing_quiet, on_shard_routing. Qed.

Lemma on_shard_ok sid (body : M MasterLight.Shard unit) s :
  (forall sh, (body sh).1 = Ok tt) ->
  (MasterLight.on_shard getsize sid body s).1 = Ok tt.
Proof.
  intros Hbody. unfold MasterLight.on_shard, bind, MasterLight._get_shard.
  destruct (OrderedDict.get sid _) as [sh|].
  - specialize (Hbody sh). destruct (body sh). assumption.
  - specialize (Hbody (MasterLight.open_shard getsize sid s)).
    destruct (body _). assumption.
Qed.

Lemma gets_quiet {A} (g : MasterLight.state -> A) s : quiet s (gets g s).2.
Proof. apply quiet_refl. Qed.

Lemma ret_quiet {A} (a : A) s : quiet s (ret (S:=MasterLight.state) a s).2.
Proof. apply quiet_refl. Qed.

Lemma group_keys_quiet t keys : forall groups s,
  quiet s (MasterLight.group_keys t keys groups s).2.
Proof.
  induction keys as [|k keys IH]; intros groups s; [apply quiet_refl|].
  cbn [MasterLight.group_keys].
  apply (bind_related quiet quiet_trans); [apply lookup_quiet|].
  intros [sid|] s1; apply IH.
Qed.

Lemma group_keys_ok t keys : forall groups s,
  exists g, (MasterLight.group_keys t keys groups s).1 = Ok g.
Proof.
  induction keys as [|k keys IH]; intros groups s; [eexists; reflexivity|].
  cbn [MasterLight.group_keys]. unfold bind.
  destruct (MasterLight._lookup_shard_id t k s) as [[r|e] s1] eqn:E.
  - destruct r; apply IH.
  - unfold MasterLight._lookup_shard_id in E.
    destruct (OrderedDict.get _ _); discriminate.
Qed.

Lemma get_value_quiet key table dflt s :
  quiet s (MasterLight.get_value getsize key table dflt s).2.
Proof.
  revert s. unfold MasterLight.get_value.
  apply (bind_related quiet quiet_trans); [apply gets_quiet|]. intros t.
  apply (bind_related quiet quiet_trans); [apply lookup_quiet|]. intros [sid|] s.
  - apply on_shard_quiet.
  - apply quiet_refl.
Qed.

Lemma get_multiple_quiet keys table s :
  quiet s (MasterLight.get_multiple getsize keys table s).2.
Proof.
  revert s. unfold MasterLight.get_multiple.
  apply (bind_related quiet quiet_trans); [apply gets_quiet|]. intros t.
  apply (bind_related quiet quiet_trans); [apply group_keys_quiet|]. intros groups.
  generalize (@nil (string * value)).
  induction groups as [|[sid skeys] groups IH]; intros results s; [apply quiet_refl|].
  cbn [MasterLight.get_multiple_groups].
  apply (bind_related quiet quiet_trans); [apply on_shard_quiet|].
  intros r. apply IH.
Qed.

Lemma check_quiet key table s : quiet s (MasterLight.check key table s).2.
Proof.
  revert s. unfold MasterLight.check.
  apply (bind_related quiet quiet_trans); [apply gets_quiet|]. intros t.
  apply (bind_related quiet quiet_trans); [apply lookup_quiet|]. intros sid.
  apply ret_quiet.
Qed.

Lemma create_table_quiet name s :
  quiet s (MasterLight.create_table getsize name s).2.
Proof.
  revert s. unfold MasterLight.create_table.
  apply (bind_related quiet quiet_trans); [apply gets_quiet|]. intros a.
  apply (bind_related quiet quiet_trans); [apply on_shard_quiet|]. intros _.
  apply ret_quiet.
Qed.

Lemma flush_quiet clear_cache s : quiet s (MasterLight.flush getsize clear_cache s).2.
Proof.
  revert s. unfold MasterLight.flush.
  apply (bind_related quiet quiet_trans); [apply gets_quiet|]. intros open.
  apply (bind_related quiet quiet_trans); [|intros _; apply ret_quiet].
  apply (for_each_related quiet quiet_refl quiet_trans). intros sid s.
  apply on_shard_quiet.
Qed.

Lemma get_all_quiet table s : quiet s (MasterLight.get_all getsize table s).2.
Proof.
  revert s. unfold MasterLight.get_all.
  apply (bind_related quiet quiet_trans); [apply gets_quiet|]. intros t.
  apply (bind_related quiet quiet_trans); [apply gets_quiet|]. intros on_disk.
  generalize (@nil (string * value)).
  induction on_disk as [|sid todo IH]; intros acc s; [apply quiet_refl|].
  cbn [MasterLight.get_all_files].
  apply (bind_related quiet quiet_trans); [|intros r; apply IH].
  clear. intros s. unfold MasterLight.get_all_shard.
  pose proof (on_shard_quiet sid (MasterLight.sql (Sqlite.select_all t)) s) as Hq.
  destruct (MasterLight.on_shard _ _ _ s) as [[rows|e] s1]; cbn [snd] in *.
  - destruct (MasterLight.decode_rows rows acc) as [[a|[]] ?]; exact Hq.
  - destruct e; exact Hq.
Qed.
End MasterLight_steps.


Lemma StronglySorted_snoc (l : list Z) (x : Z) :
  StronglySorted Z.le l -> Forall (fun y => y <= x) l -> StronglySorted Z.le (l ++ [x]).
Proof.
  induction 1 as [|y l Hs IH Hy]; intros Hall.
  - repeat constructor.
  - apply Forall_cons in Hall as [Hyx Hall]. cbn [app]. constructor.
    + apply IH. assumption.
    + apply Forall_app. split; [assumption | repeat constructor; assumption].
Qed.

Section MasterLight_writes.
Context `{Libs}.
Variable getsize : Z -> Z.
Implicit Types (s : MasterLight.state) (p : string * string).

Lemma assign_spec s :
  exists s',
    MasterLight.assign_shard getsize s = (Ok (MasterLight.active_shard_id s'), s') /\
    MasterLight.idx s' = MasterLight.idx s /\
    MasterLight.lookup_cache s' = [] /\
    MasterLight.default_table s' = MasterLight.default_table s /\
    MasterLight.active_shard_id s'
    = (if MasterLight.MAX_SHARD_SIZE <? recorded_size getsize s
       then MasterLight.active_shard_id s + 1 else MasterLight.active_shard_id s).
Proof.
  exists (MasterLight.assign_shard getsize s).2.
  unfold MasterLight.assign_shard, recorded_size, bind, gets, MasterLight._get_shard.
  destruct (OrderedDict.get (MasterLight.active_shard_id s) (MasterLight.shards s))
    as [sh|].
  - destruct (MasterLight.MAX_SHARD_SIZE <? MasterLight.estimate_size sh) eqn:E;
      destruct s; repeat split; reflexivity.
  - change (MasterLight.estimate_size (MasterLight.open_shard getsize
              (MasterLight.active_shard_id s) s))
      with (getsize (MasterLight.active_shard_id s)).
    destruct (MasterLight.MAX_SHARD_SIZE <? getsize (MasterLight.active_shard_id s)) eqn:E;
      destruct s; repeat split; reflexivity.
Qed.


Lemma route_spec t mapping : forall s0 s groups new_idx,
  routed t s0 s new_idx ->
  exists groups' new_idx' s',
    MasterLight.route getsize t mapping groups new_idx s = (Ok (groups', new_idx'), s') /\
    routed t s0 s' new_idx'.
Proof.
  induction mapping as [|[k v] mapping IH]; intros s0 s groups new_idx HJ.
  - exists groups, new_idx, s. split; [reflexivity | assumption].
  - destruct HJ as (Hi & Hd & Ha & Hco & Hrows & Hnone & Hsorted).
    destruct (lookup_spec t k s Hco) as (s1 & E1 & Hi1 & Ha1 & Hd1 & _ & Hmemo1).
    assert (Hco1 : coherent s1).
    { intros p r Hin. rewrite Hi1.
      destruct (Hmemo1 _ Hin) as [Hold|[= -> ->]]; [apply Hco; assumption | reflexivity]. }
    cbn [MasterLight.route]. unfold bind at 1. rewrite E1.
    destruct (MasterLight.idx s !! (t, k)) as [sid|] eqn:Hfound.
    + unfold bind at 1. unfold ret at 1.
      apply IH. unfold routed.
      split; [congruence|]. split; [congruence|]. split; [lia|].
      split; [exact Hco1|]. split; [rewrite Ha1; exact Hrows|].
      split; [|exact Hsorted].
      intros p Hin. destruct (Hmemo1 _ Hin) as [Hold|Heq]; [auto | congruence].
    + destruct (assign_spec s1) as (s2 & E2 & Hi2 & Hm2 & Hd2 & Ha2).
      unfold bind at 1. unfold bind at 1. rewrite E2. unfold ret at 1.
      assert (Hmono : MasterLight.active_shard_id s1 <= MasterLight.active_shard_id s2).
      { rewrite Ha2. destruct (_ <? _); lia. }
      apply IH. unfold routed.
      split; [congruence|]. split; [congruence|]. split; [lia|].
      split.
      { intros p r Hin. rewrite Hm2 in Hin. apply elem_of_nil in Hin. contradiction. }
      split.
      { apply Forall_app. split.
        - eapply Forall_impl; [exact Hrows|]. cbv beta. intros row (? & ? & ?).
          repeat split; try assumption; lia.
        - apply Forall_cons. split; [|apply Forall_nil_2]. cbn [fst snd].
          repeat split; [congruence | lia | lia]. }
      split.
      { intros p Hin. rewrite Hm2 in Hin. apply elem_of_nil in Hin. contradiction. }
      rewrite fmap_app. apply StronglySorted_snoc; [assumption|].
      apply Forall_fmap. eapply Forall_impl; [exact Hrows|]. cbv beta.
      intros row (_ & _ & Hb). cbn [compose snd]. lia.
Qed.

Lemma insert_index_other new_idx : forall (i : gmap (string * string) Z) p,
  p ∉ new_idx.*1 -> MasterLight.insert_index new_idx i !! p = i !! p.
Proof.
  induction new_idx as [|row new_idx IH]; intros i p Hnin; [reflexivity|].
  rewrite fmap_cons in Hnin. apply not_elem_of_cons in Hnin as [Hne Hnin].
  unfold MasterLight.insert_index. cbn [fold_left].
  change (fold_left _ new_idx ?x) with (MasterLight.insert_index new_idx x).
  rewrite IH by assumption. apply lookup_insert_ne.
  destruct row as [[t k] sid]. cbn [fst snd] in *. congruence.
Qed.

Lemma insert_index_some new_idx : forall (i : gmap (string * string) Z) p sid,
  MasterLight.insert_index new_idx i !! p = Some sid ->
  i !! p = Some sid \/ (p, sid) ∈ new_idx.
Proof.
  induction new_idx as [|row new_idx IH]; intros i p sid Hp; [left; assumption|].
  unfold MasterLight.insert_index in Hp. cbn [fold_left] in Hp.
  change (fold_left _ new_idx ?x) with (MasterLight.insert_index new_idx x) in Hp.
  destruct (IH _ _ _ Hp) as [Hi|Hin].
  - destruct row as [[t k] sid0]. cbn [fst snd] in Hi.
    destruct (decide ((t, k) = p)) as [<-|Hne].
    + rewrite lookup_insert_eq in Hi. injection Hi as ->.
      right. apply elem_of_cons. left. reflexivity.
    + rewrite lookup_insert_ne in Hi by assumption. left. assumption.
  - right. apply elem_of_cons. right. assumption.
Qed.

Lemma insert_index_last (t k : string) (sid : Z) (i : gmap (string * string) Z) :
  MasterLight.insert_index [(t, k, sid)] i !! (t, k) = Some sid.
Proof. unfold MasterLight.insert_index. cbn [fold_left fst snd]. apply lookup_insert_eq. Qed.


Lemma quiet_advances removed s s' : wf s -> quiet s s' -> advances removed s s'.
Proof.
  intros [Hco Hb] (Hi & Ha & Hd & Hco'). unfold advances, wf, bounded_ids.
  rewrite Hi, Ha. repeat split; auto; lia.
Qed.

Lemma routed_start t s : coherent s -> routed t s s [].
Proof.
  intros Hco. repeat split; auto; try lia.
  - intros p _ Hin. apply elem_of_nil in Hin. contradiction.
  - constructor.
Qed.

Lemma shard_loop_routing {A} (l : list A) (f : A -> Z) (body : A -> M MasterLight.Shard unit) s :
  routing (for_each l (fun g => MasterLight.on_shard getsize (f g) (body g)) s).2
  = routing s.
Proof. apply for_each_preserves. intros g s1. apply on_shard_routing. Qed.

Lemma set_multiple_advances mapping table s :
  wf s -> advances (fun _ => False) s (MasterLight.set_multiple getsize mapping table s).2.
Proof.
  intros [Hco Hb]. unfold MasterLight.set_multiple.
  unfold bind at 1. unfold gets at 1.
  set (t := py_or table (MasterLight.default_table s)).
  destruct (route_spec t mapping s s [] [] (routed_start t s Hco))
    as (groups & new_idx & s1 & E & HJ).
  unfold bind at 1. rewrite E.
  unfold bind at 1. unfold modify at 1.
  set (s2 := MasterLight.with_idx (MasterLight.insert_index new_idx) s1).
  pose proof (shard_loop_routing groups fst (fun g => MasterLight.shard_update t g.2) s2)
    as Hr.
  set (s3 := (for_each groups _ s2).2) in *.
  destruct HJ as (Hi & Hd & Ha & Hco1 & Hrows & Hnone & Hsorted).
  assert (Hr2 : routing s2
                = (MasterLight.insert_index new_idx (MasterLight.idx s),
                   MasterLight.lookup_cache s1, MasterLight.active_shard_id s1,
                   MasterLight.default_table s)).
  { subst s2. rewrite <- Hi, <- Hd. destruct s1. reflexivity. }
  rewrite Hr2 in Hr. unfold routing in Hr. injection Hr as Hi3 Hm3 Ha3 Hd3.
  assert (Hfresh : forall p sid, MasterLight.idx s !! p = Some sid -> p ∉ new_idx.*1).
  { intros p sid Hp Hin. apply list_elem_of_fmap in Hin as (row & -> & Hrow).
    rewrite Forall_forall in Hrows.
    destruct (Hrows row Hrow) as (_ & Hn & _). congruence. }
  assert (Hnew : forall p sid, (p, sid) ∈ new_idx ->
                 MasterLight.active_shard_id s <= sid <= MasterLight.active_shard_id s1).
  { intros p sid Hin. rewrite Forall_forall in Hrows.
    destruct (Hrows _ Hin) as (_ & _ & Hbd). exact Hbd. }
  unfold advances, wf, coherent, bounded_ids.
  rewrite Hi3, Hm3, Ha3, Hd3.
  repeat split.
  - intros p r Hin. pose proof (Hco1 p r Hin) as Hp. rewrite Hi in Hp.
    rewrite insert_index_other; [assumption|].
    destruct r as [sid|]; [eapply Hfresh; eassumption | apply Hnone; assumption].
  - intros p sid Hp. apply insert_index_some in Hp as [Hp|Hp].
    + specialize (Hb p sid Hp). lia.
    + apply (Hnew p sid Hp).
  - assumption.
  - intros p sid Hp _. rewrite insert_index_other; [assumption|].
    eapply Hfresh; eassumption.
  - intros p sid Hp. apply insert_index_some in Hp as [Hp|Hp]; [left; assumption|].
    right. apply (Hnew p sid Hp).
Qed.
End MasterLight_writes.

Section advances_facts.
Implicit Types (s : MasterLight.state).

Lemma advances_weaken (R R' : string * string -> Prop) s s' :
  (forall p, R p -> R' p) -> advances R s s' -> advances R' s s'.
Proof.
  intros Himp (Hwf & Ha & Hd & Hst & Hnew). repeat split; try assumption; try apply Hwf.
  intros p sid Hp Hn. apply Hst; [assumption|]. intros HR. apply Hn, Himp, HR.
Qed.

Lemma advances_trans (R1 R2 : string * string -> Prop) s s1 s2 :
  advances R1 s s1 -> advances R2 s1 s2 -> advances (fun p => R1 p \/ R2 p) s s2.
Proof.
  intros (Hwf1 & Ha1 & Hd1 & Hst1 & Hnew1) (Hwf2 & Ha2 & Hd2 & Hst2 & Hnew2).
  repeat split; try apply Hwf2; try lia; try congruence.
  - intros p sid Hp Hn. apply Hst2; [apply Hst1|]; tauto.
  - intros p sid' Hp. destruct (Hnew2 _ _ Hp) as [Hp1|Hge]; [|right; lia].
    destruct (Hnew1 _ _ Hp1) as [Hp0|Hge]; [left; assumption | right; assumption].
Qed.

End advances_facts.

Section MasterLight_removals.
Context `{Libs}.
Variable getsize : Z -> Z.
Implicit Types (s : MasterLight.state) (p : string * string).

Lemma delete_index_some t keys : forall (i : gmap (string * string) Z) p sid,
  MasterLight.delete_index t keys i !! p = Some sid -> i !! p = Some sid.
Proof.
  induction keys as [|k keys IH]; intros i p sid Hp; [assumption|].
  unfold MasterLight.delete_index in Hp. cbn [fold_left] in Hp.
  change (fold_left _ keys ?x) with (MasterLight.delete_index t keys x) in Hp.
  apply IH in Hp. destruct (decide ((t, k) = p)) as [<-|Hne].
  - rewrite lookup_delete_eq in Hp. discriminate.
  - rewrite lookup_delete_ne in Hp by assumption. assumption.
Qed.

Lemma delete_index_keep t keys : forall (i : gmap (string * string) Z) p sid,
  i !! p = Some sid -> ~ (p.1 = t /\ p.2 ∈ keys) ->
  MasterLight.delete_index t keys i !! p = Some sid.
Proof.
  induction keys as [|k keys IH]; intros i p sid Hp Hkeep; [assumption|].
  unfold MasterLight.delete_index. cbn [fold_left].
  change (fold_left _ keys ?x) with (MasterLight.delete_index t keys x).
  apply IH.
  - rewrite lookup_delete_ne; [assumption|]. intros <-. apply Hkeep.
    split; [reflexivity|]. apply elem_of_cons. left. reflexivity.
  - intros [Ht Hin]. apply Hkeep. split; [assumption|].
    apply elem_of_cons. right. assumption.
Qed.

Lemma delete_multiple_advances keys table s :
  wf s ->
  advances (fun p => p.1 = py_or table (MasterLight.default_table s) /\ p.2 ∈ keys)
    s (MasterLight.delete_multiple getsize keys table s).2.
Proof.
  intros Hwf. unfold MasterLight.delete_multiple.
  unfold bind at 1. unfold gets at 1.
  set (t := py_or table (MasterLight.default_table s)).
  pose proof (group_keys_quiet t keys [] s) as Hq1.
  destruct (group_keys_ok t keys [] s) as [groups Hok].
  unfold bind at 1.
  destruct (MasterLight.group_keys t keys [] s) as [[g|e] s1]; cbn [fst snd] in *;
    [injection Hok as -> | discriminate].
  pose proof (shard_loop_routing getsize groups fst
                (fun g => MasterLight.shard_delete t g.2) s1) as Hr.
  unfold bind at 1.
  destruct (for_each groups _ s1) as [[[]|e] s2]; cbn [snd] in *.
  - destruct Hq1 as (Hi1 & Ha1 & Hd1 & Hco1).
    unfold routing in Hr. injection Hr as Hi2 Hm2 Ha2 Hd2.
    destruct keys as [|k keys].
    + apply quiet_advances; [assumption|].
      unfold ret. cbn [snd]. unfold quiet.
      split; [congruence|]. split; [congruence|]. split; [congruence|].
      intros Hco. unfold coherent. rewrite Hi2, Hm2. apply Hco1, Hco.
    + destruct Hwf as [Hco Hb].
      set (s3 := (bind (modify (MasterLight.with_idx
                                  (MasterLight.delete_index t (k :: keys))))
                    (fun _ => MasterLight.cache_clear) s2).2).
      assert (Hi3 : MasterLight.idx s3
                    = MasterLight.delete_index t (k :: keys) (MasterLight.idx s))
        by (subst s3; rewrite <- Hi1, <- Hi2; destruct s2; reflexivity).
      assert (Hm3 : MasterLight.lookup_cache s3 = [])
        by (subst s3; destruct s2; reflexivity).
      assert (Ha3 : MasterLight.active_shard_id s3 = MasterLight.active_shard_id s)
        by (subst s3; rewrite <- Ha1, <- Ha2; destruct s2; reflexivity).
      assert (Hd3 : MasterLight.default_table s3 = MasterLight.default_table s)
        by (subst s3; rewrite <- Hd1, <- Hd2; destruct s2; reflexivity).
      clearbody s3. unfold advances, wf, coherent, bounded_ids.
      rewrite Hi3, Hm3, Ha3, Hd3.
      split; [split|].
      * intros p r Hin. apply elem_of_nil in Hin. contradiction.
      * intros p sid Hp. apply delete_index_some in Hp. apply (Hb p sid Hp).
      * split; [lia|]. split; [reflexivity|]. split.
        -- intros p sid Hp Hkeep. apply delete_index_keep; assumption.
        -- intros p sid Hp. left. apply delete_index_some in Hp. assumption.
  - apply quiet_advances; [assumption|].
    eapply quiet_trans; [exact Hq1 | apply routing_quiet, Hr].
Qed.

Lemma for_each_shard_spec (body : M MasterLight.Shard unit) :
  (forall sh, (body sh).1 = Ok tt) ->
  forall todo s,
    (MasterLight.for_each_shard getsize todo body s).1 = Ok tt /\
    routing (MasterLight.for_each_shard getsize todo body s).2 = routing s.
Proof.
  intros Hbody. induction todo as [|sid todo IH]; intros s; [split; reflexivity|].
  cbn [MasterLight.for_each_shard]. unfold bind.
  pose proof (on_shard_ok getsize sid body s Hbody) as Hok.
  pose proof (on_shard_routing getsize sid body s) as Hr.
  destruct (MasterLight.on_shard getsize sid body s) as [[[]|e] s1]; cbn [fst snd] in *;
    [|discriminate].
  destruct (IH s1) as [IH1 IH2]. split; [assumption | congruence].
Qed.

(** What [clear_table] and [drop_table] do to the routing state. *)
Lemma purge_advances (table : string) (body : M MasterLight.Shard unit) s :
  (forall sh, (body sh).1 = Ok tt) ->
  wf s ->
  advances (fun p => p.1 = table) s
    (bind (modify (MasterLight.with_idx (MasterLight.delete_index_table table)))
       (fun _ => bind (gets (fun s => OrderedDict.keys (MasterLight.shards s)))
          (fun open => bind (MasterLight.for_each_shard getsize open body)
             (fun _ => bind MasterLight.cache_clear (fun _ => ret true)))) s).2.
Proof.
  intros Hbody [Hco Hb].
  unfold bind at 1. unfold modify at 1.
  set (s1 := MasterLight.with_idx _ s).
  unfold bind at 1. unfold gets at 1.
  destruct (for_each_shard_spec body Hbody (OrderedDict.keys (MasterLight.shards s1)) s1)
    as [Hok Hr].
  unfold bind at 1.
  destruct (MasterLight.for_each_shard getsize _ body s1) as [[[]|e] s2];
    cbn [fst snd] in *; [|discriminate].
  unfold routing in Hr. injection Hr as Hi2 Hm2 Ha2 Hd2.
  unfold bind, MasterLight.cache_clear, modify, ret. cbn [snd].
  assert (Hi : MasterLight.idx s2
               = MasterLight.delete_index_table table (MasterLight.idx s))
    by (rewrite Hi2; destruct s; reflexivity).
  assert (Ha : MasterLight.active_shard_id s2 = MasterLight.active_shard_id s)
    by (rewrite Ha2; destruct s; reflexivity).
  assert (Hd : MasterLight.default_table s2 = MasterLight.default_table s)
    by (rewrite Hd2; destruct s; reflexivity).
  set (s3 := MasterLight.with_lookup_cache (fun _ => []) s2).
  assert (Hi3 : MasterLight.idx s3
                = MasterLight.delete_index_table table (MasterLight.idx s))
    by (subst s3; rewrite <- Hi; destruct s2; reflexivity).
  assert (Hm3 : MasterLight.lookup_cache s3 = [])
    by (subst s3; destruct s2; reflexivity).
  assert (Ha3 : MasterLight.active_shard_id s3 = MasterLight.active_shard_id s)
    by (subst s3; rewrite <- Ha; destruct s2; reflexivity).
  assert (Hd3 : MasterLight.default_table s3 = MasterLight.default_table s)
    by (subst s3; rewrite <- Hd; destruct s2; reflexivity).
  clearbody s3. unfold advances, wf, coherent, bounded_ids.
  rewrite Hi3, Hm3, Ha3, Hd3. unfold MasterLight.delete_index_table.
  split; [split|].
  - intros p r Hin. apply elem_of_nil in Hin. contradiction.
  - intros p sid Hp. apply map_lookup_filter_Some in Hp as [Hp _]. apply (Hb p sid Hp).
  - split; [lia|]. split; [reflexivity|]. split.
    + intros p sid Hp Hkeep. apply map_lookup_filter_Some. split; [assumption|].
      cbn [fst]. exact Hkeep.
    + intros p sid Hp. left. apply map_lookup_filter_Some in Hp as [Hp _]. exact Hp.
Qed.

Lemma clear_table_advances table s :
  wf s -> advances (fun p => p.1 = table) s (MasterLight.clear_table getsize table s).2.
Proof.
  intros Hwf. apply purge_advances; [|assumption].
  intros sh. unfold bind, MasterLight.sql, Sqlite.drop_table_if_exists,
    Sqlite.create_table_if_not_exists, modify.
  cbn [fst snd]. destruct (_ !! table); reflexivity.
Qed.

Lemma drop_table_advances table s :
  wf s -> advances (fun p => p.1 = table) s (MasterLight.drop_table getsize table s).2.
Proof.
  intros Hwf. apply purge_advances; [|assumption].
  intros sh. reflexivity.
Qed.

Lemma step_advances (o : MasterOp.op) s :
  wf s ->
  advances (MasterOp.removes (MasterLight.default_table s) o) s (MasterOp.step getsize o s).
Proof.
  intros Hwf. destruct o; cbn [MasterOp.step MasterOp.removes].
  - apply set_multiple_advances. assumption.
  - apply quiet_advances; [assumption | apply get_value_quiet].
  - apply set_multiple_advances. assumption.
  - apply quiet_advances; [assumption | apply get_multiple_quiet].
  - eapply advances_weaken; [|apply delete_multiple_advances; assumption].
    intros [t k] [Ht Hin]. cbn [fst snd] in *.
    apply list_elem_of_singleton in Hin. congruence.
  - apply delete_multiple_advances. assumption.
  - apply quiet_advances; [assumption | apply check_quiet].
  - apply quiet_advances; [assumption | apply quiet_refl].
  - apply quiet_advances; [assumption | apply quiet_refl].
  - apply quiet_advances; [assumption | apply create_table_quiet].
  - apply clear_table_advances. assumption.
  - apply drop_table_advances. assumption.
  - apply quiet_advances; [assumption | apply flush_quiet].
  - apply quiet_advances; [assumption | apply get_all_quiet].
Qed.

(** The loop of [set_multiple] on one pair that the index does not hold. *)
Lemma route_single t key v s :
  coherent s ->
  MasterLight.idx s !! (t, key) = None ->
  exists s2,
    MasterLight.route getsize t [(key, v)] [] [] s
    = (Ok ([(MasterLight.active_shard_id s2, [(key, v)])],
           [(t, key, MasterLight.active_shard_id s2)]), s2) /\
    MasterLight.idx s2 = MasterLight.idx s /\
    MasterLight.active_shard_id s2
    = (if MasterLight.MAX_SHARD_SIZE <? recorded_size getsize s
       then MasterLight.active_shard_id s + 1 else MasterLight.active_shard_id s).
Proof.
  intros Hco Hnone.
  destruct (lookup_spec t key s Hco) as (s1 & E1 & Hi1 & Ha1 & Hd1 & Hsh1 & _).
  destruct (assign_spec getsize s1) as (s2 & E2 & Hi2 & _ & _ & Ha2).
  assert (Hrec : recorded_size getsize s1 = recorded_size getsize s).
  { unfold recorded_size. rewrite Ha1, Hsh1. reflexivity. }
  exists s2. split; [|split; [congruence | rewrite Ha2, Hrec, Ha1; reflexivity]].
  cbn [MasterLight.route]. unfold bind at 1. rewrite E1, Hnone.
  unfold bind at 1. unfold bind at 1. rewrite E2. reflexivity.
Qed.
End MasterLight_removals.

Section MasterLight_runs.
Context `{Libs}.
Implicit Types (s : MasterLight.state) (p : string * string).

Lemma run_advances calls : forall s,
  wf s ->
  advances (fun p => Exists (fun c => MasterOp.removes (MasterLight.default_table s) c.2 p)
                       calls)
    s (MasterOp.run calls s).
Proof.
  induction calls as [|[getsize o] calls IH]; intros s Hwf.
  - apply quiet_advances; [assumption | apply quiet_refl].
  - unfold MasterOp.run. cbn [fold_left fst snd].
    change (fold_left _ calls ?x) with (MasterOp.run calls x).
    pose proof (step_advances getsize o s Hwf) as Hstep.
    pose proof Hstep as (Hwf1 & _ & Hd1 & _).
    specialize (IH _ Hwf1). rewrite Hd1 in IH.
    eapply advances_weaken; [|eapply advances_trans; [exact Hstep | exact IH]].
    cbv beta. intros p [Hp|Hp]; [apply Exists_cons_hd | apply Exists_cons_tl]; exact Hp.
Qed.

(** C4. From a well-formed state of the sharded backend (the memo
    agrees with the Master Index and no recorded shard id exceeds the
    active one, as after construction), through any calls: the state
    stays well-formed and the active shard id never decreases; a pair
    that the index records keeps its shard id, and resolves to it, as
    long as no call deletes it; a pair recorded later gets an id at least
    as large as every id recorded before; the ids handed out by one
    [set_multiple] are non-decreasing in the order of its mapping; and a
    new key written when the size recorded for the active shard exceeds
    [MAX_SHARD_SIZE] gets the next id, above every id recorded so far. *)
Theorem shard_assignment (s : MasterLight.state) :
  wf s ->
  (forall calls,
     let s' := MasterOp.run calls s in
     wf s' /\
     MasterLight.active_shard_id s <= MasterLight.active_shard_id s' /\
     (forall p sid,
        MasterLight.idx s !! p = Some sid ->
        Forall (fun c => ~ MasterOp.removes (MasterLight.default_table s) c.2 p) calls ->
        MasterLight.idx s' !! p = Some sid /\
        (MasterLight._lookup_shard_id p.1 p.2 s').1 = Ok (Some sid)) /\
     (forall p sid',
        MasterLight.idx s !! p = None ->
        MasterLight.idx s' !! p = Some sid' ->
        forall q sid, MasterLight.idx s !! q = Some sid -> sid <= sid')) /\
  (forall getsize t mapping groups new_idx s',
     MasterLight.route getsize t mapping [] [] s = (Ok (groups, new_idx), s') ->
     StronglySorted Z.le new_idx.*2 /\
     Forall (fun row => MasterLight.idx s !! row.1 = None /\
                        MasterLight.active_shard_id s <= row.2
                          <= MasterLight.active_shard_id s') new_idx) /\
  (forall getsize key v table,
     let t := py_or table (MasterLight.default_table s) in
     MasterLight.idx s !! (t, key) = None ->
     MasterLight.MAX_SHARD_SIZE < recorded_size getsize s ->
     let s' := (MasterLight.set_value getsize key v table s).2 in
     MasterLight.idx s' !! (t, key) = Some (MasterLight.active_shard_id s + 1) /\
     MasterLight.active_shard_id s' = MasterLight.active_shard_id s + 1 /\
     (forall q sid, MasterLight.idx s !! q = Some sid ->
                    sid < MasterLight.active_shard_id s + 1)).
Proof.
  intros Hwf. pose proof Hwf as [Hco Hb]. split; [|split].
  - intros calls s'.
    destruct (run_advances calls s Hwf) as (Hwf' & Ha & Hd & Hst & Hnew).
    fold s' in Hwf', Ha, Hd, Hst, Hnew.
    split; [assumption|]. split; [assumption|]. split.
    + intros p sid Hp Hkeep.
      assert (Hp' : MasterLight.idx s' !! p = Some sid).
      { apply Hst; [assumption|]. intros Hex.
        apply Exists_exists in Hex as (c & Hc & Hrem).
        rewrite Forall_forall in Hkeep. exact (Hkeep c Hc Hrem). }
      split; [assumption|].
      destruct (lookup_spec p.1 p.2 s' (proj1 Hwf')) as (s'' & E & _).
      rewrite E. cbn [fst]. destruct p. cbn [fst snd]. rewrite Hp'. reflexivity.
    + intros p sid' Hnone Hp q sid Hq.
      destruct (Hnew p sid' Hp) as [Hold|Hge]; [congruence|].
      specialize (Hb q sid Hq). lia.
  - intros getsize t mapping groups new_idx s' E.
    destruct (route_spec getsize t mapping s s [] [] (routed_start t s Hco))
      as (groups' & new_idx' & s1 & E' & HJ).
    rewrite E in E'. injection E' as <- <- <-.
    destruct HJ as (_ & _ & _ & _ & Hrows & _ & Hsorted).
    split; [assumption|]. eapply Forall_impl; [exact Hrows|]. cbv beta. tauto.
  - intros getsize key v table t Hnone Hbig s'.
    destruct (route_single getsize t key v s Hco Hnone) as (s2 & E & Hi2 & Ha2).
    apply Z.ltb_lt in Hbig. rewrite Hbig in Ha2.
    set (s3 := MasterLight.with_idx
                 (MasterLight.insert_index [(t, key, MasterLight.active_shard_id s2)]) s2).
    assert (Es : s' = (for_each [(MasterLight.active_shard_id s2, [(key, v)])]
                         (fun g => MasterLight.on_shard getsize g.1
                                     (MasterLight.shard_update t g.2)) s3).2).
    { unfold s', MasterLight.set_value, MasterLight.set_multiple.
      unfold bind at 1. unfold gets at 1. fold t.
      unfold bind at 1. rewrite E.
      unfold bind at 1. unfold modify at 1. reflexivity. }
    assert (Hi3 : MasterLight.idx s3
                  = MasterLight.insert_index
                      [(t, key, MasterLight.active_shard_id s2)] (MasterLight.idx s))
      by (subst s3; rewrite <- Hi2; destruct s2; reflexivity).
    assert (Ha3 : MasterLight.active_shard_id s3 = MasterLight.active_shard_id s2)
      by (subst s3; destruct s2; reflexivity).
    clearbody s3.
    pose proof (shard_loop_routing getsize
                  [(MasterLight.active_shard_id s2, [(key, v)])] fst
                  (fun g => MasterLight.shard_update t g.2) s3) as Hr.
    cbv beta in Hr. rewrite <- Es in Hr. clearbody s'. unfold routing in Hr.
    injection Hr as Hi4 _ Ha4 _.
    rewrite Hi4, Hi3, Ha4, Ha3, insert_index_last, Ha2.
    split; [reflexivity|]. split; [reflexivity|].
    intros q sid Hq. specialize (Hb q sid Hq). lia.
Qed.
End MasterLight_runs.

Lemma shard_assignment_witness :
  let big := fun _ : Z => 200 * 1024 * 1024 in
  let s1 := MasterOp.run [(fun _ => 0, MasterOp.SetValue "a" (VInt 1) None);
                          (big, MasterOp.Flush false)]
              (MasterLight.init "storage" ∅ ∅) in
  let s2 := (MasterLight.set_value big "b" (VInt 2) None s1).2 in
  MasterLight.idx s1 !! ("storage", "a") = Some 0 /\
  MasterLight.idx s2 !! ("storage", "b") = Some (MasterLight.active_shard_id s1 + 1) /\
  MasterLight.active_shard_id s2 = MasterLight.active_shard_id s1 + 1 /\
  (forall q sid, MasterLight.idx s1 !! q = Some sid ->
                 sid < MasterLight.active_shard_id s1 + 1).
Proof.
  intros big s1 s2. split; [vm_compute; reflexivity|].
  refine (proj2 (proj2 (shard_assignment s1 _)) big "b" (VInt 2) None _ _).
  - exact (proj1 (proj1 (shard_assignment (MasterLight.init "storage" ∅ ∅)
                           (init_wf "storage" ∅ ∅)) _)).
  - vm_compute. reflexivity.
  - vm_compute. reflexivity.
Defined.
